(** * JPG -> PNG converter (script.js): a shallow embedding and its properties

    The browser script is embedded function by function:
    - [validateFile], the UI handlers ([showError], [cleanupPreview],
      [showPreview], [resetUI], [setLoading], [handleFiles]) act on one record
      [ui] that gathers the two script globals, the properties of the DOM
      elements the script touches and the registry of live object URLs;
    - [loadImageFromFile] and [convertImageToPng] are asynchronous: each is a
      small transition system over the callbacks the browser may run, with
      the calls made to [resolve]/[reject] logged in order;
    - [calculateTargetSize] computes on JavaScript numbers, that is IEEE 754
      binary64 values: it is written over [spec_float] with the operations of
      the standard library's [SpecFloat] at precision 53 and [emax] 1024;
    - [formatBytes] prints the number value of the size as [String] and
      [Number.prototype.toFixed] print it;
    - [downloadBlob], [onConvertClicked] and the event listeners act on a
      [page]: the record [ui], the anchors added to the body, the downloads
      triggered, the armed timers and the loaders started, whose temporary
      object URLs live in the same store; [step] runs one event.

    JavaScript strings are modelled by [string]; the only case mapping the
    script needs is the one of the letters A-Z, the sole characters whose
    lower case is a letter of "jpg" or "jpeg". *)

From Stdlib Require Import ZArith QArith Qpower Lia Lqa List Bool Ascii String.
From Stdlib Require Import Floats.SpecFloat.
From stdpp Require Import base decidable strings gmap pretty.

Local Open Scope string_scope.
Local Open Scope Z_scope.

(** ** Strings: [split], [pop], [toLowerCase], [includes] *)

Module Js.

(** [s.split(sep)] for a one-character separator: the pieces between the
    separators, in order; a string without separator is its only piece. *)
Fixpoint split (sep : ascii) (s : string) : list string :=
  match s with
  | EmptyString => [EmptyString]
  | String c s' =>
      if Ascii.eqb c sep then EmptyString :: split sep s'
      else match split sep s' with
           | piece :: pieces => String c piece :: pieces
           | [] => [String c EmptyString]
           end
  end.

(** [a.pop()] on an array: its last element ([undefined] on the empty array,
    which [split] never returns; the default stands for it). *)
Definition pop (a : list string) : string := List.last a EmptyString.

Definition lower_ascii (c : ascii) : ascii :=
  let n := nat_of_ascii c in
  if (Nat.leb 65 n && Nat.leb n 90)%bool then ascii_of_nat (n + 32) else c.

Fixpoint toLowerCase (s : string) : string :=
  match s with
  | EmptyString => EmptyString
  | String c s' => String (lower_ascii c) (toLowerCase s')
  end.

(** [a.includes(x)] on an array of strings (strict equality). *)
Fixpoint includes (a : list string) (x : string) : bool :=
  match a with
  | [] => false
  | y :: a' => if String.eqb y x then true else includes a' x
  end.

(** [x || ''] where [x] is a string: the empty string is the only falsy
    string, so the expression is [x] itself. *)
Definition or_empty (x : string) : string :=
  if String.eqb x "" then "" else x.

End Js.

(** ** Files and the validator *)

(** The fields of a DOM [File] the script reads. *)
Record File := mkFile {
  name : string;
  type : string;
  size : Z
}.

(** The object returned by [validateFile]: [{ ok, reason }]; [reason] is
    absent on success. *)
Record validation := mkValidation {
  ok : bool;
  reason : option string
}.

Definition allowedExt : list string := ["jpg"; "jpeg"].
Definition allowedMime : list string := ["image/jpeg"].

(** [name.split('.').pop().toLowerCase()] *)
Definition extension (nm : string) : string :=
  Js.toLowerCase (Js.pop (Js.split "." nm)).

(** [validateFile(file)]; [None] is a falsy [file] ([null]/[undefined]). *)
Definition validateFile (file : option File) : validation :=
  match file with
  | None => {| ok := false; reason := Some "No file" |}
  | Some f =>
      let nm := Js.or_empty (name f) in
      let ext := extension nm in
      let mime := Js.or_empty (type f) in
      if (negb (Js.includes allowedExt ext) || negb (Js.includes allowedMime mime))%bool
      then {| ok := false;
              reason := Some "Invalid file. Please upload a JPG or JPEG image." |}
      else {| ok := true; reason := None |}
  end.

(** ** JavaScript numbers

    A JavaScript number is an IEEE 754 binary64 value.  The operators [/],
    [*] and [<=] are the standard library's executable specification of the
    format; [Math.min], [Math.max] and [Math.floor] are written from their
    ECMAScript definitions. *)

Module Num.

Definition prec : Z := 53.
Definition emax : Z := 1024.

Definition number : Type := spec_float.

(** The number denoted by an integer literal or an integer-valued DOM
    attribute (exact below 2^53, rounded to nearest even above). *)
Definition of_Z (n : Z) : number := binary_normalize prec emax n 0 false.

Definition div (x y : number) : number := SFdiv prec emax x y.
Definition mul (x y : number) : number := SFmul prec emax x y.
Definition leb (x y : number) : bool := SFleb x y.

(** [Math.min(x, y)]: NaN if either is NaN, else the smaller one, with -0
    below +0. *)
Definition Math_min (x y : number) : number :=
  match SFcompare x y with
  | None => S754_nan
  | Some Lt => x
  | Some Gt => y
  | Some Eq =>
      match x, y with
      | S754_zero true, _ => x
      | _, S754_zero true => y
      | _, _ => x
      end
  end.

(** [Math.max(x, y)]: NaN if either is NaN, else the larger one, with +0
    above -0. *)
Definition Math_max (x y : number) : number :=
  match SFcompare x y with
  | None => S754_nan
  | Some Gt => x
  | Some Lt => y
  | Some Eq =>
      match x, y with
      | S754_zero false, _ => x
      | _, S754_zero false => y
      | _, _ => x
      end
  end.

(** [Math.floor(x)]: NaN, the infinities and the zeros are returned as they
    are; a finite [±m·2^e] with [e >= 0] is an integer already; otherwise the
    integer floor is taken (below 2^53, hence represented exactly), and a
    zero result keeps the sign of [x]. *)
Definition Math_floor (x : number) : number :=
  match x with
  | S754_finite s m e =>
      if 0 <=? e then x
      else binary_normalize prec emax (cond_Zopp s (Zpos m) / 2 ^ (- e)) 0 s
  | _ => x
  end.

(** [ToUint32] of a number, as applied when a number is stored into an
    [unsigned long] DOM attribute such as [canvas.width]. *)
Definition ToUint32 (x : number) : Z :=
  match x with
  | S754_finite s m e =>
      let a := if 0 <=? e then Zpos m * 2 ^ e else Zpos m / 2 ^ (- e) in
      (cond_Zopp s a) mod 2 ^ 32
  | _ => 0
  end.

(** The value of a finite number, as a rational ([0] for NaN and the
    infinities, which the statements below exclude). *)
Definition to_Q (x : number) : Q :=
  match x with
  | S754_finite s m e => inject_Z (cond_Zopp s (Zpos m)) * (2 ^ e)%Q
  | _ => 0%Q
  end.

End Num.

(** ** The downscale planner *)

Record Size := mkSize {
  width : Num.number;
  height : Num.number
}.

Definition MAX_DIMENSION : Num.number := Num.of_Z 4096.
Definition LOAD_TIMEOUT_MS : Z := 15000.

(** [calculateTargetSize(width, height, maxDim)] *)
Definition calculateTargetSize (w h maxDim : Num.number) : Size :=
  if (Num.leb w maxDim && Num.leb h maxDim)%bool then {| width := w; height := h |}
  else
    let scale := Num.Math_min (Num.div maxDim w) (Num.div maxDim h) in
    {| width := Num.Math_max (Num.of_Z 1) (Num.Math_floor (Num.mul w scale));
       height := Num.Math_max (Num.of_Z 1) (Num.Math_floor (Num.mul h scale)) |}.

(** ** Rounding: the vocabulary of the proofs

    [binary_round_aux] shifts a mantissa to 53 bits while it keeps track of
    the position of the exact value between two consecutive mantissas, then
    rounds to nearest, ties to even. *)

(** The exact value [N/D] stands at location [l] between [m] and [m + 1]:
    on [m], in the lower half, in the middle or in the upper half. *)
Definition loc_ok (m : Z) (l : location) (N D : Z) : Prop :=
  match l with
  | loc_Exact => N = m * D
  | loc_Inexact Lt => m * D < N /\ 2 * N < (2 * m + 1) * D
  | loc_Inexact Eq => 2 * N = (2 * m + 1) * D
  | loc_Inexact Gt => (2 * m + 1) * D < 2 * N /\ N < (m + 1) * D
  end.

Definition rec_ok (mrs : shr_record) (N D : Z) : Prop :=
  0 <= shr_m mrs /\ loc_ok (shr_m mrs) (loc_of_shr_record mrs) N D.

(** A positive number in the normal range: a mantissa of 53 bits, and an
    exponent between [lo] and [hi]. *)
Definition normal_between (lo hi : Z) (x : Num.number) : Prop :=
  exists m e, x = S754_finite false m e /\ Zpos (digits2_pos m) = 53 /\ lo <= e <= hi.

(** The number of mantissa [m1] at exponent [e], where [m1] may be 2^53, one
    more than the largest mantissa. *)
Definition rounded (m1 e : Z) : Num.number :=
  if m1 <? 2 ^ 53 then S754_finite false (Z.to_pos m1) e
  else S754_finite false (Z.to_pos (2 ^ 52)) (e + 1).

(** Half the distance between 1 and the next number: the largest relative
    error of one rounding in the normal range. *)
Definition eps : Q := 1 # 9007199254740992.

(** ** The page state

    The two script globals, the properties and attributes of the DOM elements
    the handlers read or write, and the browser's store of object URLs. *)

Record ui := mkUi {
  currentObjectUrl : option string;      (* let currentObjectUrl *)
  currentFile : option File;             (* let currentFile *)
  errorMsg_textContent : string;         (* #error-msg *)
  fileInfo_textContent : string;         (* #file-info *)
  fileInfo_ariaHidden : option string;
  previewWrap_hidden : bool;             (* #preview-wrap *)
  previewImg_src : string;               (* #preview-img *)
  previewImg_alt : option string;
  detailName_textContent : string;       (* #detail-name *)
  detailSize_textContent : string;       (* #detail-size *)
  convertBtn_disabled : bool;            (* #convert-btn *)
  convertBtn_ariaBusy : option string;
  resetBtn_disabled : bool;              (* #reset-btn *)
  resetBtn_ariaDisabled : option string;
  loader_hidden : bool;                  (* #loader *)
  fileInput_value : string;              (* #file-input *)
  objectUrls : gset string;              (* URLs registered and not revoked *)
  urlCounter : Z                         (* object URLs created so far *)
}.

(** A statement is a state transformer; [s |> f |> g] runs [f] then [g]. *)
Notation "s |> f" := (f s) (at level 45, left associativity, only parsing).

(** Assignment to one field. *)
Definition set_currentObjectUrl (v : option string) (s : ui) : ui :=
  let 'mkUi _ a2 a3 a4 a5 a6 a7 a8 a9 a10 a11 a12 a13 a14 a15 a16 a17 a18 := s in
  mkUi v a2 a3 a4 a5 a6 a7 a8 a9 a10 a11 a12 a13 a14 a15 a16 a17 a18.
Definition set_currentFile (v : option File) (s : ui) : ui :=
  let 'mkUi a1 _ a3 a4 a5 a6 a7 a8 a9 a10 a11 a12 a13 a14 a15 a16 a17 a18 := s in
  mkUi a1 v a3 a4 a5 a6 a7 a8 a9 a10 a11 a12 a13 a14 a15 a16 a17 a18.
Definition set_errorMsg_textContent (v : string) (s : ui) : ui :=
  let 'mkUi a1 a2 _ a4 a5 a6 a7 a8 a9 a10 a11 a12 a13 a14 a15 a16 a17 a18 := s in
  mkUi a1 a2 v a4 a5 a6 a7 a8 a9 a10 a11 a12 a13 a14 a15 a16 a17 a18.
Definition set_fileInfo_textContent (v : string) (s : ui) : ui :=
  let 'mkUi a1 a2 a3 _ a5 a6 a7 a8 a9 a10 a11 a12 a13 a14 a15 a16 a17 a18 := s in
  mkUi a1 a2 a3 v a5 a6 a7 a8 a9 a10 a11 a12 a13 a14 a15 a16 a17 a18.
Definition set_fileInfo_ariaHidden (v : option string) (s : ui) : ui :=
  let 'mkUi a1 a2 a3 a4 _ a6 a7 a8 a9 a10 a11 a12 a13 a14 a15 a16 a17 a18 := s in
  mkUi a1 a2 a3 a4 v a6 a7 a8 a9 a10 a11 a12 a13 a14 a15 a16 a17 a18.
Definition set_previewWrap_hidden (v : bool) (s : ui) : ui :=
  let 'mkUi a1 a2 a3 a4 a5 _ a7 a8 a9 a10 a11 a12 a13 a14 a15 a16 a17 a18 := s in
  mkUi a1 a2 a3 a4 a5 v a7 a8 a9 a10 a11 a12 a13 a14 a15 a16 a17 a18.
Definition set_previewImg_src (v : string) (s : ui) : ui :=
  let 'mkUi a1 a2 a3 a4 a5 a6 _ a8 a9 a10 a11 a12 a13 a14 a15 a16 a17 a18 := s in
  mkUi a1 a2 a3 a4 a5 a6 v a8 a9 a10 a11 a12 a13 a14 a15 a16 a17 a18.
Definition set_previewImg_alt (v : option string) (s : ui) : ui :=
  let 'mkUi a1 a2 a3 a4 a5 a6 a7 _ a9 a10 a11 a12 a13 a14 a15 a16 a17 a18 := s in
  mkUi a1 a2 a3 a4 a5 a6 a7 v a9 a10 a11 a12 a13 a14 a15 a16 a17 a18.
Definition set_detailName_textContent (v : string) (s : ui) : ui :=
  let 'mkUi a1 a2 a3 a4 a5 a6 a7 a8 _ a10 a11 a12 a13 a14 a15 a16 a17 a18 := s in
  mkUi a1 a2 a3 a4 a5 a6 a7 a8 v a10 a11 a12 a13 a14 a15 a16 a17 a18.
Definition set_detailSize_textContent (v : string) (s : ui) : ui :=
  let 'mkUi a1 a2 a3 a4 a5 a6 a7 a8 a9 _ a11 a12 a13 a14 a15 a16 a17 a18 := s in
  mkUi a1 a2 a3 a4 a5 a6 a7 a8 a9 v a11 a12 a13 a14 a15 a16 a17 a18.
Definition set_convertBtn_disabled (v : bool) (s : ui) : ui :=
  let 'mkUi a1 a2 a3 a4 a5 a6 a7 a8 a9 a10 _ a12 a13 a14 a15 a16 a17 a18 := s in
  mkUi a1 a2 a3 a4 a5 a6 a7 a8 a9 a10 v a12 a13 a14 a15 a16 a17 a18.
Definition set_convertBtn_ariaBusy (v : option string) (s : ui) : ui :=
  let 'mkUi a1 a2 a3 a4 a5 a6 a7 a8 a9 a10 a11 _ a13 a14 a15 a16 a17 a18 := s in
  mkUi a1 a2 a3 a4 a5 a6 a7 a8 a9 a10 a11 v a13 a14 a15 a16 a17 a18.
Definition set_resetBtn_disabled (v : bool) (s : ui) : ui :=
  let 'mkUi a1 a2 a3 a4 a5 a6 a7 a8 a9 a10 a11 a12 _ a14 a15 a16 a17 a18 := s in
  mkUi a1 a2 a3 a4 a5 a6 a7 a8 a9 a10 a11 a12 v a14 a15 a16 a17 a18.
Definition set_resetBtn_ariaDisabled (v : option string) (s : ui) : ui :=
  let 'mkUi a1 a2 a3 a4 a5 a6 a7 a8 a9 a10 a11 a12 a13 _ a15 a16 a17 a18 := s in
  mkUi a1 a2 a3 a4 a5 a6 a7 a8 a9 a10 a11 a12 a13 v a15 a16 a17 a18.
Definition set_loader_hidden (v : bool) (s : ui) : ui :=
  let 'mkUi a1 a2 a3 a4 a5 a6 a7 a8 a9 a10 a11 a12 a13 a14 _ a16 a17 a18 := s in
  mkUi a1 a2 a3 a4 a5 a6 a7 a8 a9 a10 a11 a12 a13 a14 v a16 a17 a18.
Definition set_fileInput_value (v : string) (s : ui) : ui :=
  let 'mkUi a1 a2 a3 a4 a5 a6 a7 a8 a9 a10 a11 a12 a13 a14 a15 _ a17 a18 := s in
  mkUi a1 a2 a3 a4 a5 a6 a7 a8 a9 a10 a11 a12 a13 a14 a15 v a17 a18.
Definition set_objectUrls (v : gset string) (s : ui) : ui :=
  let 'mkUi a1 a2 a3 a4 a5 a6 a7 a8 a9 a10 a11 a12 a13 a14 a15 a16 _ a18 := s in
  mkUi a1 a2 a3 a4 a5 a6 a7 a8 a9 a10 a11 a12 a13 a14 a15 a16 v a18.
Definition set_urlCounter (v : Z) (s : ui) : ui :=
  let 'mkUi a1 a2 a3 a4 a5 a6 a7 a8 a9 a10 a11 a12 a13 a14 a15 a16 a17 _ := s in
  mkUi a1 a2 a3 a4 a5 a6 a7 a8 a9 a10 a11 a12 a13 a14 a15 a16 a17 v.

(** ** Object URLs *)

(** [URL.createObjectURL(blob)]: a fresh URL, registered in the store. *)
Definition createObjectURL (s : ui) : string * ui :=
  let url := "blob:" +:+ pretty (urlCounter s) in
  (url, s |> set_objectUrls ({[ url ]} ∪ objectUrls s)
          |> set_urlCounter (urlCounter s + 1)).

(** [URL.revokeObjectURL(url)]: removes the URL from the store; revoking a
    URL that is not registered does nothing and does not throw. *)
Definition revokeObjectURL (url : string) (s : ui) : ui :=
  s |> set_objectUrls (objectUrls s ∖ {[ url ]}).

(** ** Byte sizes

    [file.size] is an integer.  The script computes with its number value,
    [Num.of_Z]: the integer itself below 2^53, the nearest binary64 number
    above.  Every number that [formatBytes] prints as such is integral or
    infinite. *)

(** [t], padded with zeros on the left to [digits] characters. *)
Fixpoint pad_left (digits : nat) (t : string) : string :=
  match digits with
  | O => t
  | S d => if Nat.ltb (String.length t) digits then pad_left d ("0" +:+ t) else t
  end.

(** [n] zeros. *)
Fixpoint zeros (n : nat) : string :=
  match n with
  | O => ""
  | S n' => "0" +:+ zeros n'
  end.

(** The number of decimal digits of a positive integer. *)
Definition decimalLength (v : Z) : Z := Z.of_nat (String.length (pretty v)).

(** The value of an integral number ([0] for NaN and the infinities). *)
Definition integerValue (x : Num.number) : Z :=
  match x with
  | S754_finite s m e =>
      cond_Zopp s (if 0 <=? e then Zpos m * 2 ^ e else Zpos m / 2 ^ (- e))
  | _ => 0
  end.

(** Number::toString, step 5, for the integral number of value [X > 0]: the
    pairs [(s, n)] where [s] has [k] digits and [s·10^(n-k)] denotes the
    number, that is, rounds to it.  Such an [s] is one of the two integers
    around [X / 10^(n-k)], and [n] is the number of digits of [X], or one
    more when [X] is just below a power of ten. *)
Definition shortestCandidates (X k : Z) : list (Z * Z) :=
  let d := decimalLength X in
  List.filter
    (fun c : Z * Z =>
       let '(s, n) := c in
       ((10 ^ (k - 1) <=? s) && (s <? 10 ^ k)
        && SFeqb (Num.of_Z (s * 10 ^ (n - k))) (Num.of_Z X))%bool)
    [(X / 10 ^ (d - k), d); (X / 10 ^ (d - k) + 1, d);
     (X / 10 ^ (d + 1 - k), d + 1); (X / 10 ^ (d + 1 - k) + 1, d + 1)].

(** Of two candidates, the one closer to [X]; the even one when they are
    equally close (the choice that the standard recommends in its second
    note to Number::toString). *)
Definition closer (X k : Z) (a b : Z * Z) : Z * Z :=
  let dist := fun c : Z * Z => Z.abs (fst c * 10 ^ (snd c - k) - X) in
  if dist b <? dist a then b
  else if ((dist b =? dist a) && Z.even (fst b))%bool then b else a.

(** The shortest digits: the least [k], from [k] on, that has a candidate.
    Seventeen digits tell any two numbers apart, so that the search ends
    before the fuel does. *)
Fixpoint shortest (fuel : nat) (X k : Z) : Z * Z :=
  match fuel with
  | O => (X, decimalLength X)
  | S fuel' =>
      match shortestCandidates X k with
      | c :: cs => fold_left (closer X k) cs c
      | [] => shortest fuel' X (k + 1)
      end
  end.

(** Number::toString for the integral number of value [X > 0]: the digits
    of [s] followed by [n - k] zeros when [n <= 21], the exponent notation
    [d.ddde+N] otherwise. *)
Definition toString_positive (X : Z) : string :=
  let '(s, n) := shortest 17 X 1 in
  let ds := pretty s in
  if n <=? 21 then ds +:+ zeros (Z.to_nat (n - decimalLength s))
  else
    match ds with
    | String c rest =>
        String c (if String.eqb rest "" then "" else "." +:+ rest)
          +:+ "e+" +:+ pretty (n - 1)
    | EmptyString => EmptyString
    end.

(** [String(x)], as in [x + ' B'].  The script applies it to the number
    value of an integer only: [x] is integral or infinite, and the digits of
    a fraction are not needed. *)
Definition Number_toString (x : Num.number) : string :=
  match x with
  | S754_nan => "NaN"
  | S754_zero _ => "0"
  | S754_infinity s => if s then "-Infinity" else "Infinity"
  | S754_finite s m e =>
      (if s then "-" else "")
        +:+ toString_positive (integerValue (S754_finite false m e))
  end.

(** Number.prototype.toFixed, step 10, for [0 <= x = num/den < 10^21]: the
    integer [n] nearest to [x·10^digits], the larger one on a tie, printed
    with a decimal point before its last [digits] digits. *)
Definition toFixed_digits (num den : Z) (digits : nat) : string :=
  let p := 10 ^ Z.of_nat digits in
  let n := (2 * num * p + den) / (2 * den) in
  match digits with
  | O => pretty n
  | _ => pretty (n / p) +:+ "." +:+ pad_left digits (pretty (n mod p))
  end.

(** [x.toFixed(digits)]: a number that is not finite is printed by
    [String]; the sign is set apart; from 10^21 on (the number is integral
    then) the result is that of [String]. *)
Definition toFixed (x : Num.number) (digits : nat) : string :=
  match x with
  | S754_finite s m e =>
      (if s then "-" else "") +:+
      (if 0 <=? e then
         if 10 ^ 21 <=? Zpos m * 2 ^ e then toString_positive (Zpos m * 2 ^ e)
         else toFixed_digits (Zpos m * 2 ^ e) 1 digits
       else toFixed_digits (Zpos m) (2 ^ (- e)) digits)
  | S754_zero _ => toFixed_digits 0 1 digits
  | _ => Number_toString x
  end.

(** [formatBytes(bytes)] *)
Definition formatBytes (bytes : Z) : string :=
  let b := Num.of_Z bytes in
  if SFltb b (Num.of_Z 1024) then Number_toString b +:+ " B"
  else if SFltb b (Num.mul (Num.of_Z 1024) (Num.of_Z 1024))
  then toFixed (Num.div b (Num.of_Z 1024)) 1 +:+ " KB"
  else toFixed (Num.div b (Num.mul (Num.of_Z 1024) (Num.of_Z 1024))) 2 +:+ " MB".

(** ** UI handlers *)

(** [showError(message)]; [None] is an [undefined] message. *)
Definition showError (message : option string) (s : ui) : ui :=
  s |> set_errorMsg_textContent (Js.or_empty (default "" message))
    |> set_fileInfo_ariaHidden (Some "true").

(** [clearError()] *)
Definition clearError (s : ui) : ui :=
  s |> set_errorMsg_textContent ""
    |> set_fileInfo_ariaHidden None.

(** [cleanupPreview()] *)
Definition cleanupPreview (s : ui) : ui :=
  (match currentObjectUrl s with
   | Some url => s |> revokeObjectURL url |> set_currentObjectUrl None
   | None => s
   end)
    |> set_previewImg_src ""
    |> set_previewImg_alt None
    |> set_previewWrap_hidden true
    |> set_detailName_textContent ""
    |> set_detailSize_textContent "".

(** [showPreview(file)] *)
Definition showPreview (file : File) (s : ui) : ui :=
  let s1 := s |> cleanupPreview |> clearError in
  let '(url, s2) := createObjectURL s1 in
  s2 |> set_currentObjectUrl (Some url)
     |> set_previewImg_src url
     |> set_previewImg_alt (Some (name file))
     |> set_detailName_textContent (name file)
     |> set_detailSize_textContent (formatBytes (size file))
     |> set_previewWrap_hidden false.

(** [resetUI()] *)
Definition resetUI (s : ui) : ui :=
  s |> cleanupPreview
    |> set_currentFile None
    |> set_fileInput_value ""
    |> clearError
    |> set_fileInfo_textContent "No file selected"
    |> set_convertBtn_disabled true
    |> set_resetBtn_ariaDisabled (Some "true")
    |> set_loader_hidden true.

(** [setLoading(isLoading)] *)
Definition setLoading (isLoading : bool) (s : ui) : ui :=
  if isLoading then
    s |> set_loader_hidden false
      |> set_convertBtn_disabled true
      |> set_resetBtn_disabled true
      |> set_convertBtn_ariaBusy (Some "true")
  else
    let s1 := s |> set_loader_hidden true |> set_convertBtn_ariaBusy None in
    (match currentFile s1 with
     | Some _ => s1 |> set_convertBtn_disabled false
     | None => s1
     end) |> set_resetBtn_disabled false.

(** The test [currentFile && file.name === currentFile.name &&
    file.size === currentFile.size] of [handleFiles]. *)
Definition sameAsCurrent (file : File) (s : ui) : bool :=
  match currentFile s with
  | Some cur => (String.eqb (name file) (name cur) && (size file =? size cur))%bool
  | None => false
  end.

(** [handleFiles(files)]; [None] is a falsy [files], the list is the
    [FileList].  The function has no [await]: its body runs to completion
    within the call. *)
Definition handleFiles (files : option (list File)) (s : ui) : ui :=
  match files with
  | None | Some [] => s
  | Some (file :: _) =>
      if sameAsCurrent file s then s
      else
        let valid := validateFile (Some file) in
        if negb (ok valid) then s |> showError (reason valid)
        else
          s |> set_currentFile (Some file)
            |> showPreview file
            |> set_fileInfo_textContent "Ready to convert"
            |> set_convertBtn_disabled false
            |> set_resetBtn_ariaDisabled None
  end.

(** The page as [init()] leaves it. *)
Definition init : ui :=
  {| currentObjectUrl := None; currentFile := None;
     errorMsg_textContent := ""; fileInfo_textContent := "No file selected";
     fileInfo_ariaHidden := None; previewWrap_hidden := true;
     previewImg_src := ""; previewImg_alt := None;
     detailName_textContent := ""; detailSize_textContent := "";
     convertBtn_disabled := true; convertBtn_ariaBusy := None;
     resetBtn_disabled := false; resetBtn_ariaDisabled := Some "true";
     loader_hidden := true; fileInput_value := "";
     objectUrls := ∅; urlCounter := 0 |}.

(** ** Images and blobs *)

(** What the script reads of an [HTMLImageElement]. *)
Record Image := mkImage {
  naturalWidth : Z;
  naturalHeight : Z
}.

Record Blob := mkBlob {
  blobType : string;
  blobSize : Z
}.

(** ** The image loader

    [loadImageFromFile(file)] builds a promise whose executor arms a timer
    and installs [onload] and [onerror]; afterwards only these three
    callbacks run, in an order the browser chooses.  The state holds the
    variables of the closure, the calls made to [resolve]/[reject] in order
    and the state of the promise (which keeps its first settlement). *)

Module Loader.

Inductive settlement :=
  | Resolved (img : Image)
  | Rejected (message : string).

Record state := mkState {
  timedOut : bool;               (* let timedOut *)
  timerPending : bool;           (* the timeout [to] is armed *)
  revocations : nat;             (* calls to URL.revokeObjectURL(tmpUrl) *)
  calls : list settlement;       (* calls to resolve / reject, oldest first *)
  promise : option settlement    (* None while pending *)
}.

(** A call to [resolve] or [reject]: logged; the promise changes only if it
    is still pending. *)
Definition settle (c : settlement) (s : state) : state :=
  {| timedOut := timedOut s; timerPending := timerPending s;
     revocations := revocations s;
     calls := calls s ++ [c];
     promise := match promise s with None => Some c | Some c0 => Some c0 end |}.

Definition revokeTmpUrl (s : state) : state :=
  {| timedOut := timedOut s; timerPending := timerPending s;
     revocations := S (revocations s);
     calls := calls s; promise := promise s |}.

Definition set_timedOut (v : bool) (s : state) : state :=
  {| timedOut := v; timerPending := timerPending s;
     revocations := revocations s; calls := calls s; promise := promise s |}.

Definition set_timerPending (v : bool) (s : state) : state :=
  {| timedOut := timedOut s; timerPending := v;
     revocations := revocations s; calls := calls s; promise := promise s |}.

(** The state when the executor returns: timer armed, nothing settled. *)
Definition start : state :=
  {| timedOut := false; timerPending := true; revocations := 0;
     calls := []; promise := None |}.

(** The callback given to [setTimeout]. *)
Definition onTimeout (s : state) : state :=
  s |> set_timedOut true
    |> revokeTmpUrl
    |> settle (Rejected "Image load timed out.").

(** [img.onload] *)
Definition onload (img : Image) (s : state) : state :=
  if timedOut s then s
  else s |> set_timerPending false   (* clearTimeout(to) *)
         |> revokeTmpUrl
         |> settle (Resolved img).

(** [img.onerror] *)
Definition onerror (s : state) : state :=
  if timedOut s then s
  else s |> set_timerPending false   (* clearTimeout(to) *)
         |> revokeTmpUrl
         |> settle (Rejected "Failed to read image data.").

(** What the browser may do next. *)
Inductive event :=
  | TimerFires
  | ImgLoad (img : Image)
  | ImgError.

(** A timer runs its callback once, and only while it is armed. *)
Definition step (s : state) (ev : event) : state :=
  match ev with
  | TimerFires =>
      if timerPending s then s |> set_timerPending false |> onTimeout else s
  | ImgLoad img => onload img s
  | ImgError => onerror s
  end.

Definition run (evs : list event) (s : state) : state := fold_left step evs s.

(** Once the timeout callback has run, the flag is set and the timer is no
    longer armed. *)
Definition expired (s : state) : Prop :=
  timedOut s = true /\ timerPending s = false.

End Loader.

(** ** The rasterizer / encoder

    [convertImageToPng] is an [async function] whose body ends with
    [return new Promise(...)].  Two promises are involved: the inner one
    built in the body, settled by the calls to [resolve]/[reject], and the
    outer one that the async function returns to its caller.  Returning the
    inner promise makes the outer one adopt it: a microtask calls
    [inner.then] with the outer promise's resolving functions, and the
    reaction that settles the outer promise is itself a microtask, run when
    the callback that settled the inner promise has returned. *)

Module Encoder.

Inductive bitmap :=
  | Transparent
  | Painted (img : Image).

Record Canvas := mkCanvas {
  cwidth : Z;
  cheight : Z;
  pixels : bitmap
}.

Inductive outcome :=
  | Fulfilled (blob : Blob)
  | Rejected (message : string).

(** What happens, in order. *)
Inductive action :=
  | Draw                          (* ctx.drawImage(...) *)
  | ToBlob                        (* canvas.toBlob(...) is called *)
  | ClearRect                     (* ctx.clearRect(0, 0, width, height) *)
  | SetHeight (v : Z)             (* canvas.height = v *)
  | SetWidth (v : Z)              (* canvas.width = v *)
  | InnerSettle (o : outcome)     (* resolve / reject of the inner promise *)
  | OuterSettle (o : outcome).    (* the returned promise settles *)

Inductive job :=
  | AdoptInner                    (* inner.then(resolveOuter, rejectOuter) *)
  | Reaction (o : outcome).       (* the reaction of the outer promise *)

Record state := mkState {
  canvas : option Canvas;         (* None before createElement('canvas') *)
  inner : option outcome;         (* None while pending *)
  innerReaction : bool;           (* the outer promise waits on the inner *)
  outer : option outcome;
  microtasks : list job;
  log : list action
}.

Definition set_canvas (v : option Canvas) (s : state) : state :=
  let 'mkState _ a2 a3 a4 a5 a6 := s in mkState v a2 a3 a4 a5 a6.
Definition set_inner (v : option outcome) (s : state) : state :=
  let 'mkState a1 _ a3 a4 a5 a6 := s in mkState a1 v a3 a4 a5 a6.
Definition set_innerReaction (v : bool) (s : state) : state :=
  let 'mkState a1 a2 _ a4 a5 a6 := s in mkState a1 a2 v a4 a5 a6.
Definition set_outer (v : option outcome) (s : state) : state :=
  let 'mkState a1 a2 a3 _ a5 a6 := s in mkState a1 a2 a3 v a5 a6.
Definition set_microtasks (v : list job) (s : state) : state :=
  let 'mkState a1 a2 a3 a4 _ a6 := s in mkState a1 a2 a3 a4 v a6.
Definition record (a : action) (s : state) : state :=
  let 'mkState a1 a2 a3 a4 a5 a6 := s in mkState a1 a2 a3 a4 a5 (a6 ++ [a]).

Definition enqueue (j : job) (s : state) : state :=
  s |> set_microtasks (microtasks s ++ [j]).

Definition on_canvas (f : Canvas -> Canvas) (s : state) : state :=
  s |> set_canvas (f <$> canvas s).

(** [resolve(v)] / [reject(e)] of the inner promise: only a pending promise
    changes, and a waiting reaction is queued as a microtask. *)
Definition settleInner (o : outcome) (s : state) : state :=
  let s := record (InnerSettle o) s in
  match inner s with
  | Some _ => s
  | None =>
      let s := s |> set_inner (Some o) in
      if innerReaction s then s |> enqueue (Reaction o) else s
  end.

Definition settleOuter (o : outcome) (s : state) : state :=
  match outer s with
  | Some _ => s
  | None => s |> set_outer (Some o) |> record (OuterSettle o)
  end.

(** [inner.then(resolveOuter, rejectOuter)] *)
Definition thenInner (s : state) : state :=
  match inner s with
  | None => s |> set_innerReaction true
  | Some o => s |> enqueue (Reaction o)
  end.

Definition runJob (j : job) (s : state) : state :=
  match j with
  | AdoptInner => thenInner s
  | Reaction o => settleOuter o s
  end.

(** The microtask checkpoint reached when the running script returns: jobs
    run oldest first until the queue is empty. *)
Fixpoint drain (fuel : nat) (s : state) : state :=
  match fuel with
  | O => s
  | S fuel' =>
      match microtasks s with
      | [] => s
      | j :: js => drain fuel' (runJob j (s |> set_microtasks js))
      end
  end.

(** Each queued job queues at most one further job, and a reaction none. *)
Definition checkpoint (s : state) : state :=
  drain (2 * length (microtasks s)) s.

(** The clean-up statements, the same in the callback and in the [catch]:
    [ctx.clearRect(0, 0, canvas.width, canvas.height);
     canvas.width = canvas.height = 0;] *)
Definition cleanup (s : state) : state :=
  s |> on_canvas (fun c => mkCanvas (cwidth c) (cheight c) Transparent)
    |> record ClearRect
    |> on_canvas (fun c => mkCanvas (cwidth c) 0 Transparent)
    |> record (SetHeight 0)
    |> on_canvas (fun c => mkCanvas 0 (cheight c) Transparent)
    |> record (SetWidth 0).

Definition initial : state :=
  {| canvas := None; inner := None; innerReaction := false; outer := None;
     microtasks := []; log := [] |}.

(** The call itself, up to the point where the async function returns its
    promise.  [throws] is the exception [canvas.toBlob] raises, if it raises
    one instead of scheduling the encoding. *)
Definition call (imgElement : option Image) (throws : option string) : state :=
  match imgElement with
  | Some img =>
      if naturalWidth img =? 0 then
        initial |> settleOuter (Rejected "Invalid image for conversion.")
      else
        let srcW := naturalWidth img in
        let srcH := naturalHeight img in
        let target :=
          calculateTargetSize (Num.of_Z srcW) (Num.of_Z srcH) MAX_DIMENSION in
        let s :=
          initial
            |> set_canvas (Some (mkCanvas 300 150 Transparent))
            |> on_canvas (fun c => mkCanvas (Num.ToUint32 (width target)) (cheight c) Transparent)
            |> on_canvas (fun c => mkCanvas (cwidth c) (Num.ToUint32 (height target)) Transparent)
            |> on_canvas (fun c => mkCanvas (cwidth c) (cheight c) (Painted img))
            |> record Draw
            |> record ToBlob in
        let s :=
          match throws with
          | Some err => s |> cleanup |> settleInner (Rejected err)
          | None => s
          end in
        s |> enqueue AdoptInner
  | None => initial |> settleOuter (Rejected "Invalid image for conversion.")
  end.

(** The callback passed to [canvas.toBlob]; [None] is a null blob. *)
Definition toBlobCallback (blob : option Blob) (s : state) : state :=
  (match blob with
   | None => s |> settleInner (Rejected "Conversion failed (no output).")
   | Some b => s |> settleInner (Fulfilled b)
   end) |> cleanup.

(** What [canvas.toBlob] does: raise, or later call back with the blob. *)
Inductive toBlobBehaviour :=
  | Throws (err : string)
  | CallsBack (blob : option Blob).

(** A whole run: the call and its microtask checkpoint, then, when the
    encoding was scheduled, the callback and its checkpoint. *)
Definition convertImageToPng (imgElement : option Image) (env : toBlobBehaviour)
  : state :=
  match env with
  | Throws err => checkpoint (call imgElement (Some err))
  | CallsBack blob =>
      let s := checkpoint (call imgElement None) in
      match canvas s with
      | Some _ => checkpoint (toBlobCallback blob s)
      | None => s
      end
  end.

(** The outcome the caller is to observe. *)
Definition expected (env : toBlobBehaviour) : outcome :=
  match env with
  | Throws err => Rejected err
  | CallsBack (Some blob) => Fulfilled blob
  | CallsBack None => Rejected "Conversion failed (no output)."
  end.

(** The canvas is released: no pixel is left and both dimensions are 0. *)
Definition released (s : state) : Prop :=
  canvas s = Some (mkCanvas 0 0 Transparent).

Definition release : list action := [ClearRect; SetHeight 0; SetWidth 0].

Definition is_OuterSettle (a : action) : bool :=
  match a with OuterSettle _ => true | _ => false end.

(** In the log [l] the returned promise settles once, with [o], as the last
    action, and the three release actions come before it. *)
Definition settles_after_release (l : list action) (o : outcome) : Prop :=
  exists before between : list action,
    l = (before ++ release ++ between ++ [OuterSettle o])%list /\
    forallb (fun a => negb (is_OuterSettle a)) (before ++ between)%list = true.

End Encoder.

(** ** Page states *)

(** The empty page: nothing selected, no preview, no error message, the
    convert button disabled. *)
Definition Empty (s : ui) : Prop :=
  currentFile s = None /\
  currentObjectUrl s = None /\
  previewWrap_hidden s = true /\
  previewImg_src s = "" /\
  previewImg_alt s = None /\
  detailName_textContent s = "" /\
  detailSize_textContent s = "" /\
  errorMsg_textContent s = "" /\
  convertBtn_disabled s = true.

(** The selection, the preview and the convert button of two states agree. *)
Definition same_selection (s s' : ui) : Prop :=
  currentFile s' = currentFile s /\
  currentObjectUrl s' = currentObjectUrl s /\
  objectUrls s' = objectUrls s /\
  urlCounter s' = urlCounter s /\
  previewWrap_hidden s' = previewWrap_hidden s /\
  previewImg_src s' = previewImg_src s /\
  previewImg_alt s' = previewImg_alt s /\
  detailName_textContent s' = detailName_textContent s /\
  detailSize_textContent s' = detailSize_textContent s /\
  convertBtn_disabled s' = convertBtn_disabled s.

Definition invalidFileMessage : string :=
  "Invalid file. Please upload a JPG or JPEG image.".

(** No character of [s] is a dot. *)
Fixpoint no_dot (s : string) : bool :=
  match s with
  | EmptyString => true
  | String c s' => (negb (Ascii.eqb c ".") && no_dot s')%bool
  end.

(** The extension as the specification words it, before lower-casing: the
    substring after the final dot.  A name without any dot has no such
    substring.  This definition follows the words, not the code. *)
Fixpoint substringAfterFinalDot (s : string) : option string :=
  match s with
  | EmptyString => None
  | String c s' =>
      match substringAfterFinalDot s' with
      | Some suf => Some suf
      | None => if Ascii.eqb c "." then Some s' else None
      end
  end.

(** A page in the Ready state, holding photo.JPG. *)
Definition readyPage : ui :=
  handleFiles (Some [mkFile "photo.JPG" "image/jpeg" 500000]) init.

(** ** The output file name *)

(** No character of [s] is a dot or a slash: [s] matches [[^/.]*]. *)
Fixpoint no_dot_slash (s : string) : bool :=
  match s with
  | EmptyString => true
  | String c s' =>
      (negb (Ascii.eqb c ".") && negb (Ascii.eqb c "/") && no_dot_slash s')%bool
  end.

(** [s.replace(/\.[^/.]+$/, '')]: the leftmost position where the pattern
    matches is searched from the left; there the string is cut.  The pattern
    matches at a dot that is followed, up to the end of the string, by one
    or more characters that are neither a dot nor a slash. *)
Fixpoint stripExtension (s : string) : string :=
  match s with
  | EmptyString => EmptyString
  | String c s' =>
      if (Ascii.eqb c "." && negb (String.eqb s' "") && no_dot_slash s')%bool
      then EmptyString
      else String c (stripExtension s')
  end.

(** [`${(name || 'image').replace(/\.[^/.]+$/, '')}.png`] *)
Definition outName (nm : string) : string :=
  stripExtension (if String.eqb nm "" then "image" else nm) +:+ ".png".

(** ** The page: the state of the script together with its downloads

    [downloadBlob] adds an anchor to the document body and arms a timer that
    removes it; a successful conversion arms a second timer that resets the
    page; [loadImageFromFile] registers a temporary object URL and arms the
    time-out of the load.  The object URLs of the record [ui] are those
    created by [showPreview], [downloadBlob] and [loadImageFromFile]; the
    page keeps the closure of every loader it has started, under its
    temporary URL. *)

Record Anchor := mkAnchor {
  href : string;
  download : string
}.

Global Instance Anchor_eq_dec : EqDecision Anchor.
Proof. solve_decision. Defined.

(** The callbacks given to [setTimeout] by [downloadBlob] (250 ms), by
    [onConvertClicked] (400 ms) and by [loadImageFromFile]
    ([LOAD_TIMEOUT_MS]), the last one for the loader of [tmpUrl]. *)
Inductive timer :=
  | RemoveAnchor (a : Anchor)
  | ResetAfterDownload
  | LoadTimeout (tmpUrl : string).

Global Instance timer_eq_dec : EqDecision timer.
Proof. solve_decision. Defined.

Definition delay (t : timer) : Z :=
  match t with
  | RemoveAnchor _ => 250
  | ResetAfterDownload => 400
  | LoadTimeout _ => LOAD_TIMEOUT_MS
  end.

Record page := mkPage {
  dom : ui;
  bodyAnchors : list Anchor;          (* the anchors appended to document.body *)
  clicks : list (Anchor * Blob);      (* a.click(): the blob saved, and under which name *)
  timers : list timer;                (* armed timers, oldest first *)
  dragover : bool;                    (* the dropzone has the class 'dragover' *)
  loaders : list (string * Loader.state)
                                      (* the loaders started: tmpUrl and closure *)
}.

Definition with_dom (f : ui -> ui) (p : page) : page :=
  mkPage (f (dom p)) (bodyAnchors p) (clicks p) (timers p) (dragover p) (loaders p).

Definition set_dragover (v : bool) (p : page) : page :=
  mkPage (dom p) (bodyAnchors p) (clicks p) (timers p) v (loaders p).

Definition setTimeout (t : timer) (p : page) : page :=
  mkPage (dom p) (bodyAnchors p) (clicks p) (timers p ++ [t]) (dragover p)
         (loaders p).

(** [clearTimeout(to)]: the timer is disarmed, if it is still armed. *)
Fixpoint clearTimeout (t : timer) (ts : list timer) : list timer :=
  match ts with
  | [] => []
  | x :: ts' => if decide (x = t) then ts' else x :: clearTimeout t ts'
  end.

(** [document.body.removeChild(a)] *)
Fixpoint removeChild (a : Anchor) (l : list Anchor) : list Anchor :=
  match l with
  | [] => []
  | x :: l' => if decide (x = a) then l' else x :: removeChild a l'
  end.

(** [downloadBlob(blob, filename)] *)
Definition downloadBlob (blob : Blob) (filename : string) (p : page) : page :=
  let '(url, s1) := createObjectURL (dom p) in
  let a := {| href := url; download := filename |} in
  mkPage s1 (bodyAnchors p ++ [a]) (clicks p ++ [(a, blob)])
         (timers p ++ [RemoveAnchor a]) (dragover p) (loaders p).

(** The closure of the loader of [tmpUrl]. *)
Fixpoint closure (tmpUrl : string) (ls : list (string * Loader.state))
  : option Loader.state :=
  match ls with
  | [] => None
  | (u, st) :: ls' => if String.eqb u tmpUrl then Some st else closure tmpUrl ls'
  end.

Definition updateClosure (tmpUrl : string) (f : Loader.state -> Loader.state)
    (ls : list (string * Loader.state)) : list (string * Loader.state) :=
  map (fun l => if String.eqb (fst l) tmpUrl then (fst l, f (snd l)) else l) ls.

(** The executor of the promise of [loadImageFromFile(file)], which runs
    within the call: the temporary URL is registered, the time-out is armed,
    the closure is in its initial state. *)
Definition loadImageFromFile (p : page) : page :=
  let '(tmpUrl, s1) := createObjectURL (dom p) in
  mkPage s1 (bodyAnchors p) (clicks p) (timers p ++ [LoadTimeout tmpUrl])
         (dragover p) (loaders p ++ [(tmpUrl, Loader.start)]).

(** [img.onload] and [img.onerror] of the loader of [tmpUrl], on the page:
    nothing after the time-out; otherwise the time-out is cleared, the
    temporary URL is revoked and [f], [Loader.onload img] or
    [Loader.onerror], updates the closure and settles the promise. *)
Definition imgCallback (tmpUrl : string) (f : Loader.state -> Loader.state)
    (p : page) : page :=
  match closure tmpUrl (loaders p) with
  | Some st =>
      if Loader.timedOut st then p
      else mkPage (revokeObjectURL tmpUrl (dom p)) (bodyAnchors p) (clicks p)
                  (clearTimeout (LoadTimeout tmpUrl) (timers p)) (dragover p)
                  (updateClosure tmpUrl f (loaders p))
  | None => p
  end.

(** What a timer does when it fires. *)
Definition timerCallback (t : timer) (p : page) : page :=
  match t with
  | RemoveAnchor a =>
      mkPage (revokeObjectURL (href a) (dom p)) (removeChild a (bodyAnchors p))
             (clicks p) (timers p) (dragover p) (loaders p)
  | ResetAfterDownload =>
      p |> with_dom (fun s => s |> resetUI
                               |> set_fileInfo_textContent "Downloaded ✓")
  | LoadTimeout tmpUrl =>
      mkPage (revokeObjectURL tmpUrl (dom p)) (bodyAnchors p) (clicks p)
             (timers p) (dragover p)
             (updateClosure tmpUrl
                (fun st => st |> Loader.set_timerPending false |> Loader.onTimeout)
                (loaders p))
  end.

(** ** The convert flow

    [onConvertClicked] runs up to its first [await]; the rest of its body
    runs when the awaited promise has settled, on the page as it is then. *)

(** [err && err.message ? err.message : '...'], for an error of message [m]
    (the empty message is falsy). *)
Definition errorText (m : string) : string :=
  if String.eqb m "" then "An error occurred during conversion." else m.

(** The part before the first [await].  [preview] is the preview element
    when the test [previewImg && previewImg.src && previewImg.complete &&
    previewImg.naturalWidth] holds: the conversion goes on with it.
    Otherwise [loadImageFromFile(currentFile)] is called, and its promise is
    awaited. *)
Definition onConvertClicked_begin (preview : option Image) (p : page) : page :=
  match currentFile (dom p) with
  | None => p |> with_dom (showError (Some "No file selected."))
  | Some _ =>
      let p1 := p |> with_dom (fun s => s |> setLoading true |> clearError) in
      match preview with
      | Some _ => p1
      | None => loadImageFromFile p1
      end
  end.

(** The image that is converted: the preview element when it can be used;
    otherwise the image is loaded, and [decode] is what the browser reports
    to the loader. *)
Definition acquire (preview : option Image) (decode : list Loader.event)
  : option Loader.settlement :=
  match preview with
  | Some img => Some (Loader.Resolved img)
  | None => Loader.promise (Loader.run decode Loader.start)
  end.

(** The outcome of the two awaits; [None] when the promise awaited never
    settles. *)
Definition pipeline (preview : option Image) (decode : list Loader.event)
    (env : Encoder.toBlobBehaviour) : option Encoder.outcome :=
  match acquire preview decode with
  | None => None
  | Some (Loader.Rejected m) => Some (Encoder.Rejected m)
  | Some (Loader.Resolved img) =>
      Encoder.outer (Encoder.convertImageToPng (Some img) env)
  end.

(** The rest of the body, once the pipeline has settled with [r].  Reading
    [currentFile.name] when the selection is gone raises a TypeError, whose
    message [typeError] is the engine's; it is caught like any other. *)
Definition onConvertClicked_settle (typeError : string) (r : Encoder.outcome)
    (p : page) : page :=
  (match r with
   | Encoder.Fulfilled pngBlob =>
       match currentFile (dom p) with
       | Some f =>
           p |> downloadBlob pngBlob (outName (name f))
             |> setTimeout ResetAfterDownload
       | None => p |> with_dom (showError (Some (errorText typeError)))
       end
   | Encoder.Rejected m => p |> with_dom (showError (Some (errorText m)))
   end)
    |> with_dom (setLoading false).

(** ** Events *)

(** What the user and the browser may do.  A click on a disabled button is
    not dispatched.  [Settled] is the moment when the body of
    [onConvertClicked] resumes after its awaits, with the outcome [r] of the
    pipeline. *)
Inductive event :=
  | Drop (files : option (list File))     (* 'drop' on the dropzone *)
  | DragOver                              (* 'dragenter', 'dragover' *)
  | DragLeave                             (* 'dragleave', 'dragend', 'mouseout' *)
  | Change (files : option (list File))   (* 'change' on the file input *)
  | ClickConvert (preview : option Image) (* 'click', and whether the preview can be used *)
  | ClickReset
  | Decoded (tmpUrl : string) (img : Image)  (* 'load' on the image of a loader *)
  | DecodeFailed (tmpUrl : string)           (* 'error' on the image of a loader *)
  | Settled (typeError : string) (r : Encoder.outcome)
  | TimerFires (i : nat).                 (* the i-th armed timer fires *)

(** [onDrop(e)] *)
Definition onDrop (files : option (list File)) (p : page) : page :=
  (match files with
   | Some (_ :: _) => p |> with_dom (handleFiles files)
   | _ => p
   end) |> set_dragover false.

Definition step (p : page) (ev : event) : page :=
  match ev with
  | Drop files => onDrop files p
  | DragOver => p |> set_dragover true
  | DragLeave => p |> set_dragover false
  | Change files => p |> with_dom (fun s => s |> clearError |> handleFiles files)
  | ClickConvert preview =>
      if convertBtn_disabled (dom p) then p else onConvertClicked_begin preview p
  | ClickReset =>
      if resetBtn_disabled (dom p) then p else p |> with_dom resetUI
  | Decoded tmpUrl img => imgCallback tmpUrl (Loader.onload img) p
  | DecodeFailed tmpUrl => imgCallback tmpUrl Loader.onerror p
  | Settled typeError r => onConvertClicked_settle typeError r p
  | TimerFires i =>
      match timers p !! i with
      | Some t =>
          timerCallback t
            (mkPage (dom p) (bodyAnchors p) (clicks p) (delete i (timers p))
                    (dragover p) (loaders p))
      | None => p
      end
  end.

Definition run (evs : list event) (p : page) : page := fold_left step evs p.

(** The page when the script has run [init()]. *)
Definition initPage : page := mkPage init [] [] [] false [].

(** The object URL numbered [k]. *)
Definition blobUrl (k : Z) : string := "blob:" +:+ pretty k.

Definition previewUrls (s : ui) : gset string :=
  match currentObjectUrl s with
  | Some u => {[ u ]}
  | None => ∅
  end.

Definition pendingAnchors (ts : list timer) : list Anchor :=
  omap (fun t => match t with RemoveAnchor a => Some a | _ => None end) ts.

(** The temporary URLs of the loads whose time-out is armed. *)
Definition pendingLoads (ts : list timer) : list string :=
  omap (fun t => match t with LoadTimeout u => Some u | _ => None end) ts.

(** The URLs that await a timer: those of the anchors in the body and those
    of the loads under way. *)
Definition timedUrls (p : page) : list string :=
  ((href <$> bodyAnchors p) ++ pendingLoads (timers p))%list.

(** No object URL is lost: every URL of the store and of a loader was
    created; the store holds the URL of the preview, if one is shown, the
    URLs of the anchors in the body and the temporary URLs of the loads whose
    time-out is armed, each once; the temporary URL of a loader is registered
    only while its time-out is armed; every anchor awaits its removal; a
    preview URL is held exactly when a file is selected. *)
Record consistent (p : page) : Prop := {
  urls_numbered :
    forall u, u ∈ objectUrls (dom p) ->
              exists k, k < urlCounter (dom p) /\ u = blobUrl k;
  loaders_numbered :
    forall u, u ∈ (fst <$> loaders p) ->
              exists k, k < urlCounter (dom p) /\ u = blobUrl k;
  urls_accounted :
    objectUrls (dom p) = previewUrls (dom p) ∪ list_to_set (timedUrls p);
  urls_distinct : NoDup (timedUrls p);
  preview_apart :
    forall u, currentObjectUrl (dom p) = Some u -> u ∉ timedUrls p;
  loaders_released :
    forall u, u ∈ (fst <$> loaders p) -> u ∈ objectUrls (dom p) ->
              u ∈ pendingLoads (timers p);
  anchors_pending : bodyAnchors p ≡ₚ pendingAnchors (timers p);
  preview_iff_file :
    is_Some (currentObjectUrl (dom p)) <-> is_Some (currentFile (dom p))
}.

(** The Ready state for the selection [file]. *)
Definition Ready (file : File) (s : ui) : Prop :=
  currentFile s = Some file /\
  (exists u, currentObjectUrl s = Some u /\ previewImg_src s = u /\
             u ∈ objectUrls s) /\
  previewImg_alt s = Some (name file) /\
  previewWrap_hidden s = false /\
  detailName_textContent s = name file /\
  detailSize_textContent s = formatBytes (size file) /\
  errorMsg_textContent s = "" /\
  fileInfo_ariaHidden s = None /\
  fileInfo_textContent s = "Ready to convert" /\
  convertBtn_disabled s = false /\
  resetBtn_ariaDisabled s = None.

(** Once a load or an error has been handled in time, the timer is disarmed
    for good and the time-out rejection is not among the calls. *)
Definition disarmed (s : Loader.state) : Prop :=
  Loader.timerPending s = false /\ Loader.timedOut s = false /\
  ~ In (Loader.Rejected "Image load timed out.") (Loader.calls s).

(** Two states agree on the selection and on the object URLs. *)
Definition same_urls (s s' : ui) : Prop :=
  currentObjectUrl s' = currentObjectUrl s /\
  currentFile s' = currentFile s /\
  objectUrls s' = objectUrls s /\
  urlCounter s' = urlCounter s.

(** The messages with which the pipeline of a conversion can fail. *)
Definition pipelineMessages : list string :=
  ["Image load timed out."; "Failed to read image data.";
   "Invalid image for conversion."; "Conversion failed (no output)."].

(** * Properties *)

(** ** The validator *)

Lemma or_empty_id (x : string) : Js.or_empty x = x.
Proof.
  unfold Js.or_empty. destruct (String.eqb_spec x ""); congruence.
Qed.

Lemma includes_In (a : list string) (x : string) :
  Js.includes a x = true <-> In x a.
Proof.
  induction a as [|y a IH]; simpl.
  - split; [discriminate | tauto].
  - destruct (String.eqb_spec y x) as [->|Hne].
    + split; auto.
    + rewrite IH. split; [auto | intros [Heq|Hin]; [congruence | exact Hin]].
Qed.

Lemma split_not_nil (sep : ascii) (s : string) : Js.split sep s <> [].
Proof.
  induction s as [|c s IH]; simpl; [discriminate|].
  destruct (Ascii.eqb c sep); [discriminate|].
  destruct (Js.split sep s); [congruence | discriminate].
Qed.

Lemma split_no_dot (s : string) : no_dot s = true -> Js.split "." s = [s].
Proof.
  induction s as [|c s IH]; simpl; [reflexivity|].
  destruct (Ascii.eqb c "."); simpl; [discriminate|].
  intros Hs. rewrite (IH Hs). reflexivity.
Qed.

(** The pieces of [pre.suf] end with [suf] when [suf] has no dot. *)
Lemma split_final_dot (pre suf : string) :
  no_dot suf = true ->
  exists x l, Js.split "." (pre +:+ "." +:+ suf) = (x :: l ++ [suf])%list.
Proof.
  intros Hsuf. induction pre as [|c pre IH].
  - exists "", []. simpl. now rewrite split_no_dot.
  - destruct IH as (x & l & IH). change (String c pre +:+ "." +:+ suf)
      with (String c (pre +:+ "." +:+ suf)).
    cbn [Js.split]. rewrite IH. destruct (Ascii.eqb c ".").
    + exists "", (x :: l). reflexivity.
    + exists (String c x), l. reflexivity.
Qed.

(** A name without dot is its own last piece. *)
Lemma pop_split_no_dot (s : string) :
  no_dot s = true -> Js.pop (Js.split "." s) = s.
Proof.
  intros Hs. unfold Js.pop. now rewrite split_no_dot.
Qed.

(** The last piece of [pre.suf] is [suf] when [suf] has no dot. *)
Lemma pop_split_final_dot (pre suf : string) :
  no_dot suf = true ->
  Js.pop (Js.split "." (pre +:+ "." +:+ suf)) = suf.
Proof.
  intros Hsuf. destruct (split_final_dot pre suf Hsuf) as (x & l & ->).
  unfold Js.pop. change (x :: l ++ [suf])%list with ((x :: l) ++ [suf])%list.
  apply List.last_last.
Qed.

(** [extension] is the lower-cased substring after the final dot... *)
Lemma extension_final_dot (pre suf : string) :
  no_dot suf = true ->
  extension (pre +:+ "." +:+ suf) = Js.toLowerCase suf.
Proof.
  intros H. unfold extension. now rewrite pop_split_final_dot.
Qed.

(** ... and, for a name that has no dot, the lower-cased name. *)
Lemma extension_no_dot (nm : string) :
  no_dot nm = true -> extension nm = Js.toLowerCase nm.
Proof.
  intros H. unfold extension. now rewrite pop_split_no_dot.
Qed.


(** [substringAfterFinalDot] finds the final dot: its result has no dot and
    the name is a prefix, a dot and that result; it finds nothing exactly in
    the names without dot. *)
Lemma substringAfterFinalDot_shape (nm : string) :
  match substringAfterFinalDot nm with
  | Some suf => no_dot suf = true /\ exists pre, nm = pre +:+ "." +:+ suf
  | None => no_dot nm = true
  end.
Proof.
  induction nm as [|c nm IH]; [reflexivity|]. cbn [substringAfterFinalDot].
  destruct (substringAfterFinalDot nm) as [suf|].
  - destruct IH as [Hsuf (pre & ->)]. split; [exact Hsuf|].
    now exists (String c pre).
  - destruct (Ascii.eqb_spec c ".") as [-> | Hc].
    + split; [exact IH|]. now exists "".
    + cbn [no_dot]. rewrite IH.
      destruct (Ascii.eqb_spec c "."); [contradiction | reflexivity].
Qed.

Lemma no_dot_app_dot (pre suf : string) : no_dot (pre +:+ "." +:+ suf) = false.
Proof.
  induction pre as [|c pre IH]; [reflexivity|].
  change (String c pre +:+ "." +:+ suf) with (String c (pre +:+ "." +:+ suf)).
  cbn [no_dot]. rewrite IH. apply andb_false_r.
Qed.

(** Conversely, the substring after the final dot of [pre.suf] is [suf] when
    [suf] has no dot. *)
Lemma substringAfterFinalDot_final_dot (pre suf : string) :
  no_dot suf = true -> substringAfterFinalDot (pre +:+ "." +:+ suf) = Some suf.
Proof.
  intros Hsuf. induction pre as [|c pre IH].
  - change ("" +:+ "." +:+ suf) with (String "." suf).
    cbn [substringAfterFinalDot].
    pose proof (substringAfterFinalDot_shape suf) as H.
    destruct (substringAfterFinalDot suf) as [x|]; [|reflexivity].
    destruct H as [_ (pre & E)]. rewrite E, no_dot_app_dot in Hsuf. discriminate.
  - change (String c pre +:+ "." +:+ suf) with (String c (pre +:+ "." +:+ suf)).
    cbn [substringAfterFinalDot]. now rewrite IH.
Qed.





(** ** The image loader *)

Section LoaderProofs.
Import Loader.

(** In an expired state every callback leaves the state as it is. *)
Lemma step_expired (s : state) (ev : event) : expired s -> step s ev = s.
Proof.
  intros [Hflag Htimer]. destruct ev; unfold step, onload, onerror.
  - now rewrite Htimer.
  - now rewrite Hflag.
  - now rewrite Hflag.
Qed.

Lemma run_expired (evs : list event) (s : state) : expired s -> run evs s = s.
Proof.
  intros H. induction evs as [|ev evs IH]; [reflexivity|].
  unfold run in *. cbn [fold_left]. rewrite (step_expired s ev H). exact IH.
Qed.

(** C5. When the timer fires first, whatever the browser reports afterwards
    (a load, an error, any number of them in any order), [reject] was
    called once, with the time-out message, [resolve] was never called,
    the promise is rejected with that message, and the temporary URL was
    revoked once: the late events changed nothing. *)
Theorem timeout_first_settles_once (late : list event) :
  let s := run (TimerFires :: late) start in
  calls s = [Rejected "Image load timed out."] /\
  promise s = Some (Rejected "Image load timed out.") /\
  revocations s = 1%nat /\
  s = step start TimerFires.
Proof.
  cbv zeta. unfold run. cbn [fold_left].
  change (fold_left step late (step start TimerFires))
    with (run late (step start TimerFires)).
  rewrite run_expired; [repeat split | split; reflexivity].
Qed.
End LoaderProofs.

(** ** The rasterizer / encoder *)

Section EncoderProofs.
Import Encoder.

Variable img : Image.
Hypothesis img_loaded : naturalWidth img <> 0.

(** The log of a run, action by action. *)
Lemma convertImageToPng_log (env : toBlobBehaviour) :
  log (convertImageToPng (Some img) env) =
  match env with
  | Throws err =>
      [Draw; ToBlob; ClearRect; SetHeight 0; SetWidth 0;
       InnerSettle (Rejected err); OuterSettle (Rejected err)]
  | CallsBack blob =>
      [Draw; ToBlob; InnerSettle (expected env);
       ClearRect; SetHeight 0; SetWidth 0; OuterSettle (expected env)]
  end.
Proof.
  unfold convertImageToPng, call.
  destruct (Z.eqb_spec (naturalWidth img) 0) as [E|_]; [contradiction|].
  destruct env as [err|[blob|]]; reflexivity.
Qed.

Lemma convertImageToPng_final (env : toBlobBehaviour) :
  let s := convertImageToPng (Some img) env in
  released s /\ outer s = Some (expected env) /\ microtasks s = [].
Proof.
  unfold convertImageToPng, call, released.
  destruct (Z.eqb_spec (naturalWidth img) 0) as [E|_]; [contradiction|].
  destruct env as [err|[blob|]]; repeat split; reflexivity.
Qed.
End EncoderProofs.

(** C6. For an image that has a natural width, whether [toBlob] calls back
    with a blob, calls back with no output or throws: the run ends with the
    canvas cleared and both its dimensions 0, the promise returned to the
    caller settles with the corresponding outcome, and in the order of
    events the clearing and the zeroing come before that settlement. *)
Theorem release_before_settlement (img : Image) (env : Encoder.toBlobBehaviour) :
  naturalWidth img <> 0 ->
  let s := Encoder.convertImageToPng (Some img) env in
  Encoder.released s /\
  Encoder.outer s = Some (Encoder.expected env) /\
  Encoder.settles_after_release (Encoder.log s) (Encoder.expected env).
Proof.
  intros Himg s.
  destruct (convertImageToPng_final img Himg env) as (Hrel & Hout & _).
  split; [exact Hrel|]. split; [exact Hout|].
  unfold s, Encoder.settles_after_release.
  rewrite (convertImageToPng_log img Himg env).
  destruct env as [err|blob].
  - exists [Encoder.Draw; Encoder.ToBlob],
      [Encoder.InnerSettle (Encoder.Rejected err)]. split; reflexivity.
  - exists [Encoder.Draw; Encoder.ToBlob;
            Encoder.InnerSettle (Encoder.expected (Encoder.CallsBack blob))], [].
    split; reflexivity.
Qed.

Lemma release_before_settlement_witness :
  let s := Encoder.convertImageToPng (Some (mkImage 8000 4000))
             (Encoder.CallsBack (Some (mkBlob "image/png" 1024))) in
  Encoder.released s /\
  Encoder.outer s = Some (Encoder.Fulfilled (mkBlob "image/png" 1024)) /\
  Encoder.settles_after_release (Encoder.log s)
    (Encoder.Fulfilled (mkBlob "image/png" 1024)).
Proof.
  apply (release_before_settlement (mkImage 8000 4000)
           (Encoder.CallsBack (Some (mkBlob "image/png" 1024)))).
  simpl. lia.
Defined.

(** ** The file handler *)

Lemma sameAsCurrent_true (file cur : File) (s : ui) :
  currentFile s = Some cur ->
  name file = name cur -> size file = size cur ->
  sameAsCurrent file s = true.
Proof.
  intros Hcur Hname Hsize. unfold sameAsCurrent.
  rewrite Hcur, Hname, Hsize, String.eqb_refl, Z.eqb_refl. reflexivity.
Qed.

Lemma sameAsCurrent_false (file cur : File) (s : ui) :
  currentFile s = Some cur ->
  name file <> name cur \/ size file <> size cur ->
  sameAsCurrent file s = false.
Proof.
  intros Hcur Hdiff. unfold sameAsCurrent. rewrite Hcur.
  destruct (String.eqb_spec (name file) (name cur)) as [En|Hn]; [|reflexivity].
  destruct (Z.eqb_spec (size file) (size cur)) as [Es|Hs]; [|reflexivity].
  destruct Hdiff; contradiction.
Qed.

(** A file whose name and size are those of the selection is ignored, valid
    or not. *)
Lemma handleFiles_duplicate (file cur : File) (rest : list File) (s : ui) :
  currentFile s = Some cur ->
  name file = name cur -> size file = size cur ->
  handleFiles (Some (file :: rest)) s = s.
Proof.
  intros Hcur Hname Hsize. unfold handleFiles.
  now rewrite (sameAsCurrent_true file cur s Hcur Hname Hsize).
Qed.

(** [showError] writes the message and the aria-hidden attribute only. *)
Lemma showError_same_selection (message : option string) (s : ui) :
  same_selection s (showError message s).
Proof.
  destruct s. unfold same_selection, showError. cbn. tauto.
Qed.

Lemma validateFile_reason (f : File) :
  ok (validateFile (Some f)) = false ->
  reason (validateFile (Some f)) = Some invalidFileMessage.
Proof.
  unfold validateFile.
  destruct (negb _ || negb _)%bool; [reflexivity | discriminate].
Qed.

(** C7, as the code has it.  While a selection is held, a file that fails
    validation and differs from the selection by its name or by its size
    gets the invalid-file message displayed, and the selection, the preview,
    the object URLs and the state of the convert button stay as they
    were. *)
Theorem rejected_input_keeps_selection
    (file cur : File) (rest : list File) (s : ui) :
  currentFile s = Some cur ->
  ok (validateFile (Some file)) = false ->
  name file <> name cur \/ size file <> size cur ->
  let s' := handleFiles (Some (file :: rest)) s in
  errorMsg_textContent s' = invalidFileMessage /\
  fileInfo_ariaHidden s' = Some "true" /\
  same_selection s s'.
Proof.
  intros Hcur Hbad Hdiff s'. unfold s', handleFiles.
  rewrite (sameAsCurrent_false file cur s Hcur Hdiff), Hbad. cbn [negb].
  rewrite (validateFile_reason file Hbad).
  split; [|split].
  - destruct s; reflexivity.
  - destruct s; reflexivity.
  - apply showError_same_selection.
Qed.

Lemma rejected_input_keeps_selection_witness :
  let s' := handleFiles (Some [mkFile "doc.pdf" "application/pdf" 1200]) readyPage in
  errorMsg_textContent s' = invalidFileMessage /\
  fileInfo_ariaHidden s' = Some "true" /\
  same_selection readyPage s'.
Proof.
  apply (rejected_input_keeps_selection
           (mkFile "doc.pdf" "application/pdf" 1200)
           (mkFile "photo.JPG" "image/jpeg" 500000) [] readyPage);
    [reflexivity | reflexivity | left; discriminate].
Defined.

(** C7 as stated fails.  The selection photo.JPG (500000 bytes, image/jpeg)
    is held and no error is displayed; a file of the same name and size
    whose media type is text/plain is invalid, yet after it is handled the
    error message is not the invalid-file message: it is still empty. *)
Lemma invalid_duplicate_sets_no_error :
  let file := mkFile "photo.JPG" "text/plain" 500000 in
  currentFile readyPage = Some (mkFile "photo.JPG" "image/jpeg" 500000) /\
  ok (validateFile (Some (mkFile "photo.JPG" "image/jpeg" 500000))) = true /\
  ok (validateFile (Some file)) = false /\
  errorMsg_textContent (handleFiles (Some [file]) readyPage) = "" /\
  errorMsg_textContent (handleFiles (Some [file]) readyPage) <> invalidFileMessage.
Proof. repeat split. discriminate. Qed.

(** C8. In the Ready state, a file with the name and the byte size of the
    selection changes nothing: the handler returns the state it got, so no
    object URL is created and no preview field is rewritten. *)
Theorem duplicate_selection_noop
    (file cur : File) (rest : list File) (s : ui) :
  currentFile s = Some cur ->
  name file = name cur ->
  size file = size cur ->
  handleFiles (Some (file :: rest)) s = s /\
  urlCounter (handleFiles (Some (file :: rest)) s) = urlCounter s /\
  previewImg_src (handleFiles (Some (file :: rest)) s) = previewImg_src s.
Proof.
  intros Hcur Hname Hsize.
  rewrite (handleFiles_duplicate file cur rest s Hcur Hname Hsize). auto.
Qed.

Lemma duplicate_selection_noop_witness :
  let file := mkFile "photo.JPG" "image/jpeg" 500000 in
  handleFiles (Some [file]) readyPage = readyPage /\
  urlCounter (handleFiles (Some [file]) readyPage) = urlCounter readyPage /\
  previewImg_src (handleFiles (Some [file]) readyPage) = previewImg_src readyPage.
Proof.
  apply (duplicate_selection_noop
           (mkFile "photo.JPG" "image/jpeg" 500000)
           (mkFile "photo.JPG" "image/jpeg" 500000) [] readyPage);
    reflexivity.
Defined.

(** C10. The name-and-size test comes before validation: a file with the
    name and the byte size of the selection that fails validation leaves the
    state as it is; in particular the error message is not the one
    validation would have displayed, unless it was displayed already. *)
Theorem duplicate_check_precedes_validation
    (file cur : File) (rest : list File) (s : ui) :
  currentFile s = Some cur ->
  name file = name cur ->
  size file = size cur ->
  ok (validateFile (Some file)) = false ->
  handleFiles (Some (file :: rest)) s = s /\
  errorMsg_textContent (handleFiles (Some (file :: rest)) s)
    = errorMsg_textContent s /\
  errorMsg_textContent (showError (reason (validateFile (Some file))) s)
    = invalidFileMessage.
Proof.
  intros Hcur Hname Hsize Hbad.
  rewrite (handleFiles_duplicate file cur rest s Hcur Hname Hsize).
  repeat split. rewrite (validateFile_reason file Hbad).
  destruct s; reflexivity.
Qed.

Lemma duplicate_check_precedes_validation_witness :
  let file := mkFile "photo.JPG" "text/plain" 500000 in
  handleFiles (Some [file]) readyPage = readyPage /\
  errorMsg_textContent (handleFiles (Some [file]) readyPage)
    = errorMsg_textContent readyPage /\
  errorMsg_textContent (showError (reason (validateFile (Some file))) readyPage)
    = invalidFileMessage.
Proof.
  apply (duplicate_check_precedes_validation
           (mkFile "photo.JPG" "text/plain" 500000)
           (mkFile "photo.JPG" "image/jpeg" 500000) [] readyPage);
    reflexivity.
Defined.

(** ** Reset *)

Lemma cleanupPreview_clean (s : ui) :
  currentObjectUrl (cleanupPreview s) = None.
Proof.
  unfold cleanupPreview. destruct s as [[url|] ? ? ? ? ? ? ? ? ? ? ? ? ? ? ? ? ?];
    reflexivity.
Qed.

Lemma resetUI_Empty (s : ui) : Empty (resetUI s).
Proof.
  unfold Empty, resetUI.
  destruct s as [[url|] ? ? ? ? ? ? ? ? ? ? ? ? ? ? ? ? ?]; cbn; tauto.
Qed.

(** C9. [resetUI] is a total function of the state (revoking a URL never
    throws); it leads to the empty page from any state, and running it a
    second time changes nothing. *)
Theorem resetUI_idempotent (s : ui) :
  resetUI (resetUI s) = resetUI s /\ Empty (resetUI s).
Proof.
  split; [|apply resetUI_Empty].
  destruct s as [[url|] ? ? ? ? ? ? ? ? ? ? ? ? ? ? ? ? ?]; reflexivity.
Qed.

(** ** Binary64 arithmetic *)

(** *** Digits, shifts and locations *)

(** A positive of [d] binary digits lies between [2^(d-1)] and [2^d]. *)
Lemma digits2_pos_bounds (p : positive) :
  2 ^ (Zpos (digits2_pos p) - 1) <= Zpos p < 2 ^ Zpos (digits2_pos p).
Proof.
  induction p as [p IH|p IH|]; cbn [digits2_pos].
  - rewrite Pos2Z.inj_succ, (Pos2Z.inj_xI p).
    replace (Z.succ (Zpos (digits2_pos p)) - 1) with (Z.succ (Zpos (digits2_pos p) - 1)) by lia.
    rewrite !Z.pow_succ_r by lia. lia.
  - rewrite Pos2Z.inj_succ, (Pos2Z.inj_xO p).
    replace (Z.succ (Zpos (digits2_pos p)) - 1) with (Z.succ (Zpos (digits2_pos p) - 1)) by lia.
    rewrite !Z.pow_succ_r by lia. lia.
  - simpl. lia.
Qed.

(** One shift to the right doubles the unit; the round and sticky bits keep
    the location of the exact value right. *)
Lemma shr_1_ok (mrs : shr_record) (N D : Z) :
  0 < D -> rec_ok mrs N D -> rec_ok (shr_1 mrs) N (2 * D).
Proof.
  intros HD [Hm Hl]. destruct mrs as [m r s]. cbn [shr_m] in *.
  unfold rec_ok.
  destruct m as [|p|p]; [| |lia].
  - destruct r, s; cbn in *; split; try lia.
  - destruct p as [p|p|]; destruct r, s; cbn -[Z.mul] in *;
      rewrite ?(Pos2Z.inj_xI p), ?(Pos2Z.inj_xO p) in *; split; try lia.
Qed.

(** [p] shifts multiply the unit by [2^p]. *)
Lemma iter_pos_ok (p : positive) (mrs : shr_record) (N D : Z) :
  0 < D -> rec_ok mrs N D -> rec_ok (SpecFloat.iter_pos shr_1 p mrs) N (2 ^ Zpos p * D).
Proof.
  revert mrs D. induction p as [p IH|p IH|]; intros mrs D HD H; cbn [SpecFloat.iter_pos].
  - apply shr_1_ok in H; [|lia]. apply IH in H; [|lia]. apply IH in H; [|nia].
    replace (2 ^ Z.pos p~1 * D) with (2 ^ Z.pos p * (2 ^ Z.pos p * (2 * D))); [exact H|].
    rewrite (Pos2Z.inj_xI p). rewrite Z.pow_add_r, Z.pow_mul_r by lia.
    change (2 ^ 2) with 4. change (2 ^ 1) with 2.
    replace (4 ^ Z.pos p) with (2 ^ Z.pos p * 2 ^ Z.pos p); [ring|].
    rewrite <- Z.pow_mul_l. reflexivity.
  - apply IH in H; [|lia]. apply IH in H; [|nia].
    replace (2 ^ Z.pos p~0 * D) with (2 ^ Z.pos p * (2 ^ Z.pos p * D)); [exact H|].
    rewrite (Pos2Z.inj_xO p). rewrite Z.pow_mul_r by lia.
    change (2 ^ 2) with 4.
    replace (4 ^ Z.pos p) with (2 ^ Z.pos p * 2 ^ Z.pos p); [ring|].
    rewrite <- Z.pow_mul_l. reflexivity.
  - apply shr_1_ok in H; [|lia]. exact H.
Qed.

Lemma rec_of_loc_ok (m : Z) (l : location) (N D : Z) :
  0 <= m -> loc_ok m l N D -> rec_ok (shr_record_of_loc m l) N D.
Proof.
  intros Hm Hl. destruct l as [|[]]; split; cbn; auto.
Qed.

(** Shifting by any [n >= 0], as [shr] does. *)
Lemma shr_ok (m : Z) (l : location) (e n N D : Z) :
  0 < D -> 0 <= m -> loc_ok m l N D -> 0 <= n ->
  rec_ok (fst (shr (shr_record_of_loc m l) e n)) N (2 ^ n * D) /\
  snd (shr (shr_record_of_loc m l) e n) = e + n.
Proof.
  intros HD Hm Hl Hn. destruct n as [|p|p]; [| |lia]; cbn [shr fst snd].
  - split; [|lia]. rewrite Z.pow_0_r, Z.mul_1_l. now apply rec_of_loc_ok.
  - split; [|reflexivity]. apply iter_pos_ok; [exact HD|]. now apply rec_of_loc_ok.
Qed.

(** Rounding to nearest, ties to even, picks [m] or [m + 1], at most half a
    unit away from the exact value. *)
Lemma round_nearest_even_ok (m : Z) (l : location) (N D : Z) :
  0 < D -> loc_ok m l N D ->
  let m1 := round_nearest_even m l in
  m <= m1 <= m + 1 /\ - D <= 2 * N - 2 * m1 * D <= D.
Proof.
  intros HD Hl. destruct l as [|[]]; cbn in *; try (destruct (Z.even m)); split; nia.
Qed.

(** The number of digits is determined by the bounds. *)
Lemma digits2_pos_unique (p : positive) (k : Z) :
  2 ^ (k - 1) <= Zpos p < 2 ^ k -> Zpos (digits2_pos p) = k.
Proof.
  intros [Hlo Hhi]. pose proof (digits2_pos_bounds p) as [Hlo' Hhi'].
  assert (0 < k).
  { destruct (Z_lt_le_dec 0 k) as [|Hk]; [assumption|].
    destruct (Z.eq_dec k 0) as [->|]; [simpl in Hhi; lia|].
    rewrite Z.pow_neg_r in Hhi by lia. lia. }
  destruct (Z_lt_le_dec (Zpos (digits2_pos p)) k) as [Hlt|Hge].
  - assert (2 ^ Zpos (digits2_pos p) <= 2 ^ (k - 1))
      by (apply Z.pow_le_mono_r; lia). lia.
  - destruct (Z.eq_dec (Zpos (digits2_pos p)) k) as [|Hne]; [assumption|].
    assert (2 ^ k <= 2 ^ (Zpos (digits2_pos p) - 1))
      by (apply Z.pow_le_mono_r; lia). lia.
Qed.

Lemma loc_ok_bounds (m : Z) (l : location) (N D : Z) :
  0 < D -> loc_ok m l N D -> m * D <= N < (m + 1) * D.
Proof.
  intros HD Hl. destruct l as [|[]]; cbn in Hl; nia.
Qed.

(** *** Rounding in the normal range

    A mantissa [mx] of at least 53 digits that stands for the exact value
    [N/D] (in units of [2^ex]) is shifted by [n] digits and rounded to a
    mantissa [m1] between [2^52] and [2^53], at most half a unit of the new
    exponent away from the exact value; no underflow, no overflow. *)
Lemma binary_round_aux_normal (sx : bool) (mx ex : Z) (lx : location) (N D : Z) :
  0 < D -> 0 < mx -> loc_ok mx lx N D ->
  let n := Zdigits2 mx - 53 in
  0 <= n -> -1074 <= ex + n -> ex + n + 1 <= 971 ->
  exists m1,
    2 ^ 52 <= m1 <= 2 ^ 53 /\
    - (2 ^ n * D) <= 2 * N - 2 * m1 * (2 ^ n * D) <= 2 ^ n * D /\
    2 ^ 52 * (2 ^ n * D) <= N /\
    binary_round_aux 53 1024 sx mx ex lx =
      if m1 <? 2 ^ 53 then S754_finite sx (Z.to_pos m1) (ex + n)
      else S754_finite sx (Z.to_pos (2 ^ 52)) (ex + n + 1).
Proof.
  intros HD Hmx Hl n Hn Hlo Hhi.
  unfold binary_round_aux, shr_fexp.
  assert (Hf : fexp 53 1024 (Zdigits2 mx + ex) - ex = n).
  { unfold fexp, emin, n. lia. }
  rewrite Hf.
  destruct (shr_ok mx lx ex n N D HD ltac:(lia) Hl Hn) as [[Hm' Hl'] He'].
  destruct (shr (shr_record_of_loc mx lx) ex n) as [mrs' e'].
  cbn [fst snd] in *. subst e'.
  set (D' := 2 ^ n * D) in *.
  assert (HD' : 0 < D') by (unfold D'; apply Z.mul_pos_pos; [apply Z.pow_pos_nonneg; lia | lia]).
  pose proof (round_nearest_even_ok _ _ _ _ HD' Hl') as [Hm1 Herr].
  pose proof (loc_ok_bounds _ _ _ _ HD' Hl') as Hb'.
  pose proof (loc_ok_bounds _ _ _ _ HD Hl) as Hb.
  set (m' := shr_m mrs') in *.
  set (m1 := round_nearest_even m' (loc_of_shr_record mrs')) in *.
  (* digits of mx *)
  destruct mx as [|p|p]; try lia. cbn [Zdigits2] in n.
  pose proof (digits2_pos_bounds p) as Hd.
  assert (Hpow : 2 ^ Zpos (digits2_pos p) = 2 ^ 53 * 2 ^ n).
  { rewrite <- Z.pow_add_r by lia. f_equal. unfold n. lia. }
  assert (Hpow' : 2 ^ (Zpos (digits2_pos p) - 1) = 2 ^ 52 * 2 ^ n).
  { rewrite <- Z.pow_add_r by lia. f_equal. unfold n. lia. }
  rewrite Hpow, Hpow' in Hd.
  assert (Hpn : 0 < 2 ^ n) by (apply Z.pow_pos_nonneg; lia).
  assert (Hm'hi : m' < 2 ^ 53).
  { apply Z.nle_gt. intros Hc.
    assert (2 ^ 53 * D' <= m' * D') by (apply Z.mul_le_mono_nonneg_r; lia).
    assert ((Zpos p + 1) * D <= 2 ^ 53 * 2 ^ n * D)
      by (apply Z.mul_le_mono_nonneg_r; lia).
    unfold D' in *. lia. }
  assert (Hm'lo : 2 ^ 52 <= m').
  { apply Z.nlt_ge. intros Hc.
    assert ((m' + 1) * D' <= 2 ^ 52 * D') by (apply Z.mul_le_mono_nonneg_r; lia).
    assert (2 ^ 52 * 2 ^ n * D <= Zpos p * D)
      by (apply Z.mul_le_mono_nonneg_r; lia).
    unfold D' in *. lia. }
  exists m1. split; [lia|]. split; [lia|]. split.
  { assert (2 ^ 52 * D' <= m' * D') by (apply Z.mul_le_mono_nonneg_r; lia). lia. }
  destruct (Z.ltb_spec m1 (2 ^ 53)) as [Hlt|Hge].
  - assert (Hdig : Zdigits2 m1 = 53).
    { destruct m1 as [|q|q]; try lia. cbn [Zdigits2].
      apply digits2_pos_unique. change (53 - 1) with 52. lia. }
    rewrite Hdig.
    replace (fexp 53 1024 (53 + (ex + n)) - (ex + n)) with 0
      by (unfold fexp, emin; lia).
    cbn [shr shr_record_of_loc shr_m].
    destruct m1 as [|q|q]; try lia.
    replace (ex + n <=? 1024 - 53) with true by (symmetry; apply Z.leb_le; lia).
    reflexivity.
  - assert (Hm1eq : m1 = 2 ^ 53) by lia. rewrite Hm1eq.
    replace (fexp 53 1024 (Zdigits2 (2 ^ 53) + (ex + n)) - (ex + n)) with 1
      by (unfold fexp, emin; change (Zdigits2 (2 ^ 53)) with 54; lia).
    cbn [shr]. change (shr_m (SpecFloat.iter_pos shr_1 1 (shr_record_of_loc (2 ^ 53) loc_Exact)))
      with (2 ^ 52).
    change (2 ^ 52) with (Zpos (Z.to_pos (2 ^ 52))) at 1. cbv iota beta.
    replace (ex + n + 1 <=? 1024 - 53) with true by (symmetry; apply Z.leb_le; lia).
    reflexivity.
Qed.

(** *** Division, multiplication and integers *)

Lemma iter_xO (p k : positive) : Zpos (Pos.iter xO p k) = Zpos p * 2 ^ Zpos k.
Proof.
  induction k as [|k IH] using Pos.peano_ind.
  - cbn [Pos.iter]. rewrite (Pos2Z.inj_xO p). change (2 ^ 1) with 2. ring.
  - rewrite Pos.iter_succ, (Pos2Z.inj_xO (Pos.iter xO p k)), IH, Pos2Z.inj_succ.
    rewrite Z.pow_succ_r by lia. ring.
Qed.

(** The location that the division derives from its remainder. *)
Lemma new_location_ok (q my r : Z) :
  0 < my -> 0 <= r < my -> loc_ok q (new_location my r) (q * my + r) my.
Proof.
  intros Hmy Hr. unfold new_location.
  destruct (Z.even my) eqn:Ev.
  - unfold new_location_even. destruct (Z.eqb_spec r 0) as [->|Hr0]; cbn; [lia|].
    destruct (Z.compare_spec (2 * r) my); cbn; lia.
  - unfold new_location_odd. destruct (Z.eqb_spec r 0) as [->|Hr0]; cbn; [lia|].
    destruct (Z.compare_spec (2 * r + 1) my); cbn; try lia.
    assert (Hodd : Z.odd my = true) by (rewrite <- Z.negb_even, Ev; reflexivity).
    apply Z.odd_spec in Hodd. destruct Hodd as [j Hj]. lia.
Qed.


Lemma mantissa_bounds (m : positive) :
  Zpos (digits2_pos m) = 53 -> 2 ^ 52 <= Zpos m < 2 ^ 53.
Proof.
  intros H. pose proof (digits2_pos_bounds m) as Hb. rewrite H in Hb.
  exact Hb.
Qed.


Lemma rounded_normal (m1 e : Z) :
  2 ^ 52 <= m1 <= 2 ^ 53 -> normal_between e (e + 1) (rounded m1 e).
Proof.
  intros Hm1. unfold rounded. destruct (Z.ltb_spec m1 (2 ^ 53)).
  - exists (Z.to_pos m1), e. split; [reflexivity|]. split; [|lia].
    apply digits2_pos_unique. rewrite Z2Pos.id by lia. change (53 - 1) with 52. lia.
  - exists (Z.to_pos (2 ^ 52)), (e + 1). split; [reflexivity|]. split; [reflexivity|lia].
Qed.

Lemma Zdigits2_cases (q lo : Z) :
  0 < lo -> 2 ^ (lo - 1) <= q < 2 ^ (lo + 1) ->
  Zdigits2 q = lo \/ Zdigits2 q = lo + 1.
Proof.
  intros Hlo [Hq1 Hq2].
  assert (0 < 2 ^ (lo - 1)) by (apply Z.pow_pos_nonneg; lia).
  destruct q as [|p|p]; try lia. cbn [Zdigits2].
  destruct (Z_lt_le_dec (Zpos p) (2 ^ lo)).
  - left. apply digits2_pos_unique. lia.
  - right. apply digits2_pos_unique. replace (lo + 1 - 1) with lo by lia. lia.
Qed.

(** The quotient of two normal numbers: the 106-bit dividend [mx·2^53] is
    divided by [my], and the quotient of 53 or 54 digits is rounded. *)
Lemma div_normal_Z (mx my : positive) (ex ey : Z) :
  Zpos (digits2_pos mx) = 53 -> Zpos (digits2_pos my) = 53 ->
  -1074 <= ex - ey - 53 -> ex - ey - 51 <= 971 ->
  exists m1 n,
    0 <= n <= 1 /\ 2 ^ 52 <= m1 <= 2 ^ 53 /\
    Num.div (S754_finite false mx ex) (S754_finite false my ey)
      = rounded m1 (ex - ey - 53 + n) /\
    - (2 ^ n * Zpos my) <= 2 * (Zpos mx * 2 ^ 53) - 2 * m1 * (2 ^ n * Zpos my)
      <= 2 ^ n * Zpos my /\
    2 ^ 52 * (2 ^ n * Zpos my) <= Zpos mx * 2 ^ 53.
Proof.
  intros Hdx Hdy Hlo Hhi.
  pose proof (mantissa_bounds mx Hdx) as Hbx.
  pose proof (mantissa_bounds my Hdy) as Hby.
  unfold Num.div, SFdiv, SFdiv_core_binary. cbn [xorb Zdigits2].
  fold Num.prec Num.emax. rewrite Hdx, Hdy.
  replace (Z.min (fexp Num.prec Num.emax (53 + ex - (53 + ey))) (ex - ey))
    with (ex - ey - 53) by (unfold fexp, emin, Num.prec, Num.emax; lia).
  replace (ex - ey - (ex - ey - 53)) with 53 by lia.
  rewrite Z.shiftl_mul_pow2 by lia.
  pose proof (Z_div_mod (Zpos mx * 2 ^ 53) (Zpos my) ltac:(lia)) as Hdiv.
  destruct (Z.div_eucl (Zpos mx * 2 ^ 53) (Zpos my)) as [q r].
  destruct Hdiv as [Heq Hr].
  assert (Hq : 2 ^ (53 - 1) <= q < 2 ^ (53 + 1)).
  { change (53 - 1) with 52. change (53 + 1) with 54.
    change (2 ^ 54) with (2 ^ 53 * 2). change (2 ^ 53) with (2 ^ 52 * 2) in *.
    split; nia. }
  pose proof (new_location_ok q (Zpos my) r ltac:(lia) Hr) as Hloc.
  replace (q * Zpos my + r) with (Zpos mx * 2 ^ 53) in Hloc by lia.
  assert (Hn : 0 <= Zdigits2 q - 53 <= 1)
    by (destruct (Zdigits2_cases q 53 ltac:(lia) Hq); lia).
  change (53 - 1) with 52 in Hq.
  destruct (binary_round_aux_normal false q (ex - ey - 53)
              (new_location (Zpos my) r) (Zpos mx * 2 ^ 53) (Zpos my)
              ltac:(lia) ltac:(lia) Hloc ltac:(cbv zeta; lia) ltac:(cbv zeta; lia)
              ltac:(cbv zeta; lia))
    as (m1 & Hm1 & Herr & Hbig & Hres).
  exists m1, (Zdigits2 q - 53). split; [exact Hn|]. split; [exact Hm1|].
  split; [|split; assumption].
  unfold Num.prec, Num.emax. rewrite Hres. unfold rounded.
  destruct (m1 <? 2 ^ 53); f_equal; lia.
Qed.

(** The product of two normal numbers: the exact product of the mantissas,
    of 105 or 106 digits, is rounded. *)
Lemma mul_normal_Z (mx my : positive) (ex ey : Z) :
  Zpos (digits2_pos mx) = 53 -> Zpos (digits2_pos my) = 53 ->
  -1074 <= ex + ey + 52 -> ex + ey + 54 <= 971 ->
  exists m1 n,
    52 <= n <= 53 /\ 2 ^ 52 <= m1 <= 2 ^ 53 /\
    Num.mul (S754_finite false mx ex) (S754_finite false my ey)
      = rounded m1 (ex + ey + n) /\
    - (2 ^ n) <= 2 * (Zpos mx * Zpos my) - 2 * m1 * 2 ^ n <= 2 ^ n /\
    2 ^ 52 * 2 ^ n <= Zpos mx * Zpos my.
Proof.
  intros Hdx Hdy Hlo Hhi.
  pose proof (mantissa_bounds mx Hdx) as Hbx.
  pose proof (mantissa_bounds my Hdy) as Hby.
  unfold Num.mul, SFmul. cbn [xorb].
  assert (Hq : 2 ^ (105 - 1) <= Zpos (mx * my) < 2 ^ (105 + 1)).
  { rewrite Pos2Z.inj_mul. change (105 - 1) with 104. change (105 + 1) with 106.
    change (2 ^ 104) with (2 ^ 52 * 2 ^ 52). change (2 ^ 106) with (2 ^ 53 * 2 ^ 53).
    split; nia. }
  assert (Hn : 52 <= Zdigits2 (Zpos (mx * my)) - 53 <= 53)
    by (destruct (Zdigits2_cases _ 105 ltac:(lia) Hq); lia).
  assert (Hloc : loc_ok (Zpos (mx * my)) loc_Exact (Zpos mx * Zpos my) 1)
    by (cbn; lia).
  destruct (binary_round_aux_normal false (Zpos (mx * my)) (ex + ey)
              loc_Exact (Zpos mx * Zpos my) 1
              ltac:(lia) ltac:(lia) Hloc ltac:(cbv zeta; lia) ltac:(cbv zeta; lia)
              ltac:(cbv zeta; lia))
    as (m1 & Hm1 & Herr & Hbig & Hres).
  exists m1, (Zdigits2 (Zpos (mx * my)) - 53).
  split; [exact Hn|]. split; [exact Hm1|].
  rewrite !Z.mul_1_r in *.
  split; [|split; assumption].
  unfold Num.prec, Num.emax. rewrite Hres. unfold rounded.
  destruct (m1 <? 2 ^ 53); f_equal; lia.
Qed.

(** A positive integer below [2^53] is represented exactly, its mantissa
    shifted to 53 digits. *)
Lemma of_Z_normal (n : Z) :
  0 < n < 2 ^ 53 ->
  exists m e, Num.of_Z n = S754_finite false m e /\
              Zpos (digits2_pos m) = 53 /\ -52 <= e <= 0 /\
              Zpos m = n * 2 ^ (- e).
Proof.
  intros Hn. destruct n as [|p|p]; try lia.
  unfold Num.of_Z, binary_normalize, binary_round.
  pose proof (digits2_pos_bounds p) as Hd.
  set (d := Zpos (digits2_pos p)) in *.
  assert (Hd53 : 1 <= d <= 53).
  { split; [unfold d; lia|].
    destruct (Z_lt_le_dec 53 d) as [Hc|]; [|assumption].
    assert (2 ^ 53 <= 2 ^ (d - 1)) by (apply Z.pow_le_mono_r; lia). lia. }
  replace (fexp Num.prec Num.emax (d + 0)) with (d - 53)
    by (unfold fexp, emin, Num.prec, Num.emax; lia).
  assert (Hal : exists mz, shl_align p 0 (d - 53) = (mz, d - 53) /\
                           Zpos mz = Zpos p * 2 ^ (53 - d)).
  { unfold shl_align. destruct (d - 53 - 0) as [|k|k] eqn:Ek; try lia.
    - exists p. replace (d - 53) with 0 by lia. replace (53 - d) with 0 by lia.
      split; [reflexivity | simpl; lia].
    - exists (Pos.iter xO p k). split; [reflexivity|].
      rewrite iter_xO. f_equal. f_equal. lia. }
  destruct Hal as (mz & -> & Hmz).
  assert (Hmzb : 2 ^ 52 <= Zpos mz < 2 ^ 53).
  { rewrite Hmz.
    replace (2 ^ 52) with (2 ^ (d - 1) * 2 ^ (53 - d))
      by (rewrite <- Z.pow_add_r by lia; f_equal; lia).
    replace (2 ^ 53) with (2 ^ d * 2 ^ (53 - d))
      by (rewrite <- Z.pow_add_r by lia; f_equal; lia).
    assert (0 < 2 ^ (53 - d)) by (apply Z.pow_pos_nonneg; lia).
    split; [apply Z.mul_le_mono_nonneg_r; lia | apply Z.mul_lt_mono_pos_r; lia]. }
  assert (Hdz : Zpos (digits2_pos mz) = 53)
    by (apply digits2_pos_unique; change (53 - 1) with 52; exact Hmzb).
  assert (Hloc : loc_ok (Zpos mz) loc_Exact (Zpos mz) 1) by (cbn; lia).
  destruct (binary_round_aux_normal false (Zpos mz) (d - 53) loc_Exact (Zpos mz) 1
              ltac:(lia) ltac:(lia) Hloc
              ltac:(cbv zeta; cbn [Zdigits2]; lia) ltac:(cbv zeta; cbn [Zdigits2]; lia)
              ltac:(cbv zeta; cbn [Zdigits2]; lia))
    as (m1 & Hm1 & Herr & _ & Hres).
  cbn [Zdigits2] in Herr, Hres. rewrite Hdz in Herr, Hres.
  change (53 - 53) with 0 in Herr, Hres. change (2 ^ 0) with 1 in Herr.
  assert (m1 = Zpos mz) by lia. subst m1.
  exists mz, (d - 53). unfold Num.prec, Num.emax. rewrite Hres.
  replace (Zpos mz <? 2 ^ 53) with true by (symmetry; apply Z.ltb_lt; lia).
  rewrite Pos2Z.id, Z.add_0_r.
  split; [reflexivity|]. split; [exact Hdz|]. split; [lia|].
  rewrite Hmz. f_equal. f_equal. lia.
Qed.


(** *** Values as rationals *)

Lemma pow2_pos (e : Z) : (0 < 2 ^ e)%Q.
Proof. apply Qpower_0_lt. reflexivity. Qed.

Lemma pow2_add (a b : Z) : (2 ^ (a + b) == 2 ^ a * 2 ^ b)%Q.
Proof. apply Qpower_plus. discriminate. Qed.

Lemma pow2_inject (n : Z) : 0 <= n -> (inject_Z (2 ^ n) == 2 ^ n)%Q.
Proof. intros Hn. now rewrite Zpower_Qpower. Qed.

Lemma to_Q_finite (m : positive) (e : Z) :
  (Num.to_Q (S754_finite false m e) == inject_Z (Zpos m) * 2 ^ e)%Q.
Proof. reflexivity. Qed.

Lemma to_Q_rounded (m1 e : Z) :
  2 ^ 52 <= m1 <= 2 ^ 53 ->
  (Num.to_Q (rounded m1 e) == inject_Z m1 * 2 ^ e)%Q.
Proof.
  intros Hm1. unfold rounded. destruct (Z.ltb_spec m1 (2 ^ 53)).
  - rewrite to_Q_finite, Z2Pos.id by lia. reflexivity.
  - assert (m1 = 2 ^ 53) by lia. subst m1.
    rewrite to_Q_finite, pow2_add. change (Zpos (Z.to_pos (2 ^ 52))) with (2 ^ 52).
    change (inject_Z (2 ^ 53)) with (inject_Z (2 ^ 52) * 2)%Q.
    change (2 ^ 1)%Q with 2%Q. ring.
Qed.

Lemma to_Q_of_Z (n : Z) : 0 < n < 2 ^ 53 -> (Num.to_Q (Num.of_Z n) == inject_Z n)%Q.
Proof.
  intros Hn. destruct (of_Z_normal n Hn) as (m & e & -> & _ & He & Hm).
  rewrite to_Q_finite, Hm, inject_Z_mult, pow2_inject by lia.
  rewrite <- Qmult_assoc, <- pow2_add. replace (- e + e) with 0 by lia.
  change (2 ^ 0)%Q with 1%Q. ring.
Qed.

(** Scaling both sides of a relative error bound. *)
Lemma relative_scale (A B c X V : Q) :
  (0 < c)%Q -> ((1 - eps) * A <= B)%Q -> (B <= (1 + eps) * A)%Q ->
  (X == A * c)%Q -> (V == B * c)%Q ->
  ((1 - eps) * X <= V /\ V <= (1 + eps) * X)%Q.
Proof.
  intros Hc Hlo Hhi -> ->. split.
  - rewrite Qmult_assoc. apply Qmult_le_compat_r; [exact Hlo | now apply Qlt_le_weak].
  - rewrite Qmult_assoc. apply Qmult_le_compat_r; [exact Hhi | now apply Qlt_le_weak].
Qed.

(** From the integer error bound to the relative one. *)
Lemma relative_of_Z (N B : Z) :
  - N <= 2 ^ 53 * (B - N) <= N ->
  ((1 - eps) * inject_Z N <= inject_Z B /\ inject_Z B <= (1 + eps) * inject_Z N)%Q.
Proof.
  intros H. unfold eps, Qle, Qmult, Qminus, Qplus, Qopp, inject_Z. cbn.
  change (2 ^ 53) with 9007199254740992 in H. lia.
Qed.

(** The product and the quotient of two normal numbers are normal and within
    a relative error [eps] of the exact product and quotient. *)
Lemma mul_Q (lox hix loy hiy : Z) (x y : Num.number) :
  normal_between lox hix x -> normal_between loy hiy y ->
  -1074 <= lox + loy + 52 -> hix + hiy + 54 <= 971 ->
  normal_between (lox + loy + 52) (hix + hiy + 54) (Num.mul x y) /\
  ((1 - eps) * (Num.to_Q x * Num.to_Q y) <= Num.to_Q (Num.mul x y) /\
   Num.to_Q (Num.mul x y) <= (1 + eps) * (Num.to_Q x * Num.to_Q y))%Q.
Proof.
  intros (mx & ex & -> & Hdx & Hex) (my & ey & -> & Hdy & Hey) Hlo Hhi.
  destruct (mul_normal_Z mx my ex ey Hdx Hdy ltac:(lia) ltac:(lia))
    as (m1 & n & Hn & Hm1 & -> & Herr & Hbig).
  split.
  - destruct (rounded_normal m1 (ex + ey + n) Hm1) as (m & e & Hr & Hd & He).
    exists m, e. split; [exact Hr|]. split; [exact Hd | lia].
  - assert (HP : 0 < 2 ^ n) by (apply Z.pow_pos_nonneg; lia).
    destruct (relative_of_Z (Zpos mx * Zpos my) (m1 * 2 ^ n)) as [H1 H2].
    { change (2 ^ 53) with (2 * 2 ^ 52). change (2 ^ 52) with 4503599627370496 in *. lia. }
    apply (relative_scale (inject_Z (Zpos mx * Zpos my)) (inject_Z (m1 * 2 ^ n))
             (2 ^ (ex + ey))); try assumption.
    + apply pow2_pos.
    + rewrite !to_Q_finite, inject_Z_mult, pow2_add. ring.
    + rewrite to_Q_rounded by exact Hm1.
      rewrite inject_Z_mult, pow2_inject by lia.
      rewrite (pow2_add (ex + ey) n). ring.
Qed.

Lemma div_Q (lox hix loy hiy : Z) (x y : Num.number) :
  normal_between lox hix x -> normal_between loy hiy y ->
  -1074 <= lox - hiy - 53 -> hix - loy - 51 <= 971 ->
  normal_between (lox - hiy - 53) (hix - loy - 51) (Num.div x y) /\
  ((1 - eps) * (Num.to_Q x / Num.to_Q y) <= Num.to_Q (Num.div x y) /\
   Num.to_Q (Num.div x y) <= (1 + eps) * (Num.to_Q x / Num.to_Q y))%Q.
Proof.
  intros (mx & ex & -> & Hdx & Hex) (my & ey & -> & Hdy & Hey) Hlo Hhi.
  destruct (div_normal_Z mx my ex ey Hdx Hdy ltac:(lia) ltac:(lia))
    as (m1 & n & Hn & Hm1 & -> & Herr & Hbig).
  split.
  - destruct (rounded_normal m1 (ex - ey - 53 + n) Hm1) as (m & e & Hr & Hd & He).
    exists m, e. split; [exact Hr|]. split; [exact Hd | lia].
  - assert (HP : 0 < 2 ^ n) by (apply Z.pow_pos_nonneg; lia).
    destruct (relative_of_Z (Zpos mx * 2 ^ 53) (m1 * (2 ^ n * Zpos my))) as [H1 H2].
    { change (2 ^ 53) with (2 * 2 ^ 52) at 1 3.
      change (2 ^ 52) with 4503599627370496 in *. lia. }
    assert (Hmy : ~ (inject_Z (Zpos my) == 0)%Q) by discriminate.
    pose proof (pow2_pos ey) as Hpey.
    apply (relative_scale (inject_Z (Zpos mx * 2 ^ 53))
             (inject_Z (m1 * (2 ^ n * Zpos my)))
             (2 ^ (ex - ey - 53) / inject_Z (Zpos my))); try assumption.
    + apply Qlt_shift_div_l; [reflexivity|]. rewrite Qmult_0_l. apply pow2_pos.
    + rewrite !to_Q_finite, inject_Z_mult, pow2_inject by lia.
      replace ex with (ey + (53 + (ex - ey - 53))) at 1 by lia.
      rewrite !pow2_add. field. split; [exact Hmy|].
      intros E. rewrite E in Hpey. discriminate.
    + rewrite to_Q_rounded by exact Hm1.
      rewrite !inject_Z_mult, pow2_inject by lia.
      rewrite (pow2_add (ex - ey - 53) n). field. exact Hmy.
Qed.

(** *** Order, [Math.min], [Math.max], [Math.floor] *)

(** Between normal numbers the smaller exponent gives the smaller value. *)
Lemma normal_value_lt (m1 m2 : positive) (e1 e2 : Z) :
  Zpos (digits2_pos m1) = 53 -> Zpos (digits2_pos m2) = 53 -> e1 < e2 ->
  (inject_Z (Zpos m1) * 2 ^ e1 < inject_Z (Zpos m2) * 2 ^ e2)%Q.
Proof.
  intros H1 H2 He.
  pose proof (mantissa_bounds m1 H1) as [_ Hb1].
  pose proof (mantissa_bounds m2 H2) as [Hb2 _].
  apply Qlt_le_trans with (inject_Z (2 ^ 53) * 2 ^ e1)%Q.
  - apply Qmult_lt_compat_r; [apply pow2_pos|]. now rewrite <- Zlt_Qlt.
  - apply Qle_trans with (inject_Z (2 ^ 52) * 2 ^ e2)%Q.
    + replace e2 with (e1 + 1 + (e2 - e1 - 1)) by lia. rewrite !pow2_add.
      change (inject_Z (2 ^ 53)) with (inject_Z (2 ^ 52) * 2)%Q.
      change (2 ^ 1)%Q with 2%Q.
      assert (1 <= 2 ^ (e2 - e1 - 1))%Q by (apply Qpower_1_le; [discriminate | lia]).
      pose proof (pow2_pos e1).
      assert (E1 : (inject_Z (2 ^ 52) * 2 * 2 ^ e1
                    == inject_Z (2 ^ 52) * 2 * 2 ^ e1 * 1)%Q) by ring.
      assert (E2 : (inject_Z (2 ^ 52) * (2 ^ e1 * 2 * 2 ^ (e2 - e1 - 1))
                    == inject_Z (2 ^ 52) * 2 * 2 ^ e1 * 2 ^ (e2 - e1 - 1))%Q) by ring.
      rewrite E1, E2.
      apply Qmult_le_l; [|assumption].
      apply Qmult_lt_0_compat; [reflexivity | apply pow2_pos].
    + apply Qmult_le_compat_r; [|apply Qlt_le_weak, pow2_pos]. now rewrite <- Zle_Qle.
Qed.

(** On positive normal numbers [SFcompare] is the order of the values. *)
Lemma compare_normal (lox hix loy hiy : Z) (x y : Num.number) :
  normal_between lox hix x -> normal_between loy hiy y ->
  SFcompare x y = Some (Num.to_Q x ?= Num.to_Q y)%Q.
Proof.
  intros (mx & ex & -> & Hdx & _) (my & ey & -> & Hdy & _).
  cbn [SFcompare]. f_equal. rewrite !to_Q_finite.
  destruct (Z.compare_spec ex ey) as [->|Hlt|Hgt].
  - change (Pos.compare_cont Eq mx my) with (Pos.compare mx my).
    pose proof (pow2_pos ey) as Hp.
    destruct (Pos.compare_spec mx my) as [->|Hlt|Hgt]; symmetry.
    + apply Qeq_alt. reflexivity.
    + apply Qlt_alt. apply Qmult_lt_compat_r; [exact Hp|].
      rewrite <- Zlt_Qlt. lia.
    + apply Qgt_alt. apply Qmult_lt_compat_r; [exact Hp|].
      rewrite <- Zlt_Qlt. lia.
  - symmetry. apply Qlt_alt. now apply normal_value_lt.
  - symmetry. apply Qgt_alt. now apply normal_value_lt.
Qed.

Lemma normal_of_Z (n : Z) : 0 < n < 2 ^ 53 -> normal_between (-52) 0 (Num.of_Z n).
Proof.
  intros Hn. destruct (of_Z_normal n Hn) as (m & e & H & Hd & He & _).
  exists m, e. auto.
Qed.

Lemma compare_of_Z (a b : Z) :
  0 < a < 2 ^ 53 -> 0 < b < 2 ^ 53 ->
  SFcompare (Num.of_Z a) (Num.of_Z b) = Some (a ?= b).
Proof.
  intros Ha Hb.
  rewrite (compare_normal _ _ _ _ _ _ (normal_of_Z a Ha) (normal_of_Z b Hb)).
  rewrite (to_Q_of_Z a Ha), (to_Q_of_Z b Hb). f_equal.
  unfold Qcompare, inject_Z. cbn [Qnum Qden]. now rewrite !Z.mul_1_r.
Qed.

(** On natural numbers below [2^53] the comparison of numbers is that of
    integers. *)
Lemma leb_of_Z (a b : Z) :
  0 <= a < 2 ^ 53 -> 0 < b < 2 ^ 53 ->
  Num.leb (Num.of_Z a) (Num.of_Z b) = (a <=? b).
Proof.
  intros Ha Hb. unfold Num.leb, SFleb.
  destruct (Z.eq_dec a 0) as [->|Ha0].
  - destruct (of_Z_normal b Hb) as (m & e & -> & _). cbn.
    symmetry. apply Z.leb_le. lia.
  - rewrite compare_of_Z by lia. unfold Z.leb. now destruct (a ?= b).
Qed.

Lemma Math_max_of_Z (k : Z) :
  0 <= k < 2 ^ 53 ->
  Num.Math_max (Num.of_Z 1) (Num.of_Z k) = Num.of_Z (Z.max 1 k).
Proof.
  intros Hk. destruct (Z.eq_dec k 0) as [->|Hk0]; [reflexivity|].
  unfold Num.Math_max. rewrite compare_of_Z by lia.
  destruct (Z.compare_spec 1 k) as [<-|Hlt|Hgt].
  - reflexivity.
  - now rewrite Z.max_r by lia.
  - lia.
Qed.

Lemma Math_min_normal (lo hi : Z) (x y : Num.number) :
  normal_between lo hi x -> normal_between lo hi y ->
  (Num.Math_min x y = x \/ Num.Math_min x y = y) /\
  (Num.to_Q (Num.Math_min x y) <= Num.to_Q x)%Q /\
  (Num.to_Q (Num.Math_min x y) <= Num.to_Q y)%Q.
Proof.
  intros Hx Hy. unfold Num.Math_min.
  rewrite (compare_normal _ _ _ _ _ _ Hx Hy).
  destruct Hx as (mx & ex & -> & _). destruct Hy as (my & ey & -> & _).
  destruct (Qcompare_spec (Num.to_Q (S754_finite false mx ex))
              (Num.to_Q (S754_finite false my ey))) as [E|L|G].
  - split; [now left|]. split; [apply Qle_refl | rewrite E; apply Qle_refl].
  - split; [now left|]. split; [apply Qle_refl | now apply Qlt_le_weak].
  - split; [now right|]. split; [now apply Qlt_le_weak | apply Qle_refl].
Qed.

(** The floor of a normal number below [2^52] is the integer [k] with
    [k <= x < k + 1]. *)
Lemma Math_floor_normal (lo hi : Z) (x : Num.number) :
  normal_between lo hi x -> (Num.to_Q x < inject_Z (2 ^ 52))%Q ->
  exists k, Num.Math_floor x = Num.of_Z k /\ 0 <= k < 2 ^ 52 /\
            (inject_Z k <= Num.to_Q x)%Q /\ (Num.to_Q x < inject_Z (k + 1))%Q.
Proof.
  intros (m & e & -> & Hd & _) Hv.
  pose proof (mantissa_bounds m Hd) as Hm.
  rewrite to_Q_finite in Hv.
  assert (He : e < 0).
  { destruct (Z_lt_le_dec e 0) as [|Hge]; [assumption|]. exfalso.
    assert (1 <= 2 ^ e)%Q by (apply Qpower_1_le; [discriminate | lia]).
    assert (inject_Z (2 ^ 52) <= inject_Z (Zpos m))%Q by (rewrite <- Zle_Qle; lia).
    assert (inject_Z (2 ^ 52) * 1 <= inject_Z (Zpos m) * 2 ^ e)%Q.
    { apply Qmult_le_compat_nonneg; split; try assumption; discriminate. }
    rewrite Qmult_1_r in *. apply (Qlt_irrefl (inject_Z (2 ^ 52))).
    eapply Qle_lt_trans; eassumption. }
  unfold Num.Math_floor. replace (0 <=? e) with false by (symmetry; apply Z.leb_gt; lia).
  cbn [cond_Zopp]. fold (Num.of_Z (Zpos m / 2 ^ (- e))).
  set (P := 2 ^ (- e)). assert (HP : 0 < P) by (apply Z.pow_pos_nonneg; lia).
  exists (Zpos m / P). split; [reflexivity|].
  pose proof (Z.mul_div_le (Zpos m) P HP) as Hk1.
  pose proof (Z.mul_succ_div_gt (Zpos m) P HP) as Hk2.
  assert (HPq : (2 ^ e == / inject_Z P)%Q).
  { unfold P. rewrite pow2_inject by lia. rewrite <- Qpower_opp.
    now replace (- - e) with e by lia. }
  assert (HP0 : (0 < inject_Z P)%Q) by (rewrite Zlt_Qlt in HP; exact HP).
  rewrite to_Q_finite, HPq.
  assert (Hlow : (inject_Z (Zpos m / P) <= inject_Z (Zpos m) * / inject_Z P)%Q).
  { apply Qle_shift_div_l; [exact HP0|]. rewrite <- inject_Z_mult, <- Zle_Qle. lia. }
  assert (Hupp : (inject_Z (Zpos m) * / inject_Z P < inject_Z (Zpos m / P + 1))%Q).
  { apply Qlt_shift_div_r; [exact HP0|]. rewrite <- inject_Z_mult, <- Zlt_Qlt. lia. }
  split; [|split; assumption].
  split; [apply Z.div_pos; lia|].
  rewrite HPq in Hv. rewrite Zlt_Qlt.
  eapply Qle_lt_trans; eassumption.
Qed.

(** *** The planner *)

(** The arithmetic of one axis, over the rationals: [A] is the natural size,
    [M] the larger natural size, [sv] the scale, [pv] the rounded product and
    [k <= pv < k1] its integer neighbours. *)
Lemma axis_arith (k k1 A M sv pv : Q) :
  (0 < A)%Q -> (A <= M)%Q -> (A <= 4294967296)%Q -> (0 < sv)%Q ->
  ((1 - eps) * (A * sv) <= pv)%Q -> (pv <= (1 + eps) * (A * sv))%Q ->
  ((1 - eps) * 4096 <= sv * M)%Q -> (sv * M <= (1 + eps) * 4096)%Q ->
  (k <= pv)%Q -> (pv < k1)%Q ->
  (k * M < 4096 * A + 1 /\ 4096 * A - 1 < k1 * M)%Q.
Proof.
  intros HA HAM HA32 Hsv L1 U1 L2 U2 Hk Hk1.
  assert (HM : (0 < M)%Q) by lra.
  assert (Hpv : (0 <= pv)%Q).
  { assert (0 <= A * sv)%Q by (apply Qmult_le_0_compat; lra).
    unfold eps in *. nra. }
  assert (E1 : (pv * M <= (1 + eps) * (1 + eps) * 4096 * A)%Q).
  { assert (pv * M <= (1 + eps) * (A * sv) * M)%Q
      by (apply Qmult_le_compat_r; lra).
    assert (A * (sv * M) <= A * ((1 + eps) * 4096))%Q
      by (apply Qmult_le_l; lra).
    unfold eps in *. lra. }
  assert (E2 : ((1 - eps) * (1 - eps) * 4096 * A <= pv * M)%Q).
  { assert ((1 - eps) * (A * sv) * M <= pv * M)%Q
      by (apply Qmult_le_compat_r; lra).
    assert (A * ((1 - eps) * 4096) <= A * (sv * M))%Q
      by (apply Qmult_le_l; lra).
    unfold eps in *. lra. }
  assert (E3 : (k * M <= pv * M)%Q) by (apply Qmult_le_compat_r; lra).
  assert (E4 : (pv * M < k1 * M)%Q) by (apply Qmult_lt_compat_r; lra).
  unfold eps in *. split; lra.
Qed.

Lemma normal_pos (lo hi : Z) (x : Num.number) :
  normal_between lo hi x -> (0 < Num.to_Q x)%Q.
Proof.
  intros (m & e & -> & _). rewrite to_Q_finite.
  apply Qmult_lt_0_compat; [reflexivity | apply pow2_pos].
Qed.

(** One axis of the downscale: [a] is the natural size on that axis, [M] the
    larger of the two natural sizes, [scale] a number within one rounding of
    [4096/M]. *)
Lemma axis_bound (a M : Z) (scale : Num.number) :
  0 < a <= M -> 4096 < M -> a < 2 ^ 32 ->
  normal_between (-93) (-39) scale ->
  ((1 - eps) * 4096 <= Num.to_Q scale * inject_Z M)%Q ->
  (Num.to_Q scale * inject_Z M <= (1 + eps) * 4096)%Q ->
  exists a',
    Num.Math_max (Num.of_Z 1) (Num.Math_floor (Num.mul (Num.of_Z a) scale))
      = Num.of_Z a' /\
    1 <= a' <= 4096 /\ a' <= a /\ Z.abs (a' * M - 4096 * a) <= M.
Proof.
  intros Ha HM Ha32 Hs L2 U2.
  assert (Ha53 : 0 < a < 2 ^ 53) by (change (2 ^ 32) with 4294967296 in Ha32;
                                     change (2 ^ 53) with 9007199254740992; lia).
  pose proof (normal_of_Z a Ha53) as Hna.
  destruct (mul_Q (-52) 0 (-93) (-39) _ _ Hna Hs ltac:(lia) ltac:(lia))
    as (Hnp & L1 & U1).
  rewrite (to_Q_of_Z a Ha53) in L1, U1.
  pose proof (normal_pos _ _ _ Hs) as Hsv.
  set (sv := Num.to_Q scale) in *.
  set (pv := Num.to_Q (Num.mul (Num.of_Z a) scale)) in *.
  assert (HA : (0 < inject_Z a)%Q) by (rewrite (Zlt_Qlt 0 a) in Ha; tauto).
  assert (HAM : (inject_Z a <= inject_Z M)%Q) by (rewrite <- Zle_Qle; lia).
  assert (HA32 : (inject_Z a <= 4294967296)%Q).
  { change 4294967296%Q with (inject_Z (2 ^ 32)). rewrite <- Zle_Qle. lia. }
  assert (Hpv52 : (pv < inject_Z (2 ^ 52))%Q).
  { assert (inject_Z a * sv <= inject_Z M * sv)%Q
      by (apply Qmult_le_compat_r; [exact HAM | now apply Qlt_le_weak]).
    change (inject_Z (2 ^ 52)) with 4503599627370496%Q.
    unfold eps in *. lra. }
  destruct (Math_floor_normal _ _ _ Hnp Hpv52) as (k & -> & Hk & Hk1 & Hk2).
  fold pv in Hk1, Hk2.
  destruct (axis_arith (inject_Z k) (inject_Z (k + 1)) (inject_Z a) (inject_Z M)
              sv pv HA HAM HA32 Hsv L1 U1 L2 U2 Hk1 Hk2) as [G1 G2].
  assert (Z1 : k * M < 4096 * a + 1).
  { rewrite Zlt_Qlt, inject_Z_plus, !inject_Z_mult. exact G1. }
  assert (Z2 : 4096 * a - 1 < (k + 1) * M).
  { rewrite Zlt_Qlt. unfold Z.sub. rewrite inject_Z_plus, !inject_Z_mult. exact G2. }
  rewrite Math_max_of_Z by (change (2 ^ 52) with 4503599627370496 in Hk;
                            change (2 ^ 53) with 9007199254740992; lia).
  exists (Z.max 1 k). split; [reflexivity|].
  assert (k <= 4096) by nia.
  assert (k < a) by nia.
  destruct (Z.max_spec 1 k) as [[Hlt ->]|[Hge ->]]; repeat split; try lia.
  assert (Hk01 : k = 0 \/ k = 1) by lia.
  destruct Hk01; subst k; lia.
Qed.

Lemma MAX_DIMENSION_normal : normal_between (-40) (-40) MAX_DIMENSION.
Proof.
  exists (Z.to_pos (2 ^ 52)), (-40). split; [reflexivity|]. split; [reflexivity | lia].
Qed.

(** [4096 / n] in binary64: a normal number, within one rounding of the
    quotient. *)
Lemma quotient_bounds (n : Z) :
  0 < n < 2 ^ 32 ->
  normal_between (-93) (-39) (Num.div MAX_DIMENSION (Num.of_Z n)) /\
  ((1 - eps) * 4096 <= Num.to_Q (Num.div MAX_DIMENSION (Num.of_Z n)) * inject_Z n)%Q /\
  (Num.to_Q (Num.div MAX_DIMENSION (Num.of_Z n)) * inject_Z n <= (1 + eps) * 4096)%Q.
Proof.
  intros Hn.
  assert (Hn53 : 0 < n < 2 ^ 53) by (change (2 ^ 32) with 4294967296 in Hn;
                                     change (2 ^ 53) with 9007199254740992; lia).
  destruct (div_Q (-40) (-40) (-52) 0 _ _ MAX_DIMENSION_normal
              (normal_of_Z n Hn53) ltac:(lia) ltac:(lia)) as (Hnorm & L & U).
  split; [exact Hnorm|].
  rewrite (to_Q_of_Z n Hn53) in L, U.
  change (Num.to_Q MAX_DIMENSION) with (inject_Z (2 ^ 52) * 2 ^ (-40))%Q in L, U.
  assert (E : (inject_Z (2 ^ 52) * 2 ^ (-40) == 4096)%Q) by reflexivity.
  rewrite E in L, U.
  assert (Hq : (0 < inject_Z n)%Q) by (rewrite (Zlt_Qlt 0 n) in Hn; tauto).
  assert (Hq0 : ~ (inject_Z n == 0)%Q) by (intros E0; rewrite E0 in Hq; discriminate).
  assert (E' : ((1 - eps) * 4096 == (1 - eps) * (4096 / inject_Z n) * inject_Z n)%Q)
    by (field; exact Hq0).
  assert (E'' : ((1 + eps) * 4096 == (1 + eps) * (4096 / inject_Z n) * inject_Z n)%Q)
    by (field; exact Hq0).
  rewrite E', E''.
  split; apply Qmult_le_compat_r; try assumption; now apply Qlt_le_weak.
Qed.

(** The scale factor: a normal number within one rounding of
    [4096 / max w h]. *)
Lemma scale_bounds (w h : Z) :
  0 < w < 2 ^ 32 -> 0 < h < 2 ^ 32 ->
  let scale := Num.Math_min (Num.div MAX_DIMENSION (Num.of_Z w))
                            (Num.div MAX_DIMENSION (Num.of_Z h)) in
  normal_between (-93) (-39) scale /\
  ((1 - eps) * 4096 <= Num.to_Q scale * inject_Z (Z.max w h))%Q /\
  (Num.to_Q scale * inject_Z (Z.max w h) <= (1 + eps) * 4096)%Q.
Proof.
  intros Hw Hh scale.
  destruct (quotient_bounds w Hw) as (Nw & Lw & Uw).
  destruct (quotient_bounds h Hh) as (Nh & Lh & Uh).
  destruct (Math_min_normal _ _ _ _ Nw Nh) as (Hsel & Hlw & Hlh).
  fold scale in Hsel, Hlw, Hlh.
  assert (Hnorm : normal_between (-93) (-39) scale)
    by (destruct Hsel as [-> | ->]; assumption).
  pose proof (normal_pos _ _ _ Hnorm) as Hpos.
  split; [exact Hnorm|].
  assert (Hqw : (0 < inject_Z w)%Q) by (rewrite (Zlt_Qlt 0 w) in Hw; tauto).
  assert (Hqh : (0 < inject_Z h)%Q) by (rewrite (Zlt_Qlt 0 h) in Hh; tauto).
  assert (Hmw : (inject_Z w <= inject_Z (Z.max w h))%Q) by (rewrite <- Zle_Qle; lia).
  assert (Hmh : (inject_Z h <= inject_Z (Z.max w h))%Q) by (rewrite <- Zle_Qle; lia).
  split.
  - destruct Hsel as [E | E]; rewrite E.
    + eapply Qle_trans; [exact Lw|].
      apply Qmult_le_l; [|exact Hmw]. rewrite <- E. exact Hpos.
    + eapply Qle_trans; [exact Lh|].
      apply Qmult_le_l; [|exact Hmh]. rewrite <- E. exact Hpos.
  - destruct (Z.max_spec w h) as [[_ ->] | [_ ->]].
    + eapply Qle_trans; [|exact Uh].
      apply Qmult_le_compat_r; [exact Hlh | now apply Qlt_le_weak].
    + eapply Qle_trans; [|exact Uw].
      apply Qmult_le_compat_r; [exact Hlw | now apply Qlt_le_weak].
Qed.

(** C2. For natural dimensions [w] and [h] (positive, and below 2^32 as the
    [unsigned long] attributes [naturalWidth] and [naturalHeight] are) of
    which the larger exceeds 4096, the planner returns integers [w'] and
    [h'] such that: neither exceeds 4096; both are at least 1; neither
    exceeds the input on its axis; and each is within one pixel of the
    exactly scaled value [4096·w / max w h], respectively
    [4096·h / max w h] (the inequality is stated multiplied by [max w h]).
    All roundings of the binary64 division and multiplication are
    accounted for. *)
Theorem downscale_bounds (w h : Z) :
  0 < w < 2 ^ 32 -> 0 < h < 2 ^ 32 -> 4096 < Z.max w h ->
  exists w' h',
    calculateTargetSize (Num.of_Z w) (Num.of_Z h) MAX_DIMENSION
      = {| width := Num.of_Z w'; height := Num.of_Z h' |} /\
    Z.max w' h' <= 4096 /\
    1 <= Z.min w' h' /\
    w' <= w /\ h' <= h /\
    Z.abs (w' * Z.max w h - 4096 * w) <= Z.max w h /\
    Z.abs (h' * Z.max w h - 4096 * h) <= Z.max w h.
Proof.
  intros Hw Hh Hbig.
  destruct (scale_bounds w h Hw Hh) as (Hnorm & L & U).
  destruct (axis_bound w (Z.max w h) _ ltac:(lia) Hbig ltac:(lia) Hnorm L U)
    as (w' & Ew & Hw1 & Hw2 & Hw3).
  destruct (axis_bound h (Z.max w h) _ ltac:(lia) Hbig ltac:(lia) Hnorm L U)
    as (h' & Eh & Hh1 & Hh2 & Hh3).
  exists w', h'. unfold calculateTargetSize, MAX_DIMENSION in *.
  rewrite !leb_of_Z by (change (2 ^ 32) with 4294967296 in *;
                        change (2 ^ 53) with 9007199254740992; lia).
  replace ((w <=? 4096) && (h <=? 4096))%bool with false.
  - rewrite Ew, Eh. repeat split; lia.
  - symmetry. apply andb_false_iff. rewrite !Z.leb_gt. lia.
Qed.

Lemma downscale_bounds_witness :
  exists w' h',
    calculateTargetSize (Num.of_Z 8000) (Num.of_Z 4000) MAX_DIMENSION
      = {| width := Num.of_Z w'; height := Num.of_Z h' |} /\
    Z.max w' h' <= 4096 /\
    1 <= Z.min w' h' /\
    w' <= 8000 /\ h' <= 4000 /\
    Z.abs (w' * Z.max 8000 4000 - 4096 * 8000) <= Z.max 8000 4000 /\
    Z.abs (h' * Z.max 8000 4000 - 4096 * 4000) <= Z.max 8000 4000.
Proof.
  apply (downscale_bounds 8000 4000); simpl; lia.
Defined.

(** The roundings are visible: for 4237 by 4000 the product
    [4237 * (4096 / 4237)] falls just below 4096 and the width is 4095. *)
Lemma rounding_is_visible :
  calculateTargetSize (Num.of_Z 4237) (Num.of_Z 4000) MAX_DIMENSION
    = {| width := Num.of_Z 4095; height := Num.of_Z 3866 |}.
Proof. vm_compute. reflexivity. Qed.

(** Whatever the numbers, when both comparisons of the guard hold the
    arguments are returned. *)
Lemma guard_returns_arguments (w h maxDim : Num.number) :
  Num.leb w maxDim = true -> Num.leb h maxDim = true ->
  calculateTargetSize w h maxDim = {| width := w; height := h |}.
Proof.
  intros Hw Hh. unfold calculateTargetSize. now rewrite Hw, Hh.
Qed.

(** C3. Dimensions that are both at most 4096 are returned unchanged. *)
Theorem small_image_unchanged (w h : Z) :
  0 <= w <= 4096 -> 0 <= h <= 4096 ->
  calculateTargetSize (Num.of_Z w) (Num.of_Z h) MAX_DIMENSION
    = {| width := Num.of_Z w; height := Num.of_Z h |}.
Proof.
  intros Hw Hh. apply guard_returns_arguments; unfold MAX_DIMENSION;
    rewrite leb_of_Z by (change (2 ^ 53) with 9007199254740992; lia);
    apply Z.leb_le; lia.
Qed.

Lemma small_image_unchanged_witness :
  calculateTargetSize (Num.of_Z 3000) (Num.of_Z 2000) MAX_DIMENSION
    = {| width := Num.of_Z 3000; height := Num.of_Z 2000 |}.
Proof.
  apply (small_image_unchanged 3000 2000); lia.
Defined.

(** C4. An image of 8000 by 4000: the scale factor is the smaller quotient,
    4096/8000, which is the number written 0.512 (the binary64 number nearest
    to 512/1000); the floor of 8000 times it is 4096, that of 4000 times it
    is 2048; the planner returns (4096, 2048). *)
Theorem huge_jpg_target :
  let scale := Num.Math_min (Num.div MAX_DIMENSION (Num.of_Z 8000))
                            (Num.div MAX_DIMENSION (Num.of_Z 4000)) in
  scale = Num.div MAX_DIMENSION (Num.of_Z 8000) /\
  scale = Num.div (Num.of_Z 512) (Num.of_Z 1000) /\
  Num.Math_floor (Num.mul (Num.of_Z 8000) scale) = Num.of_Z 4096 /\
  Num.Math_floor (Num.mul (Num.of_Z 4000) scale) = Num.of_Z 2048 /\
  calculateTargetSize (Num.of_Z 8000) (Num.of_Z 4000) MAX_DIMENSION
    = {| width := Num.of_Z 4096; height := Num.of_Z 2048 |}.
Proof. vm_compute. repeat split. Qed.

(** * Further properties *)

(** ** The validator: letter case and accepted names *)

Lemma lower_ascii_dot (c : ascii) :
  Ascii.eqb (Js.lower_ascii c) "." = Ascii.eqb c ".".
Proof. destruct c as [[] [] [] [] [] [] [] []]; reflexivity. Qed.

Lemma lower_ascii_slash (c : ascii) :
  Ascii.eqb (Js.lower_ascii c) "/" = Ascii.eqb c "/".
Proof. destruct c as [[] [] [] [] [] [] [] []]; reflexivity. Qed.

(** Splitting at the dots and lower-casing commute. *)
Lemma split_toLowerCase (s : string) :
  Js.split "." (Js.toLowerCase s) = map Js.toLowerCase (Js.split "." s).
Proof.
  induction s as [|c s IH]; [reflexivity|].
  cbn [Js.toLowerCase Js.split]. rewrite lower_ascii_dot, IH.
  destruct (Ascii.eqb c "."); [reflexivity|].
  destruct (Js.split "." s); reflexivity.
Qed.

Lemma pop_map_toLowerCase (l : list string) :
  Js.pop (map Js.toLowerCase l) = Js.toLowerCase (Js.pop l).
Proof.
  unfold Js.pop. induction l as [|x l IH]; [reflexivity|].
  destruct l as [|y l]; [reflexivity|]. exact IH.
Qed.

(** The extension only depends on the lower-cased name. *)
Lemma extension_lower (nm : string) :
  extension nm = Js.pop (Js.split "." (Js.toLowerCase nm)).
Proof.
  unfold extension. now rewrite split_toLowerCase, pop_map_toLowerCase.
Qed.

(** X1. Validation does not look at the letter case of the name: two files
    of the same media type whose names differ by the case of their letters
    only get the same verdict. *)
Theorem validateFile_name_case (f g : File) :
  Js.toLowerCase (name f) = Js.toLowerCase (name g) ->
  type f = type g ->
  validateFile (Some f) = validateFile (Some g).
Proof.
  intros Hname Htype. unfold validateFile. rewrite !or_empty_id.
  rewrite (extension_lower (name f)), (extension_lower (name g)).
  now rewrite Hname, Htype.
Qed.

Lemma validateFile_name_case_witness :
  validateFile (Some (mkFile "Photo.JPeG" "image/jpeg" 10))
    = validateFile (Some (mkFile "pHOTO.jpeg" "image/jpeg" 999)).
Proof.
  apply (validateFile_name_case (mkFile "Photo.JPeG" "image/jpeg" 10)
           (mkFile "pHOTO.jpeg" "image/jpeg" 999)); reflexivity.
Defined.

(** A name has no dot, or it ends with a dot followed by a dotless suffix. *)
Lemma name_shape (nm : string) :
  no_dot nm = true \/
  exists pre suf, nm = pre +:+ "." +:+ suf /\ no_dot suf = true.
Proof.
  induction nm as [|c nm IH]; [left; reflexivity|].
  destruct IH as [Hnd | (pre & suf & -> & Hsuf)].
  - destruct (Ascii.eqb_spec c ".") as [-> | Hc].
    + right. exists "", nm. split; [reflexivity | exact Hnd].
    + left. cbn [no_dot]. rewrite Hnd.
      destruct (Ascii.eqb_spec c "."); [contradiction | reflexivity].
  - right. exists (String c pre), suf. split; [reflexivity | exact Hsuf].
Qed.

(** The verdict, as a condition on the extension and the media type. *)
Lemma validateFile_ok_iff (f : File) :
  ok (validateFile (Some f)) = true <->
  In (extension (name f)) ["jpg"; "jpeg"] /\ type f = "image/jpeg".
Proof.
  unfold validateFile. rewrite !or_empty_id.
  pose proof (includes_In allowedExt (extension (name f))) as He.
  pose proof (includes_In allowedMime (type f)) as Hm.
  change allowedExt with ["jpg"; "jpeg"] in He at 2.
  change (In (type f) allowedMime) with ("image/jpeg" = type f \/ False) in Hm.
  destruct (Js.includes allowedExt (extension (name f)));
    destruct (Js.includes allowedMime (type f)); cbn [negb orb ok].
  - split; [intros _|reflexivity]. split; [now apply He|].
    destruct (proj1 Hm eq_refl) as [E|[]]. now symmetry.
  - split; [discriminate|]. intros [_ Ht].
    apply Hm. left. now symmetry.
  - split; [discriminate|]. intros [Hin _]. now apply He.
  - split; [discriminate|]. intros [Hin _]. now apply He.
Qed.

(** X2. The names that pass: a file is accepted exactly when its media type
    is image/jpeg and its name is, or ends with a dot followed by, a dotless
    word that reads jpg or jpeg once lower-cased.  A file named JPEG, without
    any dot, is accepted. *)
Theorem validateFile_accepts_iff (f : File) :
  ok (validateFile (Some f)) = true <->
  type f = "image/jpeg" /\
  exists suf,
    no_dot suf = true /\
    In (Js.toLowerCase suf) ["jpg"; "jpeg"] /\
    (name f = suf \/ exists pre, name f = pre +:+ "." +:+ suf).
Proof.
  rewrite validateFile_ok_iff. split.
  - intros [Hext Htype]. split; [exact Htype|].
    destruct (name_shape (name f)) as [Hnd | (pre & suf & Hname & Hsuf)].
    + exists (name f). split; [exact Hnd|]. split; [|now left].
      now rewrite <- (extension_no_dot _ Hnd).
    + exists suf. split; [exact Hsuf|]. split; [|right; now exists pre].
      rewrite Hname in Hext. now rewrite (extension_final_dot _ _ Hsuf) in Hext.
  - intros (Htype & suf & Hsuf & Hin & [Hname | (pre & Hname)]); split;
      try exact Htype; rewrite Hname.
    + now rewrite (extension_no_dot _ Hsuf).
    + now rewrite (extension_final_dot _ _ Hsuf).
Qed.

(** ** The output file name *)

Lemma no_dot_slash_lower (s : string) :
  no_dot_slash (Js.toLowerCase s) = no_dot_slash s.
Proof.
  induction s as [|c s IH]; [reflexivity|].
  cbn [Js.toLowerCase no_dot_slash].
  now rewrite lower_ascii_dot, lower_ascii_slash, IH.
Qed.

Lemma no_dot_slash_no_dot (s : string) : no_dot_slash s = true -> no_dot s = true.
Proof.
  induction s as [|c s IH]; [reflexivity|]. cbn [no_dot_slash no_dot].
  destruct (Ascii.eqb c "."); [discriminate|].
  destruct (Ascii.eqb c "/"); [discriminate|]. exact IH.
Qed.

(** A name without dot is left as it is. *)
Lemma stripExtension_no_dot (s : string) :
  no_dot s = true -> stripExtension s = s.
Proof.
  induction s as [|c s IH]; [reflexivity|]. cbn [no_dot stripExtension].
  destruct (Ascii.eqb c "."); [discriminate|]. cbn [negb andb].
  intros Hs. now rewrite (IH Hs).
Qed.

Lemma no_dot_slash_app_dot (pre suf : string) :
  no_dot_slash (pre +:+ "." +:+ suf) = false.
Proof.
  induction pre as [|c pre IH]; [reflexivity|].
  change (String c pre +:+ "." +:+ suf) with (String c (pre +:+ "." +:+ suf)).
  cbn [no_dot_slash]. rewrite IH. now rewrite andb_false_r.
Qed.

(** The pattern matches at the last dot only, and only when what follows is
    not empty and has no slash. *)
Lemma stripExtension_final_dot (pre suf : string) :
  suf <> "" -> no_dot_slash suf = true ->
  stripExtension (pre +:+ "." +:+ suf) = pre.
Proof.
  intros Hne Hsuf. induction pre as [|c pre IH].
  - change ("" +:+ "." +:+ suf) with (String "." suf).
    cbn [stripExtension]. rewrite Hsuf.
    destruct (String.eqb_spec suf ""); [contradiction|]. reflexivity.
  - change (String c pre +:+ "." +:+ suf) with (String c (pre +:+ "." +:+ suf)).
    cbn [stripExtension]. rewrite no_dot_slash_app_dot, !andb_false_r.
    now rewrite IH.
Qed.

(** X3. The name of the download of a file that passed validation: the name
    without its extension, followed by .png; when the name has no dot (the
    file is named jpg or jpeg, in any case), .png is appended to it. *)
Theorem outName_of_accepted (f : File) :
  ok (validateFile (Some f)) = true ->
  (forall pre suf, name f = pre +:+ "." +:+ suf -> no_dot suf = true ->
                   outName (name f) = pre +:+ ".png") /\
  (no_dot (name f) = true -> outName (name f) = name f +:+ ".png").
Proof.
  intros Hok. apply validateFile_ok_iff in Hok as [Hext _].
  assert (Hne : name f <> "").
  { intros E. rewrite E in Hext. cbn in Hext. intuition discriminate. }
  unfold outName. destruct (String.eqb_spec (name f) "") as [E|_]; [contradiction|].
  split.
  - intros pre suf Hname Hsuf. rewrite Hname in *.
    rewrite (extension_final_dot _ _ Hsuf) in Hext.
    rewrite stripExtension_final_dot; [reflexivity| |].
    + intros ->. cbn in Hext. intuition discriminate.
    + rewrite <- no_dot_slash_lower.
      destruct Hext as [<- | [<- | []]]; reflexivity.
  - intros Hnd. now rewrite stripExtension_no_dot.
Qed.

Lemma outName_of_accepted_witness :
  (forall pre suf, "holiday.2024.JPG" = pre +:+ "." +:+ suf -> no_dot suf = true ->
                   outName "holiday.2024.JPG" = pre +:+ ".png") /\
  (no_dot "holiday.2024.JPG" = true ->
   outName "holiday.2024.JPG" = "holiday.2024.JPG" +:+ ".png").
Proof.
  apply (outName_of_accepted (mkFile "holiday.2024.JPG" "image/jpeg" 1)).
  reflexivity.
Defined.

(** ** Selecting a file *)

(** A file that passes validation and is not the current selection becomes
    the selection, whatever was on the page. *)
Lemma handleFiles_Ready (file : File) (rest : list File) (s : ui) :
  ok (validateFile (Some file)) = true ->
  sameAsCurrent file s = false ->
  Ready file (handleFiles (Some (file :: rest)) s) /\
  currentObjectUrl (handleFiles (Some (file :: rest)) s)
    = Some (blobUrl (urlCounter s)).
Proof.
  intros Hok Hdiff. unfold handleFiles. rewrite Hdiff, Hok. cbn [negb].
  unfold Ready, showPreview, cleanupPreview, createObjectURL, blobUrl.
  destruct s as [[url|] ? ? ? ? ? ? ? ? ? ? ? ? ? ? ? ? ?]; cbn;
    repeat split; try reflexivity;
    eexists; (split; [reflexivity|]); (split; [reflexivity|]); set_solver.
Qed.

(** ** The planner, more precisely *)

(** One axis again, with the integer found by the floor: [k] is the floor
    of [4096·a / M], or one less when that quotient is an integer. *)
Lemma axis_floor (a M : Z) (scale : Num.number) :
  0 < a <= M -> 4096 < M -> a < 2 ^ 32 ->
  normal_between (-93) (-39) scale ->
  ((1 - eps) * 4096 <= Num.to_Q scale * inject_Z M)%Q ->
  (Num.to_Q scale * inject_Z M <= (1 + eps) * 4096)%Q ->
  exists k,
    0 <= k /\
    Num.Math_max (Num.of_Z 1) (Num.Math_floor (Num.mul (Num.of_Z a) scale))
      = Num.of_Z (Z.max 1 k) /\
    k * M <= 4096 * a <= (k + 1) * M.
Proof.
  intros Ha HM Ha32 Hs L2 U2.
  assert (Ha53 : 0 < a < 2 ^ 53) by (change (2 ^ 32) with 4294967296 in Ha32;
                                     change (2 ^ 53) with 9007199254740992; lia).
  pose proof (normal_of_Z a Ha53) as Hna.
  destruct (mul_Q (-52) 0 (-93) (-39) _ _ Hna Hs ltac:(lia) ltac:(lia))
    as (Hnp & L1 & U1).
  rewrite (to_Q_of_Z a Ha53) in L1, U1.
  pose proof (normal_pos _ _ _ Hs) as Hsv.
  set (sv := Num.to_Q scale) in *.
  set (pv := Num.to_Q (Num.mul (Num.of_Z a) scale)) in *.
  assert (HA : (0 < inject_Z a)%Q) by (rewrite (Zlt_Qlt 0 a) in Ha; tauto).
  assert (HAM : (inject_Z a <= inject_Z M)%Q) by (rewrite <- Zle_Qle; lia).
  assert (HA32 : (inject_Z a <= 4294967296)%Q).
  { change 4294967296%Q with (inject_Z (2 ^ 32)). rewrite <- Zle_Qle. lia. }
  assert (Hpv52 : (pv < inject_Z (2 ^ 52))%Q).
  { assert (inject_Z a * sv <= inject_Z M * sv)%Q
      by (apply Qmult_le_compat_r; [exact HAM | now apply Qlt_le_weak]).
    change (inject_Z (2 ^ 52)) with 4503599627370496%Q.
    unfold eps in *. lra. }
  destruct (Math_floor_normal _ _ _ Hnp Hpv52) as (k & -> & Hk & Hk1 & Hk2).
  fold pv in Hk1, Hk2.
  destruct (axis_arith (inject_Z k) (inject_Z (k + 1)) (inject_Z a) (inject_Z M)
              sv pv HA HAM HA32 Hsv L1 U1 L2 U2 Hk1 Hk2) as [G1 G2].
  assert (Z1 : k * M < 4096 * a + 1).
  { rewrite Zlt_Qlt, inject_Z_plus, !inject_Z_mult. exact G1. }
  assert (Z2 : 4096 * a - 1 < (k + 1) * M).
  { rewrite Zlt_Qlt. unfold Z.sub. rewrite inject_Z_plus, !inject_Z_mult. exact G2. }
  rewrite Math_max_of_Z by (change (2 ^ 52) with 4503599627370496 in Hk;
                            change (2 ^ 53) with 9007199254740992; lia).
  exists k. split; [lia|]. split; [reflexivity | lia].
Qed.

(** The planner on a large image, axis by axis. *)
Lemma plan_large (w h : Z) :
  0 < w < 2 ^ 32 -> 0 < h < 2 ^ 32 -> 4096 < Z.max w h ->
  exists kw kh,
    0 <= kw /\ 0 <= kh /\
    calculateTargetSize (Num.of_Z w) (Num.of_Z h) MAX_DIMENSION
      = {| width := Num.of_Z (Z.max 1 kw); height := Num.of_Z (Z.max 1 kh) |} /\
    kw * Z.max w h <= 4096 * w <= (kw + 1) * Z.max w h /\
    kh * Z.max w h <= 4096 * h <= (kh + 1) * Z.max w h.
Proof.
  intros Hw Hh Hbig.
  destruct (scale_bounds w h Hw Hh) as (Hnorm & L & U).
  destruct (axis_floor w (Z.max w h) _ ltac:(lia) Hbig ltac:(lia) Hnorm L U)
    as (kw & Hkw & Ew & Bw).
  destruct (axis_floor h (Z.max w h) _ ltac:(lia) Hbig ltac:(lia) Hnorm L U)
    as (kh & Hkh & Eh & Bh).
  exists kw, kh. split; [exact Hkw|]. split; [exact Hkh|].
  split; [|split; assumption].
  unfold calculateTargetSize, MAX_DIMENSION in *.
  rewrite !leb_of_Z by (change (2 ^ 32) with 4294967296 in *;
                        change (2 ^ 53) with 9007199254740992; lia).
  replace ((w <=? 4096) && (h <=? 4096))%bool with false.
  - now rewrite Ew, Eh.
  - symmetry. apply andb_false_iff. rewrite !Z.leb_gt. lia.
Qed.

(** The planner on a small image. *)
Lemma plan_small (w h : Z) :
  0 <= w <= 4096 -> 0 <= h <= 4096 ->
  calculateTargetSize (Num.of_Z w) (Num.of_Z h) MAX_DIMENSION
    = {| width := Num.of_Z w; height := Num.of_Z h |}.
Proof.
  intros Hw Hh. apply guard_returns_arguments; unfold MAX_DIMENSION;
    rewrite leb_of_Z by (change (2 ^ 53) with 9007199254740992; lia);
    apply Z.leb_le; lia.
Qed.

(** [k] between the bounds is the quotient, or one less on an exact
    division. *)
Lemma floor_or_below (k X M : Z) :
  0 < M -> k * M <= X <= (k + 1) * M ->
  k = X / M \/ (X mod M = 0 /\ k = X / M - 1).
Proof.
  intros HM [Hlo Hhi].
  destruct (Z.eq_dec X ((k + 1) * M)) as [E|Hne].
  - right. subst X. rewrite Z.mod_mul, Z.div_mul by lia. lia.
  - left. apply Z.div_unique_pos with (r := X - k * M); lia.
Qed.

(** X5. What the planner computes on a large image, exactly: on each axis
    the floor of the ideal size [4096·a / max w h], raised to 1 if it is 0;
    only when the ideal size is an integer [q] may binary64 rounding return
    [q - 1] instead. *)
Theorem downscale_is_floor (w h : Z) :
  0 < w < 2 ^ 32 -> 0 < h < 2 ^ 32 -> 4096 < Z.max w h ->
  exists w' h',
    calculateTargetSize (Num.of_Z w) (Num.of_Z h) MAX_DIMENSION
      = {| width := Num.of_Z w'; height := Num.of_Z h' |} /\
    (w' = Z.max 1 ((4096 * w) / Z.max w h) \/
     ((4096 * w) mod Z.max w h = 0 /\ w' = Z.max 1 ((4096 * w) / Z.max w h - 1))) /\
    (h' = Z.max 1 ((4096 * h) / Z.max w h) \/
     ((4096 * h) mod Z.max w h = 0 /\ h' = Z.max 1 ((4096 * h) / Z.max w h - 1))).
Proof.
  intros Hw Hh Hbig.
  destruct (plan_large w h Hw Hh Hbig) as (kw & kh & _ & _ & E & Bw & Bh).
  exists (Z.max 1 kw), (Z.max 1 kh). split; [exact E|].
  split.
  - destruct (floor_or_below kw (4096 * w) (Z.max w h) ltac:(lia) Bw)
      as [-> | [Hm ->]]; auto.
  - destruct (floor_or_below kh (4096 * h) (Z.max w h) ltac:(lia) Bh)
      as [-> | [Hm ->]]; auto.
Qed.

Lemma downscale_is_floor_witness :
  exists w' h',
    calculateTargetSize (Num.of_Z 4237) (Num.of_Z 4000) MAX_DIMENSION
      = {| width := Num.of_Z w'; height := Num.of_Z h' |} /\
    (w' = Z.max 1 ((4096 * 4237) / Z.max 4237 4000) \/
     ((4096 * 4237) mod Z.max 4237 4000 = 0 /\
      w' = Z.max 1 ((4096 * 4237) / Z.max 4237 4000 - 1))) /\
    (h' = Z.max 1 ((4096 * 4000) / Z.max 4237 4000) \/
     ((4096 * 4000) mod Z.max 4237 4000 = 0 /\
      h' = Z.max 1 ((4096 * 4000) / Z.max 4237 4000 - 1))).
Proof.
  apply (downscale_is_floor 4237 4000); simpl; lia.
Defined.

(** X6. The longer side of a large image becomes 4096, or 4095 when the
    rounding falls short. *)
Theorem downscale_long_side (w h : Z) :
  0 < w < 2 ^ 32 -> 0 < h < 2 ^ 32 -> 4096 < Z.max w h ->
  exists w' h',
    calculateTargetSize (Num.of_Z w) (Num.of_Z h) MAX_DIMENSION
      = {| width := Num.of_Z w'; height := Num.of_Z h' |} /\
    (Z.max w' h' = 4096 \/ Z.max w' h' = 4095).
Proof.
  intros Hw Hh Hbig.
  destruct (plan_large w h Hw Hh Hbig) as (kw & kh & Hkw & Hkh & E & Bw & Bh).
  exists (Z.max 1 kw), (Z.max 1 kh). split; [exact E|].
  assert (kw <= 4096) by nia. assert (kh <= 4096) by nia.
  destruct (Z.max_spec w h) as [[Hlt Hm] | [Hge Hm]]; rewrite Hm in *.
  - assert (4095 <= kh) by nia. lia.
  - assert (4095 <= kw) by nia. lia.
Qed.

Lemma downscale_long_side_witness :
  exists w' h',
    calculateTargetSize (Num.of_Z 4237) (Num.of_Z 4000) MAX_DIMENSION
      = {| width := Num.of_Z w'; height := Num.of_Z h' |} /\
    (Z.max w' h' = 4096 \/ Z.max w' h' = 4095).
Proof.
  apply (downscale_long_side 4237 4000); simpl; lia.
Defined.

(** X7. Planning is idempotent: the planned size is left unchanged when it
    is planned again. *)
Theorem plan_idempotent (w h : Z) :
  0 < w < 2 ^ 32 -> 0 < h < 2 ^ 32 ->
  let r := calculateTargetSize (Num.of_Z w) (Num.of_Z h) MAX_DIMENSION in
  calculateTargetSize (width r) (height r) MAX_DIMENSION = r.
Proof.
  intros Hw Hh r. subst r.
  destruct (Z_le_gt_dec (Z.max w h) 4096) as [Hsmall | Hbig].
  - rewrite (plan_small w h) by lia. cbn [width height].
    apply plan_small; lia.
  - destruct (plan_large w h Hw Hh ltac:(lia))
      as (kw & kh & Hkw & Hkh & -> & Bw & Bh).
    cbn [width height]. apply plan_small; nia.
Qed.

Lemma plan_idempotent_witness :
  let r := calculateTargetSize (Num.of_Z 8000) (Num.of_Z 4000) MAX_DIMENSION in
  calculateTargetSize (width r) (height r) MAX_DIMENSION = r.
Proof.
  apply (plan_idempotent 8000 4000); simpl; lia.
Defined.

(** Two normal numbers of the same value are the same number. *)
Lemma normal_value_inj (lox hix loy hiy : Z) (x y : Num.number) :
  normal_between lox hix x -> normal_between loy hiy y ->
  (Num.to_Q x == Num.to_Q y)%Q -> x = y.
Proof.
  intros (mx & ex & -> & Hdx & _) (my & ey & -> & Hdy & _) E.
  rewrite !to_Q_finite in E.
  destruct (Z.compare_spec ex ey) as [->|Hlt|Hgt].
  - pose proof (pow2_pos ey) as Hp.
    destruct (Pos.compare_spec mx my) as [->|Hlt|Hgt]; [reflexivity| |]; exfalso.
    + assert (inject_Z (Zpos mx) * 2 ^ ey < inject_Z (Zpos my) * 2 ^ ey)%Q
        by (apply Qmult_lt_compat_r; [exact Hp | rewrite <- Zlt_Qlt; lia]).
      rewrite E in H. now apply Qlt_irrefl in H.
    + assert (inject_Z (Zpos my) * 2 ^ ey < inject_Z (Zpos mx) * 2 ^ ey)%Q
        by (apply Qmult_lt_compat_r; [exact Hp | rewrite <- Zlt_Qlt; lia]).
      rewrite E in H. now apply Qlt_irrefl in H.
  - exfalso. pose proof (normal_value_lt mx my ex ey Hdx Hdy Hlt) as H.
    rewrite E in H. now apply Qlt_irrefl in H.
  - exfalso. pose proof (normal_value_lt my mx ey ex Hdy Hdx Hgt) as H.
    rewrite E in H. now apply Qlt_irrefl in H.
Qed.

(** On normal numbers [Math.min] does not depend on the order of its
    arguments. *)
Lemma Math_min_comm (lo hi : Z) (x y : Num.number) :
  normal_between lo hi x -> normal_between lo hi y ->
  Num.Math_min x y = Num.Math_min y x.
Proof.
  intros Hx Hy. unfold Num.Math_min.
  rewrite (compare_normal _ _ _ _ _ _ Hx Hy), (compare_normal _ _ _ _ _ _ Hy Hx).
  rewrite <- (Qcompare_antisym (Num.to_Q x) (Num.to_Q y)).
  destruct (Qcompare_spec (Num.to_Q x) (Num.to_Q y)) as [E|L|G]; cbn [CompOpp];
    try reflexivity.
  pose proof (normal_value_inj _ _ _ _ _ _ Hx Hy E) as ->.
  reflexivity.
Qed.

(** X8. Swapping the two natural dimensions swaps the two planned ones: the
    planner treats width and height alike. *)
Theorem plan_symmetric (w h : Z) :
  0 < w < 2 ^ 32 -> 0 < h < 2 ^ 32 ->
  let r := calculateTargetSize (Num.of_Z w) (Num.of_Z h) MAX_DIMENSION in
  calculateTargetSize (Num.of_Z h) (Num.of_Z w) MAX_DIMENSION
    = {| width := height r; height := width r |}.
Proof.
  intros Hw Hh r. subst r. unfold calculateTargetSize.
  destruct (quotient_bounds w Hw) as (Nw & _).
  destruct (quotient_bounds h Hh) as (Nh & _).
  rewrite (Math_min_comm _ _ _ _ Nh Nw).
  rewrite (andb_comm (Num.leb (Num.of_Z h) MAX_DIMENSION)).
  destruct (Num.leb (Num.of_Z w) MAX_DIMENSION && Num.leb (Num.of_Z h) MAX_DIMENSION)%bool;
    reflexivity.
Qed.

Lemma plan_symmetric_witness :
  let r := calculateTargetSize (Num.of_Z 8000) (Num.of_Z 4000) MAX_DIMENSION in
  calculateTargetSize (Num.of_Z 4000) (Num.of_Z 8000) MAX_DIMENSION
    = {| width := height r; height := width r |}.
Proof.
  apply (plan_symmetric 8000 4000); simpl; lia.
Defined.

(** ** The canvas *)

(** A natural number below [2^32] survives the conversion to a number and
    back to an [unsigned long]. *)
Lemma ToUint32_of_Z (n : Z) :
  0 <= n < 2 ^ 32 -> Num.ToUint32 (Num.of_Z n) = n.
Proof.
  intros Hn. destruct (Z.eq_dec n 0) as [->|Hn0]; [reflexivity|].
  assert (Hn53 : 0 < n < 2 ^ 53) by (change (2 ^ 32) with 4294967296 in Hn;
                                     change (2 ^ 53) with 9007199254740992; lia).
  destruct (of_Z_normal n Hn53) as (m & e & -> & _ & He & Hm).
  unfold Num.ToUint32. cbn [cond_Zopp].
  assert (HP : 0 < 2 ^ (- e)) by (apply Z.pow_pos_nonneg; lia).
  destruct (Z.leb_spec 0 e).
  - assert (e = 0) by lia. subst e. change (2 ^ (- 0)) with 1 in Hm.
    change (2 ^ 0) with 1. rewrite Hm, !Z.mul_1_r. apply Z.mod_small. lia.
  - rewrite Hm, Z.div_mul by lia. apply Z.mod_small. lia.
Qed.

(** X9. The canvas on which a loaded image is drawn: never more than 4096
    pixels on a side, never less than 1, never larger than the image, and of
    the size of the image when that fits. *)
Theorem canvas_is_bounded (img : Image) :
  0 < naturalWidth img < 2 ^ 32 -> 0 < naturalHeight img < 2 ^ 32 ->
  exists cw ch,
    Encoder.canvas (Encoder.call (Some img) None)
      = Some (Encoder.mkCanvas cw ch (Encoder.Painted img)) /\
    1 <= cw <= 4096 /\ 1 <= ch <= 4096 /\
    cw <= naturalWidth img /\ ch <= naturalHeight img /\
    (Z.max (naturalWidth img) (naturalHeight img) <= 4096 ->
     cw = naturalWidth img /\ ch = naturalHeight img).
Proof.
  intros Hw Hh. unfold Encoder.call.
  destruct (Z.eqb_spec (naturalWidth img) 0) as [E|_]; [lia|].
  destruct (Z_le_gt_dec (Z.max (naturalWidth img) (naturalHeight img)) 4096)
    as [Hsmall | Hbig].
  - rewrite (plan_small (naturalWidth img) (naturalHeight img)) by lia.
    cbn -[Num.ToUint32 Num.of_Z].
    rewrite !ToUint32_of_Z by (change (2 ^ 32) with 4294967296; lia).
    eexists _, _. split; [reflexivity|]. lia.
  - destruct (plan_large (naturalWidth img) (naturalHeight img) Hw Hh ltac:(lia))
      as (kw & kh & Hkw & Hkh & -> & Bw & Bh).
    cbn -[Num.ToUint32 Num.of_Z Z.max].
    assert (kw <= 4096) by nia. assert (kh <= 4096) by nia.
    assert (kw < naturalWidth img) by nia.
    assert (kh < naturalHeight img) by nia.
    rewrite !ToUint32_of_Z by (change (2 ^ 32) with 4294967296; lia).
    eexists _, _. split; [reflexivity|]. lia.
Qed.

Lemma canvas_is_bounded_witness :
  exists cw ch,
    Encoder.canvas (Encoder.call (Some (mkImage 8000 4000)) None)
      = Some (Encoder.mkCanvas cw ch (Encoder.Painted (mkImage 8000 4000))) /\
    1 <= cw <= 4096 /\ 1 <= ch <= 4096 /\
    cw <= 8000 /\ ch <= 4000 /\
    (Z.max 8000 4000 <= 4096 -> cw = 8000 /\ ch = 4000).
Proof.
  apply (canvas_is_bounded (mkImage 8000 4000)); simpl; lia.
Defined.

(** X10. An image that is missing or has no natural width is refused before
    any canvas exists: the promise is rejected with the invalid-image
    message, nothing is drawn and [toBlob] is not called, whatever the
    encoder would have done. *)
Theorem invalid_image_is_refused
    (imgElement : option Image) (env : Encoder.toBlobBehaviour) :
  (forall img, imgElement = Some img -> naturalWidth img = 0) ->
  let s := Encoder.convertImageToPng imgElement env in
  Encoder.outer s = Some (Encoder.Rejected "Invalid image for conversion.") /\
  Encoder.canvas s = None /\
  Encoder.inner s = None /\
  Encoder.log s
    = [Encoder.OuterSettle (Encoder.Rejected "Invalid image for conversion.")].
Proof.
  intros Hbad. unfold Encoder.convertImageToPng, Encoder.call.
  destruct imgElement as [img|].
  - rewrite (Hbad img eq_refl). destruct env; repeat split.
  - destruct env; repeat split.
Qed.

Lemma invalid_image_is_refused_witness :
  let s := Encoder.convertImageToPng (Some (mkImage 0 0))
             (Encoder.CallsBack (Some (mkBlob "image/png" 1))) in
  Encoder.outer s = Some (Encoder.Rejected "Invalid image for conversion.") /\
  Encoder.canvas s = None /\
  Encoder.inner s = None /\
  Encoder.log s
    = [Encoder.OuterSettle (Encoder.Rejected "Invalid image for conversion.")].
Proof.
  apply (invalid_image_is_refused (Some (mkImage 0 0))
           (Encoder.CallsBack (Some (mkBlob "image/png" 1)))).
  intros img E. injection E as <-. reflexivity.
Defined.

(** ** The image loader: the first callback decides *)

(** A settled promise keeps its settlement. *)
Lemma loader_promise_kept (c : Loader.settlement) (s : Loader.state)
    (ev : Loader.event) :
  Loader.promise s = Some c -> Loader.promise (Loader.step s ev) = Some c.
Proof.
  intros H. destruct ev; unfold Loader.step, Loader.onload, Loader.onerror.
  - destruct (Loader.timerPending s); [cbn; now rewrite H | exact H].
  - destruct (Loader.timedOut s); [exact H | cbn; now rewrite H].
  - destruct (Loader.timedOut s); [exact H | cbn; now rewrite H].
Qed.

Lemma loader_revocations_grow (s : Loader.state) (ev : Loader.event) :
  (Loader.revocations s <= Loader.revocations (Loader.step s ev))%nat.
Proof.
  destruct ev; unfold Loader.step, Loader.onload, Loader.onerror.
  - destruct (Loader.timerPending s); cbn; lia.
  - destruct (Loader.timedOut s); cbn; lia.
  - destruct (Loader.timedOut s); cbn; lia.
Qed.

Lemma loader_run_kept (c : Loader.settlement) (evs : list Loader.event)
    (s : Loader.state) :
  Loader.promise s = Some c ->
  Loader.promise (Loader.run evs s) = Some c /\
  (Loader.revocations s <= Loader.revocations (Loader.run evs s))%nat.
Proof.
  revert s. induction evs as [|ev evs IH]; intros s H;
    [split; [exact H | apply Nat.le_refl]|].
  unfold Loader.run in *. cbn [fold_left].
  destruct (IH (Loader.step s ev) (loader_promise_kept c s ev H)) as [Hp Hr].
  split; [exact Hp|]. pose proof (loader_revocations_grow s ev). lia.
Qed.

(** The settlement after a first callback and any later ones. *)
Lemma loader_first_promise (ev : Loader.event) (late : list Loader.event) :
  Loader.promise (Loader.run (ev :: late) Loader.start)
    = Some match ev with
           | Loader.TimerFires => Loader.Rejected "Image load timed out."
           | Loader.ImgLoad img => Loader.Resolved img
           | Loader.ImgError => Loader.Rejected "Failed to read image data."
           end.
Proof.
  unfold Loader.run. cbn [fold_left].
  change (fold_left Loader.step late (Loader.step Loader.start ev))
    with (Loader.run late (Loader.step Loader.start ev)).
  destruct ev as [|img|]; now apply loader_run_kept.
Qed.

(** X11. First writer wins: whatever callback the browser runs first (the
    timer, a load or an error) settles the promise, with the time-out error,
    the image or the read error; nothing that happens later changes the
    settlement, and the temporary URL has been revoked. *)
Theorem loader_first_event_decides (ev : Loader.event) (late : list Loader.event) :
  let s := Loader.run (ev :: late) Loader.start in
  Loader.promise s
    = Some match ev with
           | Loader.TimerFires => Loader.Rejected "Image load timed out."
           | Loader.ImgLoad img => Loader.Resolved img
           | Loader.ImgError => Loader.Rejected "Failed to read image data."
           end /\
  (1 <= Loader.revocations s)%nat.
Proof.
  cbv zeta. unfold Loader.run. cbn [fold_left].
  change (fold_left Loader.step late (Loader.step Loader.start ev))
    with (Loader.run late (Loader.step Loader.start ev)).
  destruct ev as [|img|].
  - exact (loader_run_kept (Loader.Rejected "Image load timed out.") late
             (Loader.step Loader.start Loader.TimerFires) eq_refl).
  - exact (loader_run_kept (Loader.Resolved img) late
             (Loader.step Loader.start (Loader.ImgLoad img)) eq_refl).
  - exact (loader_run_kept (Loader.Rejected "Failed to read image data.") late
             (Loader.step Loader.start Loader.ImgError) eq_refl).
Qed.

Lemma disarmed_step (s : Loader.state) (ev : Loader.event) :
  disarmed s -> disarmed (Loader.step s ev).
Proof.
  intros (Ht & Hf & Hc).
  destruct ev; unfold Loader.step, Loader.onload, Loader.onerror.
  - rewrite Ht. now split.
  - rewrite Hf. repeat split; try assumption. cbn. rewrite in_app_iff.
    intros [H | [H | []]]; [now apply Hc | discriminate].
  - rewrite Hf. repeat split; try assumption. cbn. rewrite in_app_iff.
    intros [H | [H | []]]; [now apply Hc | discriminate].
Qed.

Lemma disarmed_run (evs : list Loader.event) (s : Loader.state) :
  disarmed s -> disarmed (Loader.run evs s).
Proof.
  revert s. induction evs as [|ev evs IH]; intros s H; [exact H|].
  unfold Loader.run in *. cbn [fold_left]. apply IH. now apply disarmed_step.
Qed.

(** X12. [clearTimeout] is effective: when the image loads, or fails to,
    before the timer fires, the promise is never rejected for a time-out,
    whatever happens afterwards, a late firing of the timer included. *)
Theorem loader_no_timeout_after_decode (ev : Loader.event) (late : list Loader.event) :
  ev <> Loader.TimerFires ->
  let s := Loader.run (ev :: late) Loader.start in
  ~ In (Loader.Rejected "Image load timed out.") (Loader.calls s) /\
  Loader.timedOut s = false.
Proof.
  intros Hev. cbv zeta. unfold Loader.run. cbn [fold_left].
  change (fold_left Loader.step late (Loader.step Loader.start ev))
    with (Loader.run late (Loader.step Loader.start ev)).
  assert (H : disarmed (Loader.step Loader.start ev)).
  { destruct ev; [contradiction| |]; repeat split; cbn;
      intros [H | []]; discriminate. }
  destruct (disarmed_run late _ H) as (_ & Hf & Hc). now split.
Qed.

Lemma loader_no_timeout_after_decode_witness :
  let s := Loader.run [Loader.ImgLoad (mkImage 3000 2000); Loader.TimerFires;
                       Loader.ImgError] Loader.start in
  ~ In (Loader.Rejected "Image load timed out.") (Loader.calls s) /\
  Loader.timedOut s = false.
Proof.
  apply (loader_no_timeout_after_decode (Loader.ImgLoad (mkImage 3000 2000))
           [Loader.TimerFires; Loader.ImgError]).
  discriminate.
Defined.

(** ** The convert flow *)

Lemma errorText_nonempty (m : string) : m <> "" -> errorText m = m.
Proof.
  intros H. unfold errorText. destruct (String.eqb_spec m ""); congruence.
Qed.

(** X13. What a conversion can end with: the blob that [toBlob] delivered,
    or an error whose message is one of the four messages of the script or
    the message of the exception that [toBlob] raised. *)
Theorem pipeline_outcomes (preview : option Image) (decode : list Loader.event)
    (env : Encoder.toBlobBehaviour) (r : Encoder.outcome) :
  pipeline preview decode env = Some r ->
  match r with
  | Encoder.Fulfilled blob => env = Encoder.CallsBack (Some blob)
  | Encoder.Rejected m => In m pipelineMessages \/ env = Encoder.Throws m
  end.
Proof.
  unfold pipeline.
  assert (Hconv : forall img,
    Encoder.outer (Encoder.convertImageToPng (Some img) env) = Some r ->
    match r with
    | Encoder.Fulfilled blob => env = Encoder.CallsBack (Some blob)
    | Encoder.Rejected m => In m pipelineMessages \/ env = Encoder.Throws m
    end).
  { intros img. destruct (Z.eq_dec (naturalWidth img) 0) as [E0|Hne].
    - unfold Encoder.convertImageToPng, Encoder.call. rewrite E0.
      destruct env; cbn; intros [= <-]; left; cbn; tauto.
    - destruct (convertImageToPng_final img Hne env) as (_ & -> & _).
      intros [= <-]. destruct env as [err|[blob|]]; cbn; tauto. }
  destruct preview as [img|]; cbn [acquire]; [apply Hconv|].
  destruct decode as [|ev late]; [discriminate|].
  pose proof (loader_first_promise ev late) as Hfirst.
  destruct ev as [|img|]; rewrite Hfirst.
  - intros [= <-]. left. cbn. tauto.
  - apply Hconv.
  - intros [= <-]. left. cbn. tauto.
Qed.

Lemma pipeline_outcomes_witness :
  In "Image load timed out." pipelineMessages \/
  Encoder.CallsBack None = Encoder.Throws "Image load timed out.".
Proof.
  apply (pipeline_outcomes None [Loader.TimerFires] (Encoder.CallsBack None)
           (Encoder.Rejected "Image load timed out.")).
  reflexivity.
Defined.

(** X14. A conversion that fails leaves the selection for a retry: the
    message of the error is displayed (a fixed text if it is empty), the
    selected file, its preview and the object URLs are as they were, the
    loader is hidden and both buttons are enabled again; nothing is saved
    and no timer is armed. *)
Theorem failed_conversion_keeps_selection
    (typeError m : string) (f : File) (p : page) :
  currentFile (dom p) = Some f ->
  let p' := onConvertClicked_settle typeError (Encoder.Rejected m) p in
  errorMsg_textContent (dom p') = errorText m /\
  same_urls (dom p) (dom p') /\
  previewImg_src (dom p') = previewImg_src (dom p) /\
  previewWrap_hidden (dom p') = previewWrap_hidden (dom p) /\
  convertBtn_disabled (dom p') = false /\
  resetBtn_disabled (dom p') = false /\
  loader_hidden (dom p') = true /\
  clicks p' = clicks p /\ timers p' = timers p /\ bodyAnchors p' = bodyAnchors p.
Proof.
  intros Hf. destruct p as [s b c t d l]. cbn [dom] in Hf.
  destruct s. cbn in Hf. subst. cbn.
  unfold errorText, same_urls. destruct (String.eqb m ""); cbn;
    repeat split; apply or_empty_id.
Qed.

Lemma failed_conversion_keeps_selection_witness :
  let p := mkPage readyPage [] [] [] false [] in
  let p' := onConvertClicked_settle "" (Encoder.Rejected "Failed to read image data.") p in
  errorMsg_textContent (dom p') = errorText "Failed to read image data." /\
  same_urls (dom p) (dom p') /\
  previewImg_src (dom p') = previewImg_src (dom p) /\
  previewWrap_hidden (dom p') = previewWrap_hidden (dom p) /\
  convertBtn_disabled (dom p') = false /\
  resetBtn_disabled (dom p') = false /\
  loader_hidden (dom p') = true /\
  clicks p' = clicks p /\ timers p' = timers p /\ bodyAnchors p' = bodyAnchors p.
Proof.
  apply (failed_conversion_keeps_selection "" "Failed to read image data."
           (mkFile "photo.JPG" "image/jpeg" 500000)
           (mkPage readyPage [] [] [] false [])).
  reflexivity.
Defined.



(** X16. A conversion that succeeds, to its end.  With a file selected and
    no download under way, the blob is saved once, under the name of the
    file with its extension replaced by .png; until the reset timer fires
    the file stays selected with the convert button enabled; when the two
    timers have fired (the removal of the anchor after 250 ms, the reset
    after 400 ms) the page is empty and reads "Downloaded ✓", the anchor is
    gone and no object URL is left. *)
Theorem successful_conversion
    (typeError : string) (blob : Blob) (f : File) (p : page) :
  currentFile (dom p) = Some f ->
  timers p = [] -> bodyAnchors p = [] ->
  objectUrls (dom p) = previewUrls (dom p) ->
  let a := mkAnchor (blobUrl (urlCounter (dom p))) (outName (name f)) in
  let p1 := onConvertClicked_settle typeError (Encoder.Fulfilled blob) p in
  let p3 := run [TimerFires 0; TimerFires 0] p1 in
  clicks p1 = (clicks p ++ [(a, blob)])%list /\
  timers p1 = [RemoveAnchor a; ResetAfterDownload] /\
  currentFile (dom p1) = Some f /\
  convertBtn_disabled (dom p1) = false /\
  Empty (dom p3) /\
  fileInfo_textContent (dom p3) = "Downloaded ✓" /\
  bodyAnchors p3 = [] /\ timers p3 = [] /\ clicks p3 = clicks p1 /\
  objectUrls (dom p3) = ∅.
Proof.
  intros Hf Ht Hb Hu. destruct p as [s b c t d l]. cbn [dom timers bodyAnchors] in *.
  subst t b. unfold previewUrls in Hu.
  destruct s as [[url|] ? ? ? ? ? ? ? ? ? ? ? ? ? ? ? ? ?]; cbn in Hf, Hu; subst;
    cbn; rewrite decide_True by reflexivity; cbn;
    unfold Empty; cbn; repeat split; try reflexivity;
    apply set_eq; intros x; set_unfold; tauto.
Qed.

Lemma successful_conversion_witness :
  let p := mkPage readyPage [] [] [] false [] in
  let a := mkAnchor (blobUrl (urlCounter (dom p))) (outName "photo.JPG") in
  let p1 := onConvertClicked_settle "" (Encoder.Fulfilled (mkBlob "image/png" 7)) p in
  let p3 := run [TimerFires 0; TimerFires 0] p1 in
  clicks p1 = (clicks p ++ [(a, mkBlob "image/png" 7)])%list /\
  timers p1 = [RemoveAnchor a; ResetAfterDownload] /\
  currentFile (dom p1) = Some (mkFile "photo.JPG" "image/jpeg" 500000) /\
  convertBtn_disabled (dom p1) = false /\
  Empty (dom p3) /\
  fileInfo_textContent (dom p3) = "Downloaded ✓" /\
  bodyAnchors p3 = [] /\ timers p3 = [] /\ clicks p3 = clicks p1 /\
  objectUrls (dom p3) = ∅.
Proof.
  apply (successful_conversion "" (mkBlob "image/png" 7)
           (mkFile "photo.JPG" "image/jpeg" 500000)
           (mkPage readyPage [] [] [] false [])); reflexivity.
Defined.

(** X17. The same file again, through the two entrances.  Dropped on the
    dropzone it changes nothing of the state of the script; chosen in the
    file input it is ignored as well, but the listener of the input has
    cleared the error message first. *)
Theorem duplicate_through_input_clears_error
    (file cur : File) (rest : list File) (p : page) :
  currentFile (dom p) = Some cur ->
  name file = name cur -> size file = size cur ->
  dom (step p (Drop (Some (file :: rest)))) = dom p /\
  dom (step p (Change (Some (file :: rest)))) = clearError (dom p).
Proof.
  intros Hcur Hname Hsize. destruct p as [s b c t d l]. cbn [dom] in Hcur.
  cbn [step onDrop with_dom set_dragover dom]. split.
  - exact (handleFiles_duplicate file cur rest s Hcur Hname Hsize).
  - apply (handleFiles_duplicate file cur rest (clearError s)); try assumption.
    destruct s; exact Hcur.
Qed.

Lemma duplicate_through_input_clears_error_witness :
  let p := mkPage (showError (Some "x") readyPage) [] [] [] false [] in
  let file := mkFile "photo.JPG" "image/jpeg" 500000 in
  dom (step p (Drop (Some [file]))) = dom p /\
  dom (step p (Change (Some [file]))) = clearError (dom p).
Proof.
  apply (duplicate_through_input_clears_error
           (mkFile "photo.JPG" "image/jpeg" 500000)
           (mkFile "photo.JPG" "image/jpeg" 500000) []
           (mkPage (showError (Some "x") readyPage) [] [] [] false []));
    reflexivity.
Defined.

(** ** Object URLs are never lost *)

Lemma blobUrl_inj (k k' : Z) : blobUrl k = blobUrl k' -> k = k'.
Proof.
  unfold blobUrl. intros H. cbn in H. injection H as H.
  exact (pretty_Z_inj _ _ H).
Qed.

Lemma showError_same_urls (m : option string) (s : ui) : same_urls s (showError m s).
Proof. destruct s. repeat split. Qed.

Lemma clearError_same_urls (s : ui) : same_urls s (clearError s).
Proof. destruct s. repeat split. Qed.

Lemma setLoading_same_urls (b : bool) (s : ui) : same_urls s (setLoading b s).
Proof. destruct s as [? [f|] ? ? ? ? ? ? ? ? ? ? ? ? ? ? ? ?], b; repeat split. Qed.

Lemma same_urls_trans (s1 s2 s3 : ui) :
  same_urls s1 s2 -> same_urls s2 s3 -> same_urls s1 s3.
Proof.
  intros (A1 & A2 & A3 & A4) (B1 & B2 & B3 & B4).
  repeat split; congruence.
Qed.

Lemma same_urls_refl (s : ui) : same_urls s s.
Proof. repeat split. Qed.

(** What [resetUI] does to the selection and to the URLs. *)
Lemma resetUI_urls (s : ui) :
  currentObjectUrl (resetUI s) = None /\
  currentFile (resetUI s) = None /\
  objectUrls (resetUI s) = objectUrls s ∖ previewUrls s /\
  urlCounter (resetUI s) = urlCounter s.
Proof.
  unfold previewUrls.
  destruct s as [[url|] ? ? ? ? ? ? ? ? ? ? ? ? ? ? ? ? ?]; cbn;
    repeat split; try reflexivity.
  apply set_eq; intros x; set_unfold; tauto.
Qed.

(** What [handleFiles] does to them: nothing, or, when a file is accepted,
    the preview URL is replaced by a new one. *)
Lemma handleFiles_urls (files : option (list File)) (s : ui) :
  same_urls s (handleFiles files s) \/
  (is_Some (currentFile (handleFiles files s)) /\
   currentObjectUrl (handleFiles files s) = Some (blobUrl (urlCounter s)) /\
   objectUrls (handleFiles files s)
     = {[ blobUrl (urlCounter s) ]} ∪ (objectUrls s ∖ previewUrls s) /\
   urlCounter (handleFiles files s) = urlCounter s + 1).
Proof.
  unfold handleFiles. destruct files as [[|file rest]|]; try (left; apply same_urls_refl).
  destruct (sameAsCurrent file s); [left; apply same_urls_refl|].
  destruct (ok (validateFile (Some file))); cbn [negb].
  - right. unfold previewUrls, showPreview, cleanupPreview, createObjectURL, blobUrl.
    destruct s as [[url|] ? ? ? ? ? ? ? ? ? ? ? ? ? ? ? ? ?]; cbn;
      (split; [eexists; reflexivity|]); repeat split; try reflexivity;
      apply set_eq; intros x; set_unfold; tauto.
  - left. apply showError_same_urls.
Qed.

Lemma revokeObjectURL_urls (u : string) (s : ui) :
  currentObjectUrl (revokeObjectURL u s) = currentObjectUrl s /\
  currentFile (revokeObjectURL u s) = currentFile s /\
  objectUrls (revokeObjectURL u s) = objectUrls s ∖ {[ u ]} /\
  urlCounter (revokeObjectURL u s) = urlCounter s.
Proof. destruct s. repeat split. Qed.

Lemma createObjectURL_urls (s : ui) :
  fst (createObjectURL s) = blobUrl (urlCounter s) /\
  currentObjectUrl (snd (createObjectURL s)) = currentObjectUrl s /\
  currentFile (snd (createObjectURL s)) = currentFile s /\
  objectUrls (snd (createObjectURL s)) = {[ blobUrl (urlCounter s) ]} ∪ objectUrls s /\
  urlCounter (snd (createObjectURL s)) = urlCounter s + 1.
Proof. destruct s. repeat split. Qed.

(** *** Lists of timers, anchors and closures *)

Lemma removeChild_Permutation (a : Anchor) (l : list Anchor) :
  a ∈ l -> l ≡ₚ a :: removeChild a l.
Proof.
  induction l as [|x l IH]; intros Hin; [now apply elem_of_nil in Hin|].
  cbn [removeChild]. destruct (decide (x = a)) as [->|Hne]; [reflexivity|].
  apply elem_of_cons in Hin as [->|Hin]; [contradiction|].
  rewrite (IH Hin) at 1. apply Permutation_swap.
Qed.

Lemma clearTimeout_Permutation (t : timer) (ts : list timer) :
  t ∈ ts -> ts ≡ₚ t :: clearTimeout t ts.
Proof.
  induction ts as [|x ts IH]; intros Hin; [now apply elem_of_nil in Hin|].
  cbn [clearTimeout]. destruct (decide (x = t)) as [->|Hne]; [reflexivity|].
  apply elem_of_cons in Hin as [->|Hin]; [contradiction|].
  rewrite (IH Hin) at 1. apply Permutation_swap.
Qed.

Lemma clearTimeout_absent (t : timer) (ts : list timer) :
  t ∉ ts -> clearTimeout t ts = ts.
Proof.
  induction ts as [|x ts IH]; intros Hin; [reflexivity|].
  cbn [clearTimeout]. apply not_elem_of_cons in Hin as [Hne Hin].
  destruct (decide (x = t)) as [->|_]; [contradiction|]. now rewrite IH.
Qed.

Lemma pendingAnchors_snoc (ts : list timer) (t : timer) :
  pendingAnchors (ts ++ [t])
    = (pendingAnchors ts
         ++ match t with RemoveAnchor a => [a] | _ => [] end)%list.
Proof. unfold pendingAnchors. rewrite omap_app. now destruct t. Qed.

Lemma pendingLoads_snoc (ts : list timer) (t : timer) :
  pendingLoads (ts ++ [t])
    = (pendingLoads ts
         ++ match t with LoadTimeout u => [u] | _ => [] end)%list.
Proof. unfold pendingLoads. rewrite omap_app. now destruct t. Qed.

Lemma pendingAnchors_cons (ts ts' : list timer) (t : timer) :
  ts ≡ₚ t :: ts' ->
  pendingAnchors ts
    ≡ₚ (match t with RemoveAnchor a => [a] | _ => [] end
          ++ pendingAnchors ts')%list.
Proof.
  intros H. unfold pendingAnchors.
  etransitivity; [apply omap_Permutation, H|]. now destruct t.
Qed.

Lemma pendingLoads_cons (ts ts' : list timer) (t : timer) :
  ts ≡ₚ t :: ts' ->
  pendingLoads ts
    ≡ₚ (match t with LoadTimeout u => [u] | _ => [] end
          ++ pendingLoads ts')%list.
Proof.
  intros H. unfold pendingLoads.
  etransitivity; [apply omap_Permutation, H|]. now destruct t.
Qed.

Lemma elem_of_pendingLoads (u : string) (ts : list timer) :
  u ∈ pendingLoads ts <-> LoadTimeout u ∈ ts.
Proof.
  unfold pendingLoads. rewrite list_elem_of_omap. split.
  - intros (t & Ht & E). destruct t; try discriminate. now injection E as ->.
  - intros H. now exists (LoadTimeout u).
Qed.

Lemma updateClosure_keys (u : string) (f : Loader.state -> Loader.state)
    (ls : list (string * Loader.state)) :
  fst <$> updateClosure u f ls = fst <$> ls.
Proof.
  unfold updateClosure. induction ls as [|[v st] ls IH]; [reflexivity|].
  cbn [map fmap list_fmap fst snd]. cbn [fmap] in IH. rewrite IH.
  now destruct (String.eqb v u).
Qed.

Lemma closure_key (u : string) (ls : list (string * Loader.state)) :
  is_Some (closure u ls) -> u ∈ (fst <$> ls).
Proof.
  induction ls as [|[v st] ls IH]; cbn [closure]; [intros [? [=]]|].
  cbn [fmap list_fmap fst]. destruct (String.eqb_spec v u) as [->|Hne].
  - intros _. apply elem_of_cons. now left.
  - intros H. apply elem_of_cons. right. exact (IH H).
Qed.

(** *** What keeps a page consistent *)

Section Consistency.
Variable p : page.
Hypothesis Hp : consistent p.

(** A URL of the store was numbered below the counter: the next URL is
    new. *)
Lemma next_url_fresh : blobUrl (urlCounter (dom p)) ∉ objectUrls (dom p).
Proof.
  intros Hin. destruct (urls_numbered p Hp _ Hin) as (k & Hk & E).
  apply blobUrl_inj in E. lia.
Qed.

Lemma timed_urls_live (u : string) : u ∈ timedUrls p -> u ∈ objectUrls (dom p).
Proof.
  intros Hu. rewrite (urls_accounted p Hp).
  apply elem_of_union_r, elem_of_list_to_set, Hu.
Qed.

Lemma preview_url_live (u : string) :
  currentObjectUrl (dom p) = Some u -> u ∈ objectUrls (dom p).
Proof.
  intros Hu. rewrite (urls_accounted p Hp). unfold previewUrls. rewrite Hu.
  apply elem_of_union_l, elem_of_singleton. reflexivity.
Qed.

(** A page that agrees on the selection, on the URLs and on what awaits a
    timer is as good. *)
Lemma consistent_same_urls (p' : page) :
  same_urls (dom p) (dom p') ->
  bodyAnchors p' = bodyAnchors p ->
  pendingAnchors (timers p') ≡ₚ pendingAnchors (timers p) ->
  pendingLoads (timers p') ≡ₚ pendingLoads (timers p) ->
  fst <$> loaders p' = fst <$> loaders p ->
  consistent p'.
Proof.
  intros (E1 & E2 & E3 & E4) Eb Ea El Ek.
  assert (Et : timedUrls p' ≡ₚ timedUrls p).
  { unfold timedUrls. now rewrite Eb, El. }
  destruct Hp as [H1 H2 H3 H4 H5 H6 H7 H8].
  constructor; unfold previewUrls in *; rewrite ?E1, ?E2, ?E3, ?E4, ?Ek.
  - exact H1.
  - exact H2.
  - rewrite (list_to_set_perm_L _ _ Et). exact H3.
  - now rewrite Et.
  - intros u Hu. rewrite Et. now apply H5.
  - intros u Hk Hu. rewrite El. now apply H6.
  - now rewrite Eb, Ea.
  - exact H8.
Qed.

(** After a reset. *)
Lemma consistent_reset (p' : page) :
  currentObjectUrl (dom p') = None -> currentFile (dom p') = None ->
  objectUrls (dom p') = objectUrls (dom p) ∖ previewUrls (dom p) ->
  urlCounter (dom p') = urlCounter (dom p) ->
  bodyAnchors p' = bodyAnchors p -> timers p' = timers p ->
  loaders p' = loaders p ->
  consistent p'.
Proof.
  intros E1 E2 E3 E4 Eb Et El.
  assert (Etu : timedUrls p' = timedUrls p) by (unfold timedUrls; now rewrite Eb, Et).
  destruct Hp as [H1 H2 H3 H4 H5 H6 H7 H8].
  constructor; unfold previewUrls in *;
    rewrite ?E1, ?E2, ?E3, ?E4, ?Eb, ?Et, ?El, ?Etu; try assumption.
  - intros u Hu. apply H1. now apply elem_of_difference in Hu as [Hu _].
  - rewrite H3. destruct (currentObjectUrl (dom p)) as [v|].
    + specialize (H5 v eq_refl). apply set_eq; intros x; set_unfold.
      split; [tauto|]. intros [[]|Hx]. split; [now right|].
      intros ->. now apply H5.
    + apply set_eq; intros x; set_unfold; tauto.
  - discriminate.
  - intros u Hk Hu. apply H6; [exact Hk|].
    now apply elem_of_difference in Hu as [Hu _].
  - split; intros [? [=]].
Qed.

(** After a file has been accepted. *)
Lemma consistent_select (p' : page) :
  is_Some (currentFile (dom p')) ->
  currentObjectUrl (dom p') = Some (blobUrl (urlCounter (dom p))) ->
  objectUrls (dom p')
    = {[ blobUrl (urlCounter (dom p)) ]} ∪ (objectUrls (dom p) ∖ previewUrls (dom p)) ->
  urlCounter (dom p') = urlCounter (dom p) + 1 ->
  bodyAnchors p' = bodyAnchors p -> timers p' = timers p ->
  loaders p' = loaders p ->
  consistent p'.
Proof.
  intros E2 E1 E3 E4 Eb Et El. pose proof next_url_fresh as Hfresh.
  pose proof timed_urls_live as Hlive.
  assert (Etu : timedUrls p' = timedUrls p) by (unfold timedUrls; now rewrite Eb, Et).
  destruct Hp as [H1 H2 H3 H4 H5 H6 H7 H8].
  constructor; unfold previewUrls in *;
    rewrite ?E1, ?E3, ?E4, ?Eb, ?Et, ?El, ?Etu; try assumption.
  - intros u Hu. apply elem_of_union in Hu as [Hu | Hu].
    + apply elem_of_singleton in Hu as ->. exists (urlCounter (dom p)).
      split; [lia | reflexivity].
    + apply elem_of_difference in Hu as [Hu _].
      destruct (H1 u Hu) as (k & Hk & ->). exists k. split; [lia | reflexivity].
  - intros u Hu. destruct (H2 u Hu) as (k & Hk & ->).
    exists k. split; [lia | reflexivity].
  - rewrite H3. destruct (currentObjectUrl (dom p)) as [v|].
    + specialize (H5 v eq_refl). apply set_eq; intros x; set_unfold.
      split.
      * intros [->|[[Hx|Hx] Hne]]; [now left | contradiction | now right].
      * intros [->|Hx]; [now left|]. right. split; [now right|].
        intros ->. now apply H5.
    + apply set_eq; intros x; set_unfold; tauto.
  - intros u [= <-] Hin. apply Hfresh, Hlive, Hin.
  - intros u Hk Hu. apply elem_of_union in Hu as [Hu | Hu].
    + apply elem_of_singleton in Hu as ->. destruct (H2 _ Hk) as (k & Hlt & E).
      apply blobUrl_inj in E. lia.
    + apply H6; [exact Hk|]. now apply elem_of_difference in Hu as [Hu _].
  - split; intros _; [exact E2 | eexists; reflexivity].
Qed.

(** A new URL has been registered for something that awaits a timer. *)
Lemma consistent_acquire (p' : page) :
  let f := blobUrl (urlCounter (dom p)) in
  currentObjectUrl (dom p') = currentObjectUrl (dom p) ->
  currentFile (dom p') = currentFile (dom p) ->
  objectUrls (dom p') = {[ f ]} ∪ objectUrls (dom p) ->
  urlCounter (dom p') = urlCounter (dom p) + 1 ->
  timedUrls p' ≡ₚ f :: timedUrls p ->
  bodyAnchors p' ≡ₚ pendingAnchors (timers p') ->
  (forall u, u ∈ (fst <$> loaders p') -> u ∈ (fst <$> loaders p) \/ u = f) ->
  (forall u, u ∈ pendingLoads (timers p) -> u ∈ pendingLoads (timers p')) ->
  (f ∈ (fst <$> loaders p') -> f ∈ pendingLoads (timers p')) ->
  consistent p'.
Proof.
  intros f E1 E2 E3 E4 Et Ea Hkeys Hmono Hf.
  pose proof next_url_fresh as Hfresh. fold f in Hfresh.
  pose proof timed_urls_live as Hlive. pose proof preview_url_live as Hprev.
  destruct Hp as [H1 H2 H3 H4 H5 H6 H7 H8].
  constructor; unfold previewUrls in *; rewrite ?E1, ?E2, ?E3, ?E4.
  - intros u Hu. apply elem_of_union in Hu as [Hu | Hu].
    + apply elem_of_singleton in Hu as ->. exists (urlCounter (dom p)).
      split; [lia | reflexivity].
    + destruct (H1 u Hu) as (k & Hk & ->). exists k. split; [lia | reflexivity].
  - intros u Hu. destruct (Hkeys u Hu) as [Hold | ->].
    + destruct (H2 u Hold) as (k & Hk & ->). exists k. split; [lia | reflexivity].
    + exists (urlCounter (dom p)). split; [lia | reflexivity].
  - rewrite (list_to_set_perm_L _ _ Et), H3.
    apply set_eq; intros x; set_unfold; tauto.
  - rewrite Et. apply NoDup_cons. split; [|exact H4].
    intros Hin. apply Hfresh, Hlive, Hin.
  - intros v Ev. rewrite Et. apply not_elem_of_cons. split; [|now apply H5].
    intros ->. apply Hfresh, Hprev, Ev.
  - intros u Hk Hu. apply elem_of_union in Hu as [Hu | Hu].
    + apply elem_of_singleton in Hu as ->. now apply Hf.
    + destruct (Hkeys u Hk) as [Hold | ->]; [|contradiction].
      now apply Hmono, H6.
  - exact Ea.
  - exact H8.
Qed.

(** The URL [u] of something that awaited a timer has been revoked. *)
Lemma consistent_release (u : string) (p' : page) :
  currentObjectUrl (dom p') = currentObjectUrl (dom p) ->
  currentFile (dom p') = currentFile (dom p) ->
  objectUrls (dom p') = objectUrls (dom p) ∖ {[ u ]} ->
  urlCounter (dom p') = urlCounter (dom p) ->
  timedUrls p ≡ₚ u :: timedUrls p' ->
  bodyAnchors p' ≡ₚ pendingAnchors (timers p') ->
  fst <$> loaders p' = fst <$> loaders p ->
  (forall v, v ∈ pendingLoads (timers p) -> v <> u -> v ∈ pendingLoads (timers p')) ->
  consistent p'.
Proof.
  intros E1 E2 E3 E4 Et Ea Ek Hmono.
  destruct Hp as [H1 H2 H3 H4 H5 H6 H7 H8].
  assert (Hnd : NoDup (u :: timedUrls p')) by (now rewrite <- Et).
  apply NoDup_cons in Hnd as [Hnotin Hnd].
  assert (Hcur : forall v, currentObjectUrl (dom p) = Some v -> v <> u).
  { intros v Ev ->. apply (H5 _ Ev). rewrite Et. apply elem_of_cons. now left. }
  constructor; unfold previewUrls in *; rewrite ?E1, ?E2, ?E3, ?E4, ?Ek.
  - intros v Hv. apply H1. now apply elem_of_difference in Hv as [Hv _].
  - exact H2.
  - rewrite H3, (list_to_set_perm_L _ _ Et).
    destruct (currentObjectUrl (dom p)) as [v|].
    + specialize (Hcur v eq_refl). apply set_eq; intros x; set_unfold.
      split.
      * intros [[->|[->|Hx]] Hne]; [now left | contradiction | now right].
      * intros [->|Hx]; [split; [now left | exact Hcur]|].
        split; [right; now right|]. intros ->. now apply Hnotin.
    + apply set_eq; intros x; set_unfold.
      split.
      * intros [[[]|[->|Hx]] Hne]; [contradiction | now right].
      * intros [[]|Hx]. split; [right; now right|]. intros ->. now apply Hnotin.
  - exact Hnd.
  - intros v Ev Hv. apply (H5 v Ev). rewrite Et. apply elem_of_cons. now right.
  - intros v Hk Hv. apply elem_of_difference in Hv as [Hv Hne].
    apply Hmono; [now apply H6|]. intros ->. apply Hne. now apply elem_of_singleton.
  - exact Ea.
  - exact H8.
Qed.

(** [handleFiles] on a consistent page. *)
Lemma consistent_handleFiles (files : option (list File)) (p' : page) :
  dom p' = handleFiles files (dom p) ->
  bodyAnchors p' = bodyAnchors p -> timers p' = timers p ->
  loaders p' = loaders p ->
  consistent p'.
Proof.
  intros Ed Eb Et El.
  destruct (handleFiles_urls files (dom p)) as [Hs | (A & B & C & D)];
    rewrite <- Ed in *.
  - apply consistent_same_urls; try assumption; now rewrite ?Et, ?El.
  - now apply consistent_select.
Qed.

(** [downloadBlob] registers a new URL for a new anchor that awaits its
    removal. *)
Lemma consistent_download (blob : Blob) (filename : string) :
  consistent (downloadBlob blob filename p).
Proof.
  unfold downloadBlob.
  destruct (createObjectURL_urls (dom p)) as (Eu & E1 & E2 & E3 & E4).
  destruct (createObjectURL (dom p)) as [url s1]. cbn [fst snd] in *. subst url.
  apply consistent_acquire; cbn [dom bodyAnchors timers loaders]; try assumption.
  - unfold timedUrls. cbn [bodyAnchors timers].
    rewrite fmap_app, pendingLoads_snoc, app_nil_r. cbn [fmap list_fmap href].
    rewrite <- app_assoc. rewrite (Permutation_app_comm [_] _), app_assoc.
    symmetry. apply Permutation_cons_append.
  - rewrite pendingAnchors_snoc. now rewrite (anchors_pending p Hp).
  - intros u Hu. now left.
  - intros u Hu. rewrite pendingLoads_snoc, app_nil_r. exact Hu.
  - intros Hf. rewrite pendingLoads_snoc, app_nil_r.
    apply (loaders_released p Hp); [exact Hf|].
    exfalso. destruct (loaders_numbered p Hp _ Hf) as (k & Hk & E).
    apply blobUrl_inj in E. lia.
Qed.

(** [loadImageFromFile] registers a new URL for a load that awaits its
    time-out. *)
Lemma consistent_load : consistent (loadImageFromFile p).
Proof.
  unfold loadImageFromFile.
  destruct (createObjectURL_urls (dom p)) as (Eu & E1 & E2 & E3 & E4).
  destruct (createObjectURL (dom p)) as [url s1]. cbn [fst snd] in *. subst url.
  apply consistent_acquire; cbn [dom bodyAnchors timers loaders]; try assumption.
  - unfold timedUrls. cbn [bodyAnchors timers].
    rewrite pendingLoads_snoc, app_assoc. symmetry. apply Permutation_cons_append.
  - rewrite pendingAnchors_snoc, app_nil_r. exact (anchors_pending p Hp).
  - intros u Hu. rewrite fmap_app in Hu. apply elem_of_app in Hu as [Hu | Hu].
    + now left.
    + right. cbn in Hu. now apply list_elem_of_singleton in Hu.
  - intros u Hu. rewrite pendingLoads_snoc. apply elem_of_app. now left.
  - intros _. rewrite pendingLoads_snoc. apply elem_of_app. right.
    now apply list_elem_of_singleton.
Qed.

(** A timer that releases nothing has been armed or has fired. *)
Lemma consistent_timers (p' : page) :
  dom p' = dom p -> bodyAnchors p' = bodyAnchors p ->
  pendingAnchors (timers p') ≡ₚ pendingAnchors (timers p) ->
  pendingLoads (timers p') ≡ₚ pendingLoads (timers p) ->
  loaders p' = loaders p ->
  consistent p'.
Proof.
  intros Ed Eb Ea El Ek. apply consistent_same_urls; try assumption.
  - rewrite Ed. apply same_urls_refl.
  - now rewrite Ek.
Qed.

(** The timer of an anchor removes it and revokes its URL. *)
Lemma consistent_remove (i : nat) (a : Anchor) :
  timers p !! i = Some (RemoveAnchor a) ->
  consistent
    (timerCallback (RemoveAnchor a)
       (mkPage (dom p) (bodyAnchors p) (clicks p) (delete i (timers p))
               (dragover p) (loaders p))).
Proof.
  intros Hi. pose proof (delete_Permutation _ _ _ Hi) as Hts.
  pose proof (pendingAnchors_cons _ _ _ Hts) as Hpa.
  pose proof (pendingLoads_cons _ _ _ Hts) as Hpl. cbn [app] in Hpa, Hpl.
  assert (Hin : a ∈ bodyAnchors p).
  { rewrite (anchors_pending p Hp), Hpa. apply elem_of_cons. now left. }
  pose proof (removeChild_Permutation a _ Hin) as Hrm.
  destruct (revokeObjectURL_urls (href a) (dom p)) as (E1 & E2 & E3 & E4).
  apply (consistent_release (href a));
    cbn [timerCallback dom bodyAnchors timers loaders]; try assumption.
  - unfold timedUrls. cbn [bodyAnchors timers]. rewrite Hrm at 1.
    now rewrite Hpl.
  - apply (Permutation_cons_inv (a := a)).
    rewrite <- Hrm, (anchors_pending p Hp). exact Hpa.
  - reflexivity.
  - intros v Hv _. now rewrite <- Hpl.
Qed.

(** The time-out of a load revokes its temporary URL, and so does the first
    of [onload] and [onerror] when it comes in time. *)
Lemma consistent_unload (u : string) (p' : page) :
  dom p' = revokeObjectURL u (dom p) ->
  bodyAnchors p' = bodyAnchors p ->
  timers p ≡ₚ LoadTimeout u :: timers p' ->
  fst <$> loaders p' = fst <$> loaders p ->
  consistent p'.
Proof.
  intros Ed Eb Hts Ek.
  pose proof (pendingAnchors_cons _ _ _ Hts) as Hpa.
  pose proof (pendingLoads_cons _ _ _ Hts) as Hpl. cbn [app] in Hpa, Hpl.
  destruct (revokeObjectURL_urls u (dom p)) as (E1 & E2 & E3 & E4).
  apply (consistent_release u); rewrite ?Ed, ?Eb; try assumption.
  - unfold timedUrls. rewrite Eb, Hpl. symmetry. apply Permutation_middle.
  - rewrite (anchors_pending p Hp). exact Hpa.
  - intros v Hv Hne. rewrite Hpl in Hv.
    apply elem_of_cons in Hv as [->|Hv]; [contradiction | exact Hv].
Qed.

(** The callbacks [onload] and [onerror] of a loader. *)
Lemma consistent_imgCallback (u : string) (f : Loader.state -> Loader.state) :
  consistent (imgCallback u f p).
Proof.
  unfold imgCallback. destruct (closure u (loaders p)) as [st|] eqn:Hc; [|exact Hp].
  destruct (Loader.timedOut st); [exact Hp|].
  destruct (decide (LoadTimeout u ∈ timers p)) as [Hin | Hout].
  - apply (consistent_unload u); cbn [dom bodyAnchors timers loaders].
    + reflexivity.
    + reflexivity.
    + now apply clearTimeout_Permutation.
    + apply updateClosure_keys.
  - rewrite (clearTimeout_absent _ _ Hout).
    assert (Hu : u ∉ objectUrls (dom p)).
    { intros Hu. apply Hout, elem_of_pendingLoads.
      apply (loaders_released p Hp); [|exact Hu].
      apply closure_key. rewrite Hc. now eexists. }
    destruct (revokeObjectURL_urls u (dom p)) as (E1 & E2 & E3 & E4).
    apply consistent_same_urls; cbn [dom bodyAnchors timers loaders];
      try reflexivity; [|apply updateClosure_keys].
    repeat split; try assumption. rewrite E3.
    apply set_eq; intros x; set_unfold. split; [tauto|].
    intros Hx. split; [exact Hx|]. now intros ->.
Qed.
End Consistency.

Lemma consistent_initPage : consistent initPage.
Proof.
  constructor; cbn.
  - intros u Hu. now apply elem_of_empty in Hu.
  - intros u Hu. now apply elem_of_nil in Hu.
  - apply set_eq; intros x; set_unfold; tauto.
  - apply NoDup_nil_2.
  - discriminate.
  - intros u Hu. now apply elem_of_nil in Hu.
  - reflexivity.
  - split; intros [? [=]].
Qed.

(** A change of the state of the script that keeps the selection and the
    URLs. *)
Lemma consistent_with_dom (f : ui -> ui) (p : page) :
  consistent p -> same_urls (dom p) (f (dom p)) -> consistent (with_dom f p).
Proof.
  intros Hp Hs. now apply (consistent_same_urls p Hp).
Qed.

(** Every event keeps the page consistent. *)
Lemma consistent_step (p : page) (ev : event) :
  consistent p -> consistent (step p ev).
Proof.
  intros Hp.
  destruct ev as [files| | |files|preview| |u img|u|typeError r|i]; cbn [step].
  - unfold onDrop. destruct files as [[|f fs]|];
      try (apply (consistent_same_urls p Hp); try reflexivity; apply same_urls_refl).
    apply (consistent_same_urls (with_dom (handleFiles (Some (f :: fs))) p));
      try reflexivity; [|apply same_urls_refl].
    now apply (consistent_handleFiles p Hp (Some (f :: fs))).
  - apply (consistent_same_urls p Hp); try reflexivity. apply same_urls_refl.
  - apply (consistent_same_urls p Hp); try reflexivity. apply same_urls_refl.
  - pose proof (consistent_with_dom clearError p Hp (clearError_same_urls _)) as Hc.
    now apply (consistent_handleFiles _ Hc files).
  - destruct (convertBtn_disabled (dom p)); [exact Hp|].
    unfold onConvertClicked_begin. destruct (currentFile (dom p)).
    + assert (Hc : consistent
                (with_dom (fun s => s |> setLoading true |> clearError) p)).
      { apply (consistent_with_dom _ p Hp).
        eapply same_urls_trans; [apply setLoading_same_urls | apply clearError_same_urls]. }
      destruct preview; [exact Hc | now apply consistent_load].
    + apply (consistent_with_dom _ p Hp), showError_same_urls.
  - destruct (resetBtn_disabled (dom p)); [exact Hp|].
    destruct (resetUI_urls (dom p)) as (A & B & C & D).
    now apply (consistent_reset p Hp).
  - now apply consistent_imgCallback.
  - now apply consistent_imgCallback.
  - unfold onConvertClicked_settle.
    assert (Hfail : forall m,
      consistent (p |> with_dom (showError (Some (errorText m)))
                    |> with_dom (setLoading false))).
    { intros m. apply consistent_with_dom; [|apply setLoading_same_urls].
      apply (consistent_with_dom _ p Hp), showError_same_urls. }
    destruct r as [blob | m]; [|apply Hfail].
    destruct (currentFile (dom p)) as [f|]; [|apply Hfail].
    pose proof (consistent_download p Hp blob (outName (name f))) as Hd.
    apply consistent_with_dom; [|apply setLoading_same_urls].
    apply (consistent_timers _ Hd); cbn [setTimeout dom bodyAnchors timers loaders];
      try reflexivity.
    + now rewrite pendingAnchors_snoc, app_nil_r.
    + now rewrite pendingLoads_snoc, app_nil_r.
  - destruct (timers p !! i) as [[a| |u]|] eqn:Hi; [| | |exact Hp].
    + now apply consistent_remove.
    + pose proof (delete_Permutation _ _ _ Hi) as Hts.
      pose proof (pendingAnchors_cons _ _ _ Hts) as Hpa.
      pose proof (pendingLoads_cons _ _ _ Hts) as Hpl. cbn [app] in Hpa, Hpl.
      assert (Ht : consistent
                (mkPage (dom p) (bodyAnchors p) (clicks p) (delete i (timers p))
                        (dragover p) (loaders p)))
        by (apply (consistent_timers p Hp); try reflexivity; now symmetry).
      destruct (resetUI_urls (dom p)) as (A & B & C & D).
      assert (Hs : same_urls (resetUI (dom p))
                     (set_fileInfo_textContent "Downloaded ✓" (resetUI (dom p))))
        by (destruct (resetUI (dom p)); repeat split).
      destruct Hs as (S1 & S2 & S3 & S4).
      apply (consistent_reset _ Ht);
        cbn [timerCallback with_dom dom bodyAnchors timers loaders];
        try reflexivity; congruence.
    + apply (consistent_unload p Hp u); cbn [timerCallback dom bodyAnchors timers loaders].
      * reflexivity.
      * reflexivity.
      * now apply delete_Permutation.
      * apply updateClosure_keys.
Qed.

Lemma consistent_run (evs : list event) (p : page) :
  consistent p -> consistent (run evs p).
Proof.
  unfold run. revert p. induction evs as [|ev evs IH]; intros p Hp; [exact Hp|].
  cbn [fold_left]. apply IH. now apply consistent_step.
Qed.

(** X18. No object URL is ever lost.  After any sequence of drops, choices in
    the file input, clicks, images that load or fail to, conversions that end
    and timers that fire, in any order: the registered object URLs are
    exactly the URL of the preview, if one is shown, one URL for each
    download anchor still in the body and the temporary URL of each load
    whose time-out is still armed, all distinct; the temporary URL of a load
    is not registered once its time-out is disarmed; every anchor in the body
    has its removal timer armed; and a preview URL is held exactly when a
    file is selected. *)
Theorem object_urls_accounted (evs : list event) : consistent (run evs initPage).
Proof.
  apply consistent_run. exact consistent_initPage.
Qed.

(** X19. When the page has come to rest, with no file selected and no timer
    armed, no object URL is registered and the body holds no anchor. *)
Theorem no_url_left_at_rest (evs : list event) :
  let p := run evs initPage in
  currentFile (dom p) = None -> timers p = [] ->
  objectUrls (dom p) = ∅ /\ bodyAnchors p = [].
Proof.
  intros p Hfile Htimers.
  destruct (consistent_run evs initPage consistent_initPage)
    as [H1 H2 H3 H4 H5 H6 H7 H8].
  fold p in H3, H7, H8. unfold timedUrls in H3. fold p in H3.
  rewrite Htimers in H3, H7. apply Permutation_nil_r in H7.
  destruct (currentObjectUrl (dom p)) as [v|] eqn:Ev.
  - destruct (proj1 H8) as [f Hf]; [now exists v | congruence].
  - split; [|exact H7]. rewrite H3, H7. unfold previewUrls. rewrite Ev.
    apply set_eq; intros x; set_unfold; tauto.
Qed.

Lemma no_url_left_at_rest_witness :
  let p := run [Drop (Some [mkFile "photo.JPG" "image/jpeg" 500000]);
                ClickConvert None;
                Decoded "blob:1" (mkImage 3000 2000);
                Settled "" (Encoder.Fulfilled (mkBlob "image/png" 7));
                TimerFires 0; TimerFires 0] initPage in
  objectUrls (dom p) = ∅ /\ bodyAnchors p = [].
Proof.
  apply (no_url_left_at_rest
           [Drop (Some [mkFile "photo.JPG" "image/jpeg" 500000]);
            ClickConvert None;
            Decoded "blob:1" (mkImage 3000 2000);
            Settled "" (Encoder.Fulfilled (mkBlob "image/png" 7));
            TimerFires 0; TimerFires 0]); reflexivity.
Defined.

(** X4. A file that passes validation and is not the current selection
    becomes the selection, whatever was on the page: its preview is shown
    under the next object URL, which is registered, with its name and
    formatted size, the error is cleared and the convert button is enabled.
    On every page that the events can lead to, that URL is new: it was not
    registered before. *)
Theorem handleFiles_accepts (file : File) (rest : list File) (s : ui) :
  ok (validateFile (Some file)) = true ->
  sameAsCurrent file s = false ->
  let s' := handleFiles (Some (file :: rest)) s in
  Ready file s' /\
  currentObjectUrl s' = Some (blobUrl (urlCounter s)) /\
  (forall evs, s = dom (run evs initPage) ->
               blobUrl (urlCounter s) ∉ objectUrls s).
Proof.
  intros Hok Hdiff s'.
  destruct (handleFiles_Ready file rest s Hok Hdiff) as [HR Hu].
  split; [exact HR|]. split; [exact Hu|].
  intros evs ->.
  exact (next_url_fresh _ (consistent_run evs initPage consistent_initPage)).
Qed.

Lemma handleFiles_accepts_witness :
  let s := dom (run [Drop (Some [mkFile "photo.JPG" "image/jpeg" 500000]);
                     ClickConvert None] initPage) in
  let s' := handleFiles (Some [mkFile "other.jpeg" "image/jpeg" 42]) s in
  Ready (mkFile "other.jpeg" "image/jpeg" 42) s' /\
  currentObjectUrl s' = Some "blob:2" /\
  "blob:2" ∉ objectUrls s.
Proof.
  destruct (handleFiles_accepts (mkFile "other.jpeg" "image/jpeg" 42) []
              (dom (run [Drop (Some [mkFile "photo.JPG" "image/jpeg" 500000]);
                         ClickConvert None] initPage))
              eq_refl eq_refl) as (HR & Hu & Hnew).
  split; [exact HR|]. split; [exact Hu|].
  exact (Hnew [Drop (Some [mkFile "photo.JPG" "image/jpeg" 500000]);
               ClickConvert None] eq_refl).
Defined.

(** X20. A preview that is superseded is released: on any page the events
    can lead to, when a new file is accepted the object URL of the former
    preview is revoked, and the URL of the new preview is registered. *)
Theorem superseded_preview_is_revoked
    (evs : list event) (file : File) (rest : list File) (old : string) :
  let s := dom (run evs initPage) in
  currentObjectUrl s = Some old ->
  ok (validateFile (Some file)) = true ->
  sameAsCurrent file s = false ->
  let s' := handleFiles (Some (file :: rest)) s in
  (old ∉ objectUrls s') /\
  exists new, currentObjectUrl s' = Some new /\ new ∈ objectUrls s' /\ new <> old.
Proof.
  intros s Hold Hok Hdiff s'.
  pose proof (consistent_run evs initPage consistent_initPage) as Hp.
  pose proof (next_url_fresh _ Hp) as Hfresh. fold s in Hfresh.
  assert (Hlive : old ∈ objectUrls s).
  { unfold s. rewrite (urls_accounted _ Hp). unfold previewUrls. fold s.
    rewrite Hold. apply elem_of_union_l, elem_of_singleton. reflexivity. }
  assert (Hne : blobUrl (urlCounter s) <> old) by (intros E; now rewrite E in Hfresh).
  destruct (handleFiles_urls (Some (file :: rest)) s) as [Hs | (A & B & C & D)].
  - exfalso. destruct Hs as (E1 & _ & _ & E4).
    unfold handleFiles in E4. rewrite Hdiff, Hok in E4. cbn [negb] in E4.
    revert E4. unfold showPreview, cleanupPreview, createObjectURL.
    destruct s; cbn. destruct currentObjectUrl0; cbn; lia.
  - fold s' in A, B, C, D. split.
    + rewrite C. unfold previewUrls. rewrite Hold.
      intros Hin. apply elem_of_union in Hin as [Hin | Hin].
      * apply elem_of_singleton in Hin. now symmetry in Hin.
      * apply elem_of_difference in Hin as [_ Hin]. apply Hin.
        now apply elem_of_singleton.
    + exists (blobUrl (urlCounter s)). split; [exact B|]. split; [|exact Hne].
      rewrite C. apply elem_of_union_l, elem_of_singleton. reflexivity.
Qed.

Lemma superseded_preview_is_revoked_witness :
  let s := dom (run [Drop (Some [mkFile "photo.JPG" "image/jpeg" 500000])] initPage) in
  let s' := handleFiles (Some [mkFile "other.jpeg" "image/jpeg" 42]) s in
  ("blob:0" ∉ objectUrls s') /\
  exists new, currentObjectUrl s' = Some new /\ new ∈ objectUrls s' /\ new <> "blob:0".
Proof.
  apply (superseded_preview_is_revoked
           [Drop (Some [mkFile "photo.JPG" "image/jpeg" 500000])]
           (mkFile "other.jpeg" "image/jpeg" 42) [] "blob:0"); reflexivity.
Defined.

(** ** Byte sizes *)

Lemma append_assoc (a b c : string) : (a +:+ b) +:+ c = a +:+ (b +:+ c).
Proof.
  induction a as [|x a IH]; [reflexivity|].
  change (String x ((a +:+ b) +:+ c) = String x (a +:+ (b +:+ c))).
  now f_equal.
Qed.

Lemma pad_left_digit (d : Z) : 0 <= d < 10 -> pad_left 1 (pretty d) = pretty d.
Proof.
  intros Hd.
  assert (H : d = 0 \/ d = 1 \/ d = 2 \/ d = 3 \/ d = 4 \/ d = 5 \/ d = 6 \/
              d = 7 \/ d = 8 \/ d = 9) by lia.
  repeat (destruct H as [-> | H]; [reflexivity|]). subst d. reflexivity.
Qed.

(** The integer nearest to [p·num/den], the larger one on a tie. *)
Lemma nearest_bounds (num den p : Z) :
  0 < den -> 0 <= num -> 0 < p ->
  let n := (2 * num * p + den) / (2 * den) in
  Z.abs (den * n - p * num) * 2 <= den.
Proof.
  intros Hden Hnum Hp n.
  pose proof (Z.mul_div_le (2 * num * p + den) (2 * den) ltac:(lia)) as H1.
  pose proof (Z.mul_succ_div_gt (2 * num * p + den) (2 * den) ltac:(lia)) as H2.
  fold n in H1, H2. lia.
Qed.

Lemma toFixed_digits_scale (num den c : Z) (digits : nat) :
  0 < c -> 0 < den ->
  toFixed_digits (num * c) (den * c) digits = toFixed_digits num den digits.
Proof.
  intros Hc Hden. unfold toFixed_digits.
  replace (2 * (num * c) * 10 ^ Z.of_nat digits + den * c)
    with ((2 * num * 10 ^ Z.of_nat digits + den) * c) by ring.
  replace (2 * (den * c)) with (2 * den * c) by ring.
  rewrite Z.div_mul_cancel_r by lia. reflexivity.
Qed.

(** On natural numbers below [2^53] the strict comparison of numbers is that
    of integers. *)
Lemma ltb_of_Z (a b : Z) :
  0 <= a < 2 ^ 53 -> 0 < b < 2 ^ 53 ->
  SFltb (Num.of_Z a) (Num.of_Z b) = (a <? b).
Proof.
  intros Ha Hb. unfold SFltb.
  destruct (Z.eq_dec a 0) as [->|Ha0].
  - destruct (of_Z_normal b Hb) as (m & e & -> & _). cbn.
    symmetry. apply Z.ltb_lt. lia.
  - rewrite compare_of_Z by lia. unfold Z.ltb. now destruct (a ?= b).
Qed.

(** The division of a number by [2^k] is exact: the mantissa is kept. *)
Lemma div_pow2 (m : positive) (e k : Z) :
  Zpos (digits2_pos m) = 53 -> -52 <= e <= 0 -> 0 <= k <= 52 ->
  Num.div (S754_finite false m e) (S754_finite false (Z.to_pos (2 ^ 52)) (k - 52))
    = S754_finite false m (e - k).
Proof.
  intros Hm He Hk.
  destruct (div_normal_Z m (Z.to_pos (2 ^ 52)) e (k - 52) Hm eq_refl
              ltac:(lia) ltac:(lia)) as (m1 & n & Hn & Hm1 & -> & Herr & _).
  pose proof (mantissa_bounds m Hm) as Hmb.
  change (Zpos (Z.to_pos (2 ^ 52))) with 4503599627370496 in Herr.
  change (2 ^ 53) with 9007199254740992 in *.
  change (2 ^ 52) with 4503599627370496 in *.
  unfold rounded. change (2 ^ 53) with 9007199254740992.
  assert (Hcase : n = 0 \/ n = 1) by lia. destruct Hcase as [-> | ->].
  - change (2 ^ 0) with 1 in Herr.
    assert (m1 = 9007199254740992 /\ Zpos m = 4503599627370496) as [-> Hmx] by lia.
    destruct (Z.ltb_spec 9007199254740992 9007199254740992); [lia|].
    f_equal; [|lia]. apply Pos2Z.inj. rewrite Hmx. reflexivity.
  - change (2 ^ 1) with 2 in Herr.
    assert (m1 = Zpos m) as -> by lia.
    destruct (Z.ltb_spec (Zpos m) 9007199254740992); [|lia].
    f_equal; solve [lia | apply Pos2Z.id].
Qed.

(** Kilobytes and megabytes: the quotient of a size below 2^53 by 1024 or
    1024² is exact, and [toFixed] rounds the exact quotient. *)
Lemma toFixed_div_pow2 (b k : Z) (d : Num.number) (digits : nat) :
  0 < b < 2 ^ 53 -> 0 < k <= 52 ->
  d = S754_finite false (Z.to_pos (2 ^ 52)) (k - 52) ->
  toFixed (Num.div (Num.of_Z b) d) digits = toFixed_digits b (2 ^ k) digits.
Proof.
  intros Hb Hk ->. destruct (of_Z_normal b Hb) as (m & e & -> & Hm & He & Hv).
  rewrite div_pow2 by (assumption || lia). unfold toFixed.
  destruct (Z.leb_spec 0 (e - k)); [lia|]. cbn [append].
  rewrite Hv. replace (- (e - k)) with (k + - e) by lia.
  rewrite Z.pow_add_r by lia.
  apply toFixed_digits_scale; apply Z.pow_pos_nonneg; lia.
Qed.

(** Below 1024 the digits printed are those of the integer. *)
Lemma Number_toString_small (b : Z) :
  0 <= b < 1024 -> Number_toString (Num.of_Z b) = pretty b.
Proof.
  intros Hb.
  assert (H : forallb (fun i => String.eqb (Number_toString (Num.of_Z (Z.of_nat i)))
                                           (pretty (Z.of_nat i)))
                      (List.seq 0 1024) = true) by (vm_compute; reflexivity).
  rewrite forallb_forall in H. specialize (H (Z.to_nat b)).
  rewrite Z2Nat.id in H by lia. apply String.eqb_eq, H, in_seq. lia.
Qed.

(** X21. The size displayed.  A size below 2^53 is displayed exactly: whole
    bytes below 1024; below 1024² the number of kilobytes with one decimal;
    from there on the number of megabytes with two decimals; the number
    displayed is the nearest one with that many decimals (half a unit of the
    last digit away at most), so that a file just below 1024² bytes reads
    1024.0 KB.  Above 2^53 the size is first rounded to a number, and from
    10^21 megabytes on the exponent notation is used. *)
Theorem formatBytes_rounds (b : Z) :
  (0 <= b < 1024 -> formatBytes b = pretty b +:+ " B") /\
  (1024 <= b < 1024 * 1024 ->
   exists n,
     formatBytes b = pretty (n / 10) +:+ "." +:+ pretty (n mod 10) +:+ " KB" /\
     10 <= n <= 10240 /\ Z.abs (1024 * n - 10 * b) * 2 <= 1024) /\
  (1024 * 1024 <= b < 2 ^ 53 ->
   exists n,
     formatBytes b
       = pretty (n / 100) +:+ "." +:+ pad_left 2 (pretty (n mod 100)) +:+ " MB" /\
     100 <= n /\ Z.abs (1048576 * n - 100 * b) * 2 <= 1048576) /\
  formatBytes (2 ^ 53 + 1) = formatBytes (2 ^ 53) /\
  formatBytes (1024 * 1024 * 10 ^ 21) = "1e+21 MB".
Proof.
  split; [|split; [|split; [|split; vm_compute; reflexivity]]]; unfold formatBytes.
  - intros Hb. rewrite ltb_of_Z by (change (2 ^ 53) with 9007199254740992; lia).
    destruct (Z.ltb_spec b 1024); [|lia]. now rewrite Number_toString_small.
  - intros Hb. change (Num.mul (Num.of_Z 1024) (Num.of_Z 1024)) with (Num.of_Z 1048576).
    rewrite !ltb_of_Z by (change (2 ^ 53) with 9007199254740992; lia).
    destruct (Z.ltb_spec b 1024); [lia|].
    destruct (Z.ltb_spec b 1048576); [|lia].
    rewrite (toFixed_div_pow2 b 10)
      by (reflexivity || lia || (change (2 ^ 53) with 9007199254740992; lia)).
    pose proof (nearest_bounds b 1024 10 ltac:(lia) ltac:(lia) ltac:(lia)) as Hn.
    cbv zeta in Hn. unfold toFixed_digits. change (2 ^ 10) with 1024.
    change (10 ^ Z.of_nat 1) with 10.
    set (n := (2 * b * 10 + 1024) / (2 * 1024)) in *.
    exists n. rewrite pad_left_digit by (apply Z.mod_pos_bound; lia).
    split; [now rewrite !append_assoc|]. split; [lia | exact Hn].
  - intros Hb. change (Num.mul (Num.of_Z 1024) (Num.of_Z 1024)) with (Num.of_Z 1048576).
    rewrite !ltb_of_Z by (change (2 ^ 53) with 9007199254740992 in *; lia).
    destruct (Z.ltb_spec b 1024); [lia|].
    destruct (Z.ltb_spec b 1048576); [lia|].
    rewrite (toFixed_div_pow2 b 20) by (reflexivity || lia).
    pose proof (nearest_bounds b 1048576 100 ltac:(lia) ltac:(lia) ltac:(lia)) as Hn.
    cbv zeta in Hn. unfold toFixed_digits. change (2 ^ 20) with 1048576.
    change (10 ^ Z.of_nat 2) with 100.
    set (n := (2 * b * 100 + 1048576) / (2 * 1048576)) in *.
    exists n. split; [now rewrite !append_assoc|]. split; lia.
Qed.

Lemma formatBytes_rounds_witness :
  (exists n,
     formatBytes 1048575 = pretty (n / 10) +:+ "." +:+ pretty (n mod 10) +:+ " KB" /\
     10 <= n <= 10240 /\ Z.abs (1024 * n - 10 * 1048575) * 2 <= 1024) /\
  (exists n,
     formatBytes 5247999
       = pretty (n / 100) +:+ "." +:+ pad_left 2 (pretty (n mod 100)) +:+ " MB" /\
     100 <= n /\ Z.abs (1048576 * n - 100 * 5247999) * 2 <= 1048576) /\
  formatBytes 1023 = pretty 1023 +:+ " B".
Proof.
  split; [|split].
  - apply (formatBytes_rounds 1048575). lia.
  - apply (formatBytes_rounds 5247999). lia.
  - apply (formatBytes_rounds 1023). lia.
Defined.
